(** * HeapLens: heap-dump decoding and object-graph analysis

    A shallow embedding of the Go packages [graph], [heapdump] and
    [heapdump/goheap], and the properties of the analysis core that are
    settled against it.

    Conventions of the embedding:
    - [uint64] and [int] values are integers in [Z]; arithmetic that can wrap
      is reduced with [wrap64];
    - a Go slice is [slice A]: [None] is the [nil] slice, [Some l] a non-nil
      slice with elements [l]; where the code never tests for [nil] a plain
      list is used;
    - a Go map is a [gmap]; reading an absent key yields the zero value;
    - ranging over a Go map visits the entries in an order the runtime
      chooses, so every such loop takes the order of the visit as an
      argument, and a predicate says which orders the runtime may choose;
    - recursion and loops without a syntactic bound take [fuel]. *)

From Stdlib Require Import ZArith List Lia Strings.Byte.
From stdpp Require Import gmap list strings.

Open Scope Z_scope.

(** ** Errors and outcomes *)

(** Arguments of a [fmt.Errorf] call. *)
Inductive fmtarg : Type :=
| ArgInt (z : Z)
| ArgBytes (bs : list byte).

(** Go [error] values met in the packages: the sentinels of [io] and
    [encoding/binary], the registry's [ErrNoParser], errors made by
    [fmt.Errorf] (with or without a [%w] cause) and errors made by a caller's
    callback. *)
Inductive error : Type :=
| EOF
| ErrUnexpectedEOF
| errOverflow
| ErrNoParser
| Errorf (format : string) (args : list fmtarg)
| Wrapf (format : string) (args : list fmtarg) (cause : error)
| CallbackError (tag : Z).

(** What running a piece of Go code yields: a value, an [error] returned, a
    run-time panic, or (in the embedding only) the fuel ran out. *)
Inductive outcome (A : Type) : Type :=
| Ok (a : A)
| Err (e : error)
| Panic
| OutOfFuel.
Arguments Ok {A} a.
Arguments Err {A} e.
Arguments Panic {A}.
Arguments OutOfFuel {A}.

#[global] Instance outcome_ret : MRet outcome := fun _ a => Ok a.
#[global] Instance outcome_bind : MBind outcome := fun _ _ k m =>
  match m with
  | Ok a => k a
  | Err e => Err e
  | Panic => Panic
  | OutOfFuel => OutOfFuel
  end.

(** A loop over a list whose body may fail. *)
Fixpoint foldM {A B} (f : B -> A -> outcome B) (b : B) (l : list A) : outcome B :=
  match l with
  | [] => Ok b
  | a :: l' => b' ← f b a; foldM f b' l'
  end.

(** Go slices. *)
Definition slice (A : Type) : Type := option (list A).
Definition elems {A} (s : slice A) : list A := default [] s.

(** [l[i]] on a slice: panics out of range. *)
Definition index {A} (l : list A) (i : Z) : outcome A :=
  if i <? 0 then Panic
  else match l !! Z.to_nat i with
       | Some x => Ok x
       | None => Panic
       end.

Definition wrap64 (z : Z) : Z := z mod 2 ^ 64.

(** Reading a Go map: the zero value when the key is absent. *)
Definition zget (m : gmap Z Z) (k : Z) : Z := default 0 (m !! k).
Definition sget {A} (m : gmap Z (list A)) (k : Z) : list A := default [] (m !! k).
Definition bget (m : gmap Z bool) (k : Z) : bool := default false (m !! k).

(** ** Package graph *)

Module graph.

(** graph/types.go *)
Abbreviation ObjID := Z (only parsing).

Record Object : Type := {
  ID : ObjID;
  Type_ : string;
  Size : Z;
  Ptrs : slice ObjID
}.

Record Roots : Type := { IDs : slice ObjID }.

(** graph/graph.go: [MemGraph] (the mutex guards concurrent access and has no
    counterpart here). *)
Record MemGraph : Type := {
  objects : gmap ObjID Object;
  roots : Roots
}.

Definition NewMemGraph : MemGraph :=
  {| objects := ∅; roots := {| IDs := None |} |}.

Definition AddObject (g : MemGraph) (obj : Object) : MemGraph :=
  {| objects := <[ID obj := obj]> (objects g); roots := roots g |}.

Definition GetObject (g : MemGraph) (id : ObjID) : option Object :=
  objects g !! id.

Definition NumObjects (g : MemGraph) : Z := Z.of_nat (size (objects g)).

Definition SetRoots (g : MemGraph) (r : Roots) : MemGraph :=
  {| objects := objects g; roots := r |}.

Definition GetRoots (g : MemGraph) : Roots := roots g.

(** [ForEachObject] ranges over the map [g.objects]: [visit] is the sequence
    of objects one call hands to its callback, some arrangement of the
    map's values. *)
Definition ForEachObject_order (g : MemGraph) (visit : list Object) : Prop :=
  visit ≡ₚ (map_to_list (objects g)).*2.

Definition ForEachObject {S} (visit : list Object) (fn : S -> Object -> S) (s : S) : S :=
  foldl fn s visit.

(** The orders in which a [range] over a map may visit it. *)
Definition range_order {A} (m : gmap Z A) (visit : list (Z * A)) : Prop :=
  visit ≡ₚ map_to_list m.

(** graph/reverse.go *)
Abbreviation ReverseEdges := (gmap Z (list Z)) (only parsing).

(** [reverse[targetID] = append(reverse[targetID], obj.ID)] *)
Definition addReferrer (objID : ObjID) (reverse : ReverseEdges) (targetID : ObjID)
    : ReverseEdges :=
  <[targetID := sget reverse targetID ++ [objID]]> reverse.

Definition BuildReverseEdges (visit : list Object) : ReverseEdges :=
  ForEachObject visit
    (fun reverse obj => foldl (addReferrer (ID obj)) reverse (elems (Ptrs obj)))
    ∅.

(** graph/paths.go *)
Record Path : Type := { Path_IDs : list ObjID }.

Record searchNode : Type := { id : ObjID; path : list ObjID }.

(** The scan [for _, id := range node.path] that sets [inPath]. *)
Fixpoint inPath (referrerID : ObjID) (p : list ObjID) : bool :=
  match p with
  | [] => false
  | x :: p' => if x =? referrerID then true else inPath referrerID p'
  end.

(** The loop over the referrers of one dequeued node; it stops early when
    [maxPaths] results are collected. *)
Fixpoint visitReferrers (rootSet : gmap ObjID bool) (maxPaths : Z)
    (node : searchNode) (referrers : list ObjID)
    (result : list Path) (queue : list searchNode) : list Path * list searchNode :=
  match referrers with
  | [] => (result, queue)
  | referrerID :: rest =>
    if inPath referrerID (path node) then
      visitReferrers rootSet maxPaths node rest result queue
    else
      let newPath := path node ++ [referrerID] in
      if bget rootSet referrerID then
        let result := result ++ [{| Path_IDs := newPath |}] in
        if Z.of_nat (length result) >=? maxPaths then (result, queue)
        else visitReferrers rootSet maxPaths node rest result queue
      else
        visitReferrers rootSet maxPaths node rest result
          (queue ++ [{| id := referrerID; path := newPath |}])
  end.

(** The loop [for len(queue) > 0 && len(result) < maxPaths]. *)
Fixpoint bfs (fuel : nat) (reverse : ReverseEdges) (rootSet : gmap ObjID bool)
    (maxPaths : Z) (queue : list searchNode) (result : list Path)
    : outcome (list Path) :=
  match queue with
  | [] => Ok result
  | node :: queue =>
    if Z.of_nat (length result) <? maxPaths then
      match fuel with
      | O => OutOfFuel
      | S fuel' =>
        let '(result, queue) :=
          visitReferrers rootSet maxPaths node (sget reverse (id node)) result queue in
        bfs fuel' reverse rootSet maxPaths queue result
      end
    else Ok result
  end.

Definition PathsToRoots (fuel : nat) (g : MemGraph) (visit : list Object)
    (from : ObjID) (maxPaths : Z) : outcome (list Path) :=
  if maxPaths <=? 0 then Ok []
  else
    let reverse := BuildReverseEdges visit in
    let roots := GetRoots g in
    let rootSet := foldl (fun rootSet id => <[id := true]> rootSet) ∅ (elems (IDs roots)) in
    if bget rootSet from then Ok [{| Path_IDs := [from] |}]
    else bfs fuel reverse rootSet maxPaths [{| id := from; path := [from] |}] [].

(** graph/dominators.go: the maps and the slice that [Dominators] declares
    and its closures [dfs], [compress], [eval] and [link] share. *)
Record ltState : Type := {
  dfsNum : Z;
  vertex : list ObjID;
  parent : gmap ObjID Z;
  dfnum : gmap ObjID Z;
  semi : gmap ObjID Z;
  ancestor : gmap ObjID Z;
  idom : gmap ObjID ObjID;
  samedom : gmap ObjID ObjID;
  best : gmap ObjID ObjID;
  bucket : gmap Z (list ObjID)
}.

Definition ltInit : ltState :=
  {| dfsNum := 0; vertex := []; parent := ∅; dfnum := ∅; semi := ∅;
     ancestor := ∅; idom := ∅; samedom := ∅; best := ∅; bucket := ∅ |}.

Definition set_semi (f : gmap ObjID Z -> gmap ObjID Z) (st : ltState) : ltState :=
  {| dfsNum := dfsNum st; vertex := vertex st; parent := parent st;
     dfnum := dfnum st; semi := f (semi st); ancestor := ancestor st;
     idom := idom st; samedom := samedom st; best := best st;
     bucket := bucket st |}.

Definition set_ancestor (f : gmap ObjID Z -> gmap ObjID Z) (st : ltState) : ltState :=
  {| dfsNum := dfsNum st; vertex := vertex st; parent := parent st;
     dfnum := dfnum st; semi := semi st; ancestor := f (ancestor st);
     idom := idom st; samedom := samedom st; best := best st;
     bucket := bucket st |}.

Definition set_idom (f : gmap ObjID ObjID -> gmap ObjID ObjID) (st : ltState) : ltState :=
  {| dfsNum := dfsNum st; vertex := vertex st; parent := parent st;
     dfnum := dfnum st; semi := semi st; ancestor := ancestor st;
     idom := f (idom st); samedom := samedom st; best := best st;
     bucket := bucket st |}.

Definition set_samedom (f : gmap ObjID ObjID -> gmap ObjID ObjID) (st : ltState) : ltState :=
  {| dfsNum := dfsNum st; vertex := vertex st; parent := parent st;
     dfnum := dfnum st; semi := semi st; ancestor := ancestor st;
     idom := idom st; samedom := f (samedom st); best := best st;
     bucket := bucket st |}.

Definition set_best (f : gmap ObjID ObjID -> gmap ObjID ObjID) (st : ltState) : ltState :=
  {| dfsNum := dfsNum st; vertex := vertex st; parent := parent st;
     dfnum := dfnum st; semi := semi st; ancestor := ancestor st;
     idom := idom st; samedom := samedom st; best := f (best st);
     bucket := bucket st |}.

Definition set_bucket (f : gmap Z (list ObjID) -> gmap Z (list ObjID)) (st : ltState) : ltState :=
  {| dfsNum := dfsNum st; vertex := vertex st; parent := parent st;
     dfnum := dfnum st; semi := semi st; ancestor := ancestor st;
     idom := idom st; samedom := samedom st; best := best st;
     bucket := f (bucket st) |}.

(** The first visit of [v] by [dfs]: number it and initialise its entries. *)
Definition discover (v : ObjID) (p : Z) (st : ltState) : ltState :=
  {| dfsNum := dfsNum st + 1;
     vertex := vertex st ++ [v];
     parent := <[v := p]> (parent st);
     dfnum := <[v := dfsNum st]> (dfnum st);
     semi := <[v := dfsNum st]> (semi st);
     ancestor := <[v := -1]> (ancestor st);
     idom := idom st;
     samedom := <[v := v]> (samedom st);
     best := <[v := v]> (best st);
     bucket := bucket st |}.

Fixpoint dfs (fuel : nat) (adj : gmap ObjID (list ObjID)) (v : ObjID) (p : Z)
    (st : ltState) : outcome ltState :=
  match fuel with
  | O => OutOfFuel
  | S fuel' =>
    match dfnum st !! v with
    | Some _ => Ok st
    | None =>
      foldM (fun st w => dfs fuel' adj w (zget (dfnum st) v) st)
            (discover v p st) (sget adj v)
    end
  end.

Fixpoint compress (fuel : nat) (v : ObjID) (st : ltState) : outcome ltState :=
  match fuel with
  | O => OutOfFuel
  | S fuel' =>
    let anc := zget (ancestor st) v in
    if anc =? -1 then Ok st
    else
      ancID ← index (vertex st) anc;
      if negb (zget (ancestor st) ancID =? -1) then
        st ← compress fuel' ancID st;
        let st :=
          if zget (semi st) (zget (best st) ancID) <? zget (semi st) (zget (best st) v)
          then set_best <[v := zget (best st) ancID]> st
          else st in
        Ok (set_ancestor <[v := zget (ancestor st) ancID]> st)
      else Ok st
  end.

Definition eval (fuel : nat) (v : ObjID) (st : ltState) : outcome (ObjID * ltState) :=
  if zget (ancestor st) v =? -1 then Ok (v, st)
  else st ← compress fuel v st; Ok (zget (best st) v, st).

Definition link (v : ObjID) (w : Z) (st : ltState) : ltState :=
  set_ancestor <[v := w]> st.

Definition processEdge (fuel : nat) (v w : ObjID) (st : ltState) : outcome ltState :=
  match dfnum st !! v with
  | None => Ok st
  | Some vNum =>
    let wNum := zget (dfnum st) w in
    '(u, st) ← (if vNum <=? wNum then Ok (v, st) else eval fuel v st);
    if zget (semi st) u <? zget (semi st) w
    then Ok (set_semi <[w := zget (semi st) u]> st)
    else Ok st
  end.

(** One round of the loop [for i := dfsNum - 1; i > 0; i--]. *)
Definition semiStep (fuel : nat) (allObjects : list Object)
    (adj : gmap ObjID (list ObjID)) (st : ltState) (i : Z) : outcome ltState :=
  w ← index (vertex st) i;
  st ← foldM (fun st v =>
                foldM (fun st ptr =>
                         if ptr =? w then processEdge fuel (ID v) w st else Ok st)
                      st (elems (Ptrs v)))
             st allObjects;
  st ← foldM (fun st ptr => if ptr =? w then processEdge fuel 0 w st else Ok st)
             st (sget adj 0);
  let st := set_bucket <[zget (semi st) w := sget (bucket st) (zget (semi st) w) ++ [w]]> st in
  let st := if negb (zget (parent st) w =? -1) then link w (zget (parent st) w) st else st in
  st ← foldM (fun st v =>
                '(u, st) ← eval fuel v st;
                if zget (semi st) u =? zget (semi st) v then
                  d ← index (vertex st) (zget (parent st) w);
                  Ok (set_idom <[v := d]> st)
                else Ok (set_samedom <[v := u]> st))
             st (sget (bucket st) (zget (parent st) w));
  Ok (set_bucket <[zget (parent st) w := []]> st).

(** One round of the loop [for i := 1; i < dfsNum; i++]. *)
Definition idomStep (st : ltState) (i : Z) : outcome ltState :=
  w ← index (vertex st) i;
  if negb (zget (samedom st) w =? w)
  then Ok (set_idom <[w := zget (idom st) (zget (samedom st) w)]> st)
  else Ok st.

(** [allObjects] is filled by [ForEachObject], in the order [visit]. *)
Definition Dominators (fuel : nat) (g : MemGraph) (visit : list Object)
    : outcome (gmap ObjID ObjID) :=
  let allObjects := ForEachObject visit (fun acc obj => acc ++ [obj]) [] in
  let roots := GetRoots g in
  let adj : gmap ObjID (list ObjID) :=
    if 0 <? Z.of_nat (length (elems (IDs roots)))
    then <[0 := elems (IDs roots)]> ∅ else ∅ in
  let adj :=
    foldl (fun adj obj =>
             match Ptrs obj with
             | Some ptrs => <[ID obj := ptrs]> adj
             | None => adj
             end) adj allObjects in
  st ← dfs fuel adj 0 (-1) ltInit;
  st ← foldM (semiStep fuel allObjects adj) st (reverse (seqZ 1 (dfsNum st - 1)));
  st ← foldM idomStep st (seqZ 1 (dfsNum st - 1));
  Ok (delete 0 (idom st)).

(** [DominatorTree] ranges twice over [idom]. *)
Definition DominatorTree (idom : gmap ObjID ObjID)
    (visit1 visit2 : list (ObjID * ObjID)) : gmap ObjID (list ObjID) :=
  let tree := foldl (fun tree '(node, _) => <[node := []]> tree) ∅ visit1 in
  let tree := <[0 := []]> tree in
  foldl (fun tree '(node, dom) => <[dom := sget tree dom ++ [node]]> tree) tree visit2.

(** graph/retained.go: the closure [computeRetained], with the memo table
    [retained] threaded through. *)
Fixpoint computeRetained (fuel : nat) (objSizes : gmap ObjID Z)
    (tree : gmap ObjID (list ObjID)) (nodeID : ObjID) (retained : gmap ObjID Z)
    : outcome (Z * gmap ObjID Z) :=
  match fuel with
  | O => OutOfFuel
  | S fuel' =>
    match retained !! nodeID with
    | Some size => Ok (size, retained)
    | None =>
      '(size, retained) ←
        foldM (fun '(size, retained) child =>
                 '(r, retained) ← computeRetained fuel' objSizes tree child retained;
                 Ok (wrap64 (size + r), retained))
              (zget objSizes nodeID, retained) (sget tree nodeID);
      Ok (size, <[nodeID := size]> retained)
    end
  end.

(** The visiting orders one call of [RetainedSize] meets: the two calls of
    [ForEachObject] (in [Dominators] and for [objSizes]), the two ranges over
    [idom] in [DominatorTree], and the range over [tree]. *)
Record schedule : Type := {
  visitDominators : list Object;
  visitIdom1 : list (ObjID * ObjID);
  visitIdom2 : list (ObjID * ObjID);
  visitSizes : list Object;
  visitTree : list (ObjID * list ObjID)
}.

Definition RetainedSize (fuel : nat) (g : MemGraph) (sch : schedule)
    : outcome (gmap ObjID Z) :=
  dominators ← Dominators fuel g (visitDominators sch);
  let tree := DominatorTree dominators (visitIdom1 sch) (visitIdom2 sch) in
  let objSizes :=
    ForEachObject (visitSizes sch)
      (fun objSizes obj => <[ID obj := Size obj]> objSizes) ∅ in
  let objSizes := <[0 := 0]> objSizes in
  retained ← foldM (fun retained '(nodeID, _) =>
                      '(_, retained) ← computeRetained fuel objSizes tree nodeID retained;
                      Ok retained)
                   ∅ (visitTree sch);
  Ok (delete 0 retained).

(** The schedules the runtime may choose for [RetainedSize] on [g]. *)
Definition schedule_ok (fuel : nat) (g : MemGraph) (sch : schedule) : Prop :=
  ForEachObject_order g (visitDominators sch) ∧
  ForEachObject_order g (visitSizes sch) ∧
  ∀ dominators, Dominators fuel g (visitDominators sch) = Ok dominators →
    range_order dominators (visitIdom1 sch) ∧
    range_order dominators (visitIdom2 sch) ∧
    range_order (DominatorTree dominators (visitIdom1 sch) (visitIdom2 sch))
                (visitTree sch).

(** [RetainedSizeSubsets]: the same closure with the memo table [computed];
    of the schedule it meets the two calls of [ForEachObject] and the two
    ranges over [idom]. *)
Definition RetainedSizeSubsets (fuel : nat) (g : MemGraph) (sch : schedule)
    (targetIDs : list ObjID) : outcome (gmap ObjID Z) :=
  if Z.of_nat (length targetIDs) =? 0 then Ok ∅
  else
    dominators ← Dominators fuel g (visitDominators sch);
    let tree := DominatorTree dominators (visitIdom1 sch) (visitIdom2 sch) in
    let objSizes :=
      ForEachObject (visitSizes sch)
        (fun objSizes obj => <[ID obj := Size obj]> objSizes) ∅ in
    let objSizes := <[0 := 0]> objSizes in
    '(result, _) ←
      foldM (fun '(result, computed) targetID =>
               match objSizes !! targetID with
               | Some _ =>
                 if negb (targetID =? 0) then
                   '(size, computed) ←
                     computeRetained fuel objSizes tree targetID computed;
                   Ok (<[targetID := size]> result, computed)
                 else Ok (result, computed)
               | None => Ok (result, computed)
               end)
            (∅, ∅) targetIDs;
    Ok result.

(** graph/domtree.go: the closure [computeDepth] of [DominatorDepth], with
    the map [depth] threaded through (a depth is an [int]; it stays far below
    the range of one, being bounded by the depth of the recursion). *)
Fixpoint computeDepth (fuel : nat) (tree : gmap ObjID (list ObjID)) (node : ObjID)
    (d : Z) (depth : gmap ObjID Z) : outcome (gmap ObjID Z) :=
  match fuel with
  | O => OutOfFuel
  | S fuel' =>
    foldM (fun depth child => computeDepth fuel' tree child (d + 1) depth)
          (<[node := d]> depth) (sget tree node)
  end.

Definition DominatorDepth (fuel : nat) (tree : gmap ObjID (list ObjID))
    : outcome (gmap ObjID Z) :=
  computeDepth fuel tree 0 0 ∅.

(** The loop of [DominatorPath]; [path] is the slice built so far. *)
Fixpoint DominatorPath_loop (fuel : nat) (idom : gmap ObjID ObjID) (current : ObjID)
    (path : list ObjID) : outcome (list ObjID) :=
  match fuel with
  | O => OutOfFuel
  | S fuel' =>
    let path := path ++ [current] in
    let stop := Ok (if negb (current =? 0) then path ++ [0] else path) in
    match idom !! current with
    | Some dom => if dom =? 0 then stop else DominatorPath_loop fuel' idom dom path
    | None => stop
    end
  end.

Definition DominatorPath (fuel : nat) (idom : gmap ObjID ObjID) (node : ObjID)
    : outcome (list ObjID) :=
  DominatorPath_loop fuel idom node [].

(** The loop of [IsDominated]. *)
Fixpoint IsDominated_loop (fuel : nat) (idom : gmap ObjID ObjID)
    (current dominator : ObjID) : outcome bool :=
  match fuel with
  | O => OutOfFuel
  | S fuel' =>
    match idom !! current with
    | None => Ok false
    | Some dom =>
      if dom =? dominator then Ok true
      else if dom =? 0 then Ok (dominator =? 0)
      else IsDominated_loop fuel' idom dom dominator
    end
  end.

Definition IsDominated (fuel : nat) (idom : gmap ObjID ObjID) (node dominator : ObjID)
    : outcome bool :=
  if node =? dominator then Ok true
  else IsDominated_loop fuel idom node dominator.

End graph.

(** ** Readers and the byte codec *)

(** A computation over a state [St] that yields an [outcome]; the state
    reached is kept when the computation fails, as a Go method leaves its
    receiver. *)
Definition M (St A : Type) : Type := St -> outcome A * St.

#[global] Instance M_ret St : MRet (M St) := fun _ a s => (Ok a, s).
#[global] Instance M_bind St : MBind (M St) := fun _ _ k m s =>
  match m s with
  | (Ok a, s') => k a s'
  | (Err e, s') => (Err e, s')
  | (Panic, s') => (Panic, s')
  | (OutOfFuel, s') => (OutOfFuel, s')
  end.

Definition fail {St A} (e : error) : M St A := fun s => (Err e, s).
Definition panic {St A} : M St A := fun s => (Panic, s).
Definition get {St} : M St St := fun s => (Ok s, s).
Definition modify {St} (f : St -> St) : M St unit := fun s => (Ok tt, f s).

(** [fmt.Errorf(format + ": %w", err)] around a failing computation. *)
Definition wrapErr {St A} (format : string) (m : M St A) : M St A := fun s =>
  match m s with
  | (Err e, s') => (Err (Wrapf format [] e), s')
  | other => other
  end.

(** [for i := 0; i < n; i++ { body }] *)
Fixpoint repeatM {St} (n : nat) (body : M St unit) : M St unit :=
  match n with
  | O => mret tt
  | S n' => _ ← body; repeatM n' body
  end.

#[global] Instance byte_eq_dec : EqDecision byte := Byte.byte_eq_dec.

Definition byte_val (b : byte) : Z := Z.of_N (Byte.to_N b).
Definition byte_of (z : Z) : byte := default x00 (Byte.of_N (Z.to_N (z mod 256))).
Definition int64 (z : Z) : Z := if z <? 2 ^ 63 then z else z - 2 ^ 64.

(** The input of a parser is an in-memory byte sequence read through a
    [bufio.Reader]: the bytes not yet consumed; reading past the end yields
    [io.EOF]. *)
Definition ReadByte (r : list byte) : outcome byte * list byte :=
  match r with
  | [] => (Err EOF, [])
  | b :: r' => (Ok b, r')
  end.

(** [encoding/binary.ReadUvarint] of the Go standard library: at most
    [MaxVarintLen64 = 10] bytes, seven payload bits each. *)
Fixpoint ReadUvarint_loop (n : nat) (i x s : Z) (r : list byte) : outcome Z * list byte :=
  match n with
  | O => (Err errOverflow, r)
  | S n' =>
    match r with
    | [] => (Err (if 0 <? i then ErrUnexpectedEOF else EOF), [])
    | b :: r' =>
      let b := byte_val b in
      if b <? 128 then
        if (i =? 9) && (1 <? b) then (Err errOverflow, r')
        else (Ok (Z.lor x (wrap64 (Z.shiftl b s))), r')
      else
        ReadUvarint_loop n' (i + 1) (Z.lor x (wrap64 (Z.shiftl (Z.land b 127) s))) (s + 7) r'
    end
  end.

Definition ReadUvarint (r : list byte) : outcome Z * list byte :=
  ReadUvarint_loop 10 0 0 0 r.

(** [encoding/binary.PutUvarint], which the test helpers use to write dumps. *)
Fixpoint PutUvarint_loop (n : nat) (x : Z) : list byte :=
  match n with
  | O => []
  | S n' =>
    if 128 <=? x then byte_of (Z.lor (x mod 256) 128) :: PutUvarint_loop n' (Z.shiftr x 7)
    else [byte_of x]
  end.

Definition PutUvarint (x : Z) : list byte := PutUvarint_loop 10 x.

(** [io.ReadFull] into a buffer of [n] bytes: [EOF] when nothing could be
    read, [ErrUnexpectedEOF] when the input ends part-way. *)
Definition ReadFull (n : Z) (r : list byte) : outcome (list byte) * list byte :=
  let k := Z.to_nat n in
  if (k <=? length r)%nat then (Ok (take k r), drop k r)
  else match r with
       | [] => (Err EOF, [])
       | _ => (Err ErrUnexpectedEOF, [])
       end.

(** [binary.LittleEndian.Uint64]/[Uint32] and their [binary.BigEndian]
    counterparts, on a byte string of the width asked for. *)
Definition LittleEndianUint (bs : list byte) : Z :=
  foldr (fun b acc => byte_val b + 256 * acc) 0 bs.
Definition BigEndianUint (bs : list byte) : Z :=
  foldl (fun acc b => 256 * acc + byte_val b) 0 bs.

(** The slice expression [data[lo:hi]] with [uint64] bounds: panics unless
    [lo <= hi <= len(data)]. *)
Definition subslice (data : list byte) (lo hi : Z) : outcome (list byte) :=
  if (lo <=? hi) && (hi <=? Z.of_nat (length data))
  then Ok (take (Z.to_nat (hi - lo)) (drop (Z.to_nat lo) data))
  else Panic.

(** The decoding of a pointer-sized field, written out at each use in the
    source: 8 or 4 bytes in the dump's byte order, and 0 for any other
    pointer size. *)
Definition decodePointer (bigEndian : bool) (pointerSize : Z) (ptrData : list byte) : Z :=
  if pointerSize =? 8 then
    if bigEndian then BigEndianUint ptrData else LittleEndianUint ptrData
  else if pointerSize =? 4 then
    if bigEndian then BigEndianUint ptrData else LittleEndianUint ptrData
  else 0.

Definition header_magic : list byte :=
  String.list_byte_of_string "go1.7 heap dump" ++ [x0a].

(** ** Package heapdump/goheap: the graph-building parser (parser.go) *)

Module goheap.

Record typeInfo : Type := {
  address : Z;
  size : Z;
  name : string;
  indirect : bool
}.

Record parserStats : Type := {
  stat_objects : Z;
  stat_types : Z;
  stat_roots : Z;
  stat_goroutines : Z
}.

(** The struct [parser]; [r] is what is left of the input. *)
Record parser : Type := {
  r : list byte;
  g : graph.MemGraph;
  types : gmap Z typeInfo;
  addrToObjID : gmap Z graph.ObjID;
  roots : list graph.ObjID;
  nextObjID : graph.ObjID;
  bigEndian : bool;
  pointerSize : Z;
  heapStart : Z;
  heapEnd : Z;
  arch : string;
  goVersion : string;
  numCPUs : Z;
  stats : parserStats
}.

Definition set_r (f : list byte -> list byte) (p : parser) : parser :=
  {| r := f (r p); g := g p; types := types p; addrToObjID := addrToObjID p;
     roots := roots p; nextObjID := nextObjID p; bigEndian := bigEndian p;
     pointerSize := pointerSize p; heapStart := heapStart p; heapEnd := heapEnd p;
     arch := arch p; goVersion := goVersion p; numCPUs := numCPUs p;
     stats := stats p |}.

Definition set_g (f : graph.MemGraph -> graph.MemGraph) (p : parser) : parser :=
  {| r := r p; g := f (g p); types := types p; addrToObjID := addrToObjID p;
     roots := roots p; nextObjID := nextObjID p; bigEndian := bigEndian p;
     pointerSize := pointerSize p; heapStart := heapStart p; heapEnd := heapEnd p;
     arch := arch p; goVersion := goVersion p; numCPUs := numCPUs p;
     stats := stats p |}.

Definition set_types (f : gmap Z typeInfo -> gmap Z typeInfo) (p : parser) : parser :=
  {| r := r p; g := g p; types := f (types p); addrToObjID := addrToObjID p;
     roots := roots p; nextObjID := nextObjID p; bigEndian := bigEndian p;
     pointerSize := pointerSize p; heapStart := heapStart p; heapEnd := heapEnd p;
     arch := arch p; goVersion := goVersion p; numCPUs := numCPUs p;
     stats := stats p |}.

Definition set_addrToObjID (f : gmap Z graph.ObjID -> gmap Z graph.ObjID) (p : parser) : parser :=
  {| r := r p; g := g p; types := types p; addrToObjID := f (addrToObjID p);
     roots := roots p; nextObjID := nextObjID p; bigEndian := bigEndian p;
     pointerSize := pointerSize p; heapStart := heapStart p; heapEnd := heapEnd p;
     arch := arch p; goVersion := goVersion p; numCPUs := numCPUs p;
     stats := stats p |}.

Definition set_roots (f : list graph.ObjID -> list graph.ObjID) (p : parser) : parser :=
  {| r := r p; g := g p; types := types p; addrToObjID := addrToObjID p;
     roots := f (roots p); nextObjID := nextObjID p; bigEndian := bigEndian p;
     pointerSize := pointerSize p; heapStart := heapStart p; heapEnd := heapEnd p;
     arch := arch p; goVersion := goVersion p; numCPUs := numCPUs p;
     stats := stats p |}.

Definition set_nextObjID (f : graph.ObjID -> graph.ObjID) (p : parser) : parser :=
  {| r := r p; g := g p; types := types p; addrToObjID := addrToObjID p;
     roots := roots p; nextObjID := f (nextObjID p); bigEndian := bigEndian p;
     pointerSize := pointerSize p; heapStart := heapStart p; heapEnd := heapEnd p;
     arch := arch p; goVersion := goVersion p; numCPUs := numCPUs p;
     stats := stats p |}.

(** The fields that [parseParams] assigns, one after the other. *)
Definition set_bigEndian (v : bool) (p : parser) : parser :=
  {| r := r p; g := g p; types := types p; addrToObjID := addrToObjID p;
     roots := roots p; nextObjID := nextObjID p; bigEndian := v;
     pointerSize := pointerSize p; heapStart := heapStart p; heapEnd := heapEnd p;
     arch := arch p; goVersion := goVersion p; numCPUs := numCPUs p;
     stats := stats p |}.

Definition set_pointerSize (v : Z) (p : parser) : parser :=
  {| r := r p; g := g p; types := types p; addrToObjID := addrToObjID p;
     roots := roots p; nextObjID := nextObjID p; bigEndian := bigEndian p;
     pointerSize := v; heapStart := heapStart p; heapEnd := heapEnd p;
     arch := arch p; goVersion := goVersion p; numCPUs := numCPUs p;
     stats := stats p |}.

Definition set_heapStart (v : Z) (p : parser) : parser :=
  {| r := r p; g := g p; types := types p; addrToObjID := addrToObjID p;
     roots := roots p; nextObjID := nextObjID p; bigEndian := bigEndian p;
     pointerSize := pointerSize p; heapStart := v; heapEnd := heapEnd p;
     arch := arch p; goVersion := goVersion p; numCPUs := numCPUs p;
     stats := stats p |}.

Definition set_heapEnd (v : Z) (p : parser) : parser :=
  {| r := r p; g := g p; types := types p; addrToObjID := addrToObjID p;
     roots := roots p; nextObjID := nextObjID p; bigEndian := bigEndian p;
     pointerSize := pointerSize p; heapStart := heapStart p; heapEnd := v;
     arch := arch p; goVersion := goVersion p; numCPUs := numCPUs p;
     stats := stats p |}.

Definition set_arch (v : string) (p : parser) : parser :=
  {| r := r p; g := g p; types := types p; addrToObjID := addrToObjID p;
     roots := roots p; nextObjID := nextObjID p; bigEndian := bigEndian p;
     pointerSize := pointerSize p; heapStart := heapStart p; heapEnd := heapEnd p;
     arch := v; goVersion := goVersion p; numCPUs := numCPUs p;
     stats := stats p |}.

Definition set_goVersion (v : string) (p : parser) : parser :=
  {| r := r p; g := g p; types := types p; addrToObjID := addrToObjID p;
     roots := roots p; nextObjID := nextObjID p; bigEndian := bigEndian p;
     pointerSize := pointerSize p; heapStart := heapStart p; heapEnd := heapEnd p;
     arch := arch p; goVersion := v; numCPUs := numCPUs p;
     stats := stats p |}.

Definition set_numCPUs (v : Z) (p : parser) : parser :=
  {| r := r p; g := g p; types := types p; addrToObjID := addrToObjID p;
     roots := roots p; nextObjID := nextObjID p; bigEndian := bigEndian p;
     pointerSize := pointerSize p; heapStart := heapStart p; heapEnd := heapEnd p;
     arch := arch p; goVersion := goVersion p; numCPUs := v;
     stats := stats p |}.

Definition set_stats (f : parserStats -> parserStats) (p : parser) : parser :=
  {| r := r p; g := g p; types := types p; addrToObjID := addrToObjID p;
     roots := roots p; nextObjID := nextObjID p; bigEndian := bigEndian p;
     pointerSize := pointerSize p; heapStart := heapStart p; heapEnd := heapEnd p;
     arch := arch p; goVersion := goVersion p; numCPUs := numCPUs p;
     stats := f (stats p) |}.

(** A read on the parser's input. *)
Definition onReader {A} (rd : list byte -> outcome A * list byte) : M parser A :=
  fun p => let '(res, r') := rd (r p) in (res, set_r (fun _ => r') p).

(** Record tags and field kinds. *)
Definition tagEOF : Z := 0.
Definition tagObject : Z := 1.
Definition tagOtherRoot : Z := 2.
Definition tagType : Z := 3.
Definition tagGoroutine : Z := 4.
Definition tagStackFrame : Z := 5.
Definition tagParams : Z := 6.
Definition tagFinalizer : Z := 7.
Definition tagItab : Z := 8.
Definition tagOSThread : Z := 9.
Definition tagMemStats : Z := 10.
Definition tagQueuedFinalizer : Z := 11.
Definition tagData : Z := 12.
Definition tagBSS : Z := 13.
Definition tagDefer : Z := 14.
Definition tagPanic : Z := 15.
Definition tagMemProf : Z := 16.
Definition tagAllocSample : Z := 17.

Definition fieldKindEol : Z := 0.
Definition fieldKindPtr : Z := 1.
Definition fieldKindIface : Z := 2.
Definition fieldKindEface : Z := 3.

Definition readVarint : M parser Z := onReader ReadUvarint.

Definition readString : M parser string :=
  length ← readVarint;
  if 2 ^ 20 <? length then fail (Errorf "string too long: %d" [ArgInt length])
  else
    data ← onReader (ReadFull length);
    mret (String.string_of_list_byte data).

Definition readBytes : M parser (list byte) :=
  length ← readVarint;
  if 2 ^ 30 <? length then fail (Errorf "byte slice too long: %d" [ArgInt length])
  else onReader (ReadFull length).

(** [finalize] hands the collected roots to the graph. *)
Definition finalize : M parser unit := fun p =>
  (Ok tt, set_g (fun g => graph.SetRoots g {| graph.IDs := Some (roots p) |}) p).

(** A read that fails leaves the field it was meant for as it was; the code
    stores the partial value there, which nothing reads: the failure ends
    the parse. *)
Definition parseParams : M parser unit :=
  bigEndian ← readVarint;
  _ ← modify (set_bigEndian (negb (bigEndian =? 0)));
  v ← readVarint; _ ← modify (set_pointerSize v);
  v ← readVarint; _ ← modify (set_heapStart v);
  v ← readVarint; _ ← modify (set_heapEnd v);
  v ← readString; _ ← modify (set_arch v);
  v ← readString; _ ← modify (set_goVersion v);
  v ← readVarint; modify (set_numCPUs v).

Definition parseType : M parser unit :=
  addr ← readVarint;
  size ← readVarint;
  name ← readString;
  indirect ← readVarint;
  _ ← modify (set_types <[addr := {| address := addr; size := size; name := name;
                                    indirect := negb (indirect =? 0) |}]>);
  modify (set_stats (fun s =>
    {| stat_objects := stat_objects s; stat_types := stat_types s + 1;
       stat_roots := stat_roots s; stat_goroutines := stat_goroutines s |})).

(** The field loop of [parseObject]: it collects the non-null pointer values
    found at the pointer fields that lie within [data]. *)
Fixpoint objectFields (fuel : nat) (data : list byte) (pointers : list Z)
    : M parser (list Z) :=
  match fuel with
  | O => fun p => (OutOfFuel, p)
  | S fuel' =>
    kind ← readVarint;
    if kind =? fieldKindEol then mret pointers
    else
      offset ← readVarint;
      p ← get;
      if (kind =? fieldKindPtr)
         && (int64 (wrap64 (offset + pointerSize p)) <=? Z.of_nat (length data)) then
        match subslice data offset (wrap64 (offset + pointerSize p)) with
        | Ok ptrData =>
          let ptr := decodePointer (bigEndian p) (pointerSize p) ptrData in
          if negb (ptr =? 0) then objectFields fuel' data (pointers ++ [ptr])
          else objectFields fuel' data pointers
        | _ => panic
        end
      else objectFields fuel' data pointers
  end.

Definition parseObject (fuel : nat) : M parser unit :=
  addr ← readVarint;
  data ← readBytes;
  pointers ← objectFields fuel data [];
  p ← get;
  let objID := nextObjID p in
  _ ← modify (set_nextObjID (fun n => wrap64 (n + 1)));
  _ ← modify (set_addrToObjID <[addr := objID]>);
  typeName ←
    (if int64 (pointerSize p) <=? Z.of_nat (length data) then
       match subslice data 0 (pointerSize p) with
       | Ok typeAddrData =>
         let typeAddr := decodePointer (bigEndian p) (pointerSize p) typeAddrData in
         match types p !! typeAddr with
         | Some t => mret (name t)
         | None => mret "unknown"
         end
       | _ => panic
       end
     else mret "unknown");
  let obj := {| graph.ID := objID; graph.Type_ := typeName;
                graph.Size := Z.of_nat (length data);
                graph.Ptrs := Some [] |} in
  _ ← modify (set_g (fun g => graph.AddObject g obj));
  modify (set_stats (fun s =>
    {| stat_objects := stat_objects s + 1; stat_types := stat_types s;
       stat_roots := stat_roots s; stat_goroutines := stat_goroutines s |})).

Definition parseOtherRoot : M parser unit :=
  desc ← readString;
  ptr ← readVarint;
  p ← get;
  _ ← match addrToObjID p !! ptr with
      | Some objID => modify (set_roots (fun roots => roots ++ [objID]))
      | None => mret tt
      end;
  modify (set_stats (fun s =>
    {| stat_objects := stat_objects s; stat_types := stat_types s;
       stat_roots := stat_roots s + 1; stat_goroutines := stat_goroutines s |})).

Definition skipVarint : M parser unit := _ ← readVarint; mret tt.

Definition parseGoroutine : M parser unit :=
  _ ← repeatM 12 skipVarint;
  _ ← readString;
  modify (set_stats (fun s =>
    {| stat_objects := stat_objects s; stat_types := stat_types s;
       stat_roots := stat_roots s; stat_goroutines := stat_goroutines s + 1 |})).

(** The loop that skips a field list: [kind, offset] pairs up to [kind = 0]. *)
Fixpoint skipFields (fuel : nat) : M parser unit :=
  match fuel with
  | O => fun p => (OutOfFuel, p)
  | S fuel' =>
    kind ← readVarint;
    if kind =? fieldKindEol then mret tt
    else _ ← readVarint; skipFields fuel'
  end.

Definition parseStackFrame (fuel : nat) : M parser unit :=
  _ ← repeatM 3 skipVarint;
  _ ← readBytes;
  _ ← repeatM 3 skipVarint;
  _ ← readString;
  skipFields fuel.

Definition parseMemStats : M parser unit := repeatM 8 skipVarint.

Definition skipItab : M parser unit := _ ← skipVarint; skipVarint.

Definition skipFinalizer : M parser unit := repeatM 5 skipVarint.

Definition skipDataSegment (fuel : nat) : M parser unit :=
  _ ← readVarint;
  _ ← readBytes;
  skipFields fuel.

Definition skipDeferPanic : M parser unit := repeatM 5 skipVarint.

Definition skipOSThread : M parser unit := repeatM 3 skipVarint.

(** The loop [for i := uint64(0); i < nstk; i++] of [skipMemProf]. *)
Fixpoint skipFrames (fuel : nat) (i nstk : Z) : M parser unit :=
  if i <? nstk then
    match fuel with
    | O => fun p => (OutOfFuel, p)
    | S fuel' =>
      _ ← readString;
      _ ← readString;
      _ ← readVarint;
      skipFrames fuel' (i + 1) nstk
    end
  else mret tt.

Definition skipMemProf (fuel : nat) : M parser unit :=
  _ ← readVarint;
  _ ← readVarint;
  nstk ← readVarint;
  _ ← skipFrames fuel 0 nstk;
  _ ← readVarint;
  skipVarint.

(** records.go: the reader of a MemStats record that keeps twelve fields and
    skips the remaining forty-nine. *)
Record MemStatsFull : Type := {
  Alloc : Z; TotalAlloc : Z; Sys : Z; Lookups : Z; Mallocs : Z; Frees : Z;
  HeapAlloc : Z; HeapSys : Z; HeapIdle : Z; HeapInuse : Z; HeapReleased : Z;
  HeapObjects : Z
}.

Definition parseMemStatsFull : M parser MemStatsFull :=
  alloc ← readVarint;
  totalAlloc ← readVarint;
  sys ← readVarint;
  lookups ← readVarint;
  mallocs ← readVarint;
  frees ← readVarint;
  heapAlloc ← readVarint;
  heapSys ← readVarint;
  heapIdle ← readVarint;
  heapInuse ← readVarint;
  heapReleased ← readVarint;
  heapObjects ← readVarint;
  _ ← repeatM 49 skipVarint;
  mret {| Alloc := alloc; TotalAlloc := totalAlloc; Sys := sys; Lookups := lookups;
          Mallocs := mallocs; Frees := frees; HeapAlloc := heapAlloc;
          HeapSys := heapSys; HeapIdle := heapIdle; HeapInuse := heapInuse;
          HeapReleased := heapReleased; HeapObjects := heapObjects |}.

(** records.go: pointer fields, the records that keep them, and
    [ExtractPointers]. *)
Record PointerField : Type := { Kind : Z; Offset : Z }.

Record DataSegment : Type := {
  ds_Address : Z;
  ds_Data : list byte;
  ds_Pointers : list PointerField
}.

Record StackFrame : Type := {
  sf_SP : Z; sf_Depth : Z; sf_ChildSP : Z; sf_Data : list byte;
  sf_EntryPC : Z; sf_PC : Z; sf_ContPC : Z; sf_Name : string;
  sf_Pointers : list PointerField
}.

(** The loop "Parse pointer fields" of [parseStackFrameFull] and
    [parseDataSegmentFull]. *)
Fixpoint pointerFields (fuel : nat) (fields : list PointerField)
    : M parser (list PointerField) :=
  match fuel with
  | O => fun p => (OutOfFuel, p)
  | S fuel' =>
    kind ← readVarint;
    if kind =? fieldKindEol then mret fields
    else
      offset ← readVarint;
      pointerFields fuel' (fields ++ [{| Kind := kind; Offset := offset |}])
  end.

Definition parseDataSegmentFull (fuel : nat) : M parser DataSegment :=
  address ← readVarint;
  data ← readBytes;
  pointers ← pointerFields fuel [];
  mret {| ds_Address := address; ds_Data := data; ds_Pointers := pointers |}.

Definition parseStackFrameFull (fuel : nat) : M parser StackFrame :=
  sp ← readVarint;
  depth ← readVarint;
  childSP ← readVarint;
  data ← readBytes;
  entryPC ← readVarint;
  pc ← readVarint;
  contPC ← readVarint;
  name ← readString;
  pointers ← pointerFields fuel [];
  mret {| sf_SP := sp; sf_Depth := depth; sf_ChildSP := childSP; sf_Data := data;
          sf_EntryPC := entryPC; sf_PC := pc; sf_ContPC := contPC; sf_Name := name;
          sf_Pointers := pointers |}.

(** [ExtractPointers]: the non-null pointer values at the pointer fields
    that lie within [data]. *)
Definition ExtractPointers (data : list byte) (fields : list PointerField)
    (pointerSize : Z) (bigEndian : bool) : outcome (list Z) :=
  foldM (fun pointers field =>
           if negb (Kind field =? fieldKindPtr) then Ok pointers
           else if Z.of_nat (length data) <? int64 (wrap64 (Offset field + pointerSize))
           then Ok pointers
           else
             ptrData ← subslice data (Offset field) (wrap64 (Offset field + pointerSize));
             let ptr := decodePointer bigEndian pointerSize ptrData in
             if negb (ptr =? 0) then Ok (pointers ++ [ptr]) else Ok pointers)
        [] fields.

(** The record loop of [parse]. *)
Fixpoint records (fuel : nat) : M parser unit :=
  match fuel with
  | O => fun p => (OutOfFuel, p)
  | S fuel' => fun p =>
    match readVarint p with
    | (Err e, p') =>
      match e with
      | EOF => finalize p'
      | _ => (Err (Wrapf "reading tag: %w" [] e), p')
      end
    | (Ok tag, p') =>
      (if tag =? tagEOF then finalize
       else if tag =? tagParams then
         _ ← wrapErr "parsing params: %w" parseParams; records fuel'
       else if tag =? tagType then
         _ ← wrapErr "parsing type: %w" parseType; records fuel'
       else if tag =? tagObject then
         _ ← wrapErr "parsing object: %w" (parseObject fuel'); records fuel'
       else if tag =? tagOtherRoot then
         _ ← wrapErr "parsing root: %w" parseOtherRoot; records fuel'
       else if tag =? tagGoroutine then
         _ ← wrapErr "parsing goroutine: %w" parseGoroutine; records fuel'
       else if tag =? tagStackFrame then
         _ ← wrapErr "parsing stack frame: %w" (parseStackFrame fuel'); records fuel'
       else if tag =? tagMemStats then
         _ ← wrapErr "parsing memstats: %w" parseMemStats; records fuel'
       else if tag =? tagItab then
         _ ← wrapErr "skipping itab: %w" skipItab; records fuel'
       else if (tag =? tagFinalizer) || (tag =? tagQueuedFinalizer) then
         _ ← wrapErr "skipping finalizer: %w" skipFinalizer; records fuel'
       else if (tag =? tagData) || (tag =? tagBSS) then
         _ ← wrapErr "skipping data segment: %w" (skipDataSegment fuel'); records fuel'
       else if (tag =? tagDefer) || (tag =? tagPanic) then
         _ ← wrapErr "skipping defer/panic: %w" skipDeferPanic; records fuel'
       else if tag =? tagOSThread then
         _ ← wrapErr "skipping OS thread: %w" skipOSThread; records fuel'
       else if (tag =? tagMemProf) || (tag =? tagAllocSample) then
         _ ← wrapErr "skipping mem prof: %w" (skipMemProf fuel'); records fuel'
       else fail (Errorf "unknown tag: %d" [ArgInt tag])) p'
    | (Panic, p') => (Panic, p')
    | (OutOfFuel, p') => (OutOfFuel, p')
    end
  end.

Definition parse (fuel : nat) : M parser unit :=
  header ← wrapErr "reading header: %w" (onReader (ReadFull 16));
  if decide (header = header_magic) then records fuel
  else fail (Errorf "invalid header: %q" [ArgBytes header]).

Definition newParser (input : list byte) : parser :=
  {| r := input; g := graph.NewMemGraph; types := ∅; addrToObjID := ∅;
     roots := []; nextObjID := 0; bigEndian := false; pointerSize := 0;
     heapStart := 0; heapEnd := 0; arch := ""; goVersion := ""; numCPUs := 0;
     stats := {| stat_objects := 0; stat_types := 0; stat_roots := 0;
                 stat_goroutines := 0 |} |}.

(** [GoHeapParser.Parse] on an input held in memory. *)
Definition Parse (fuel : nat) (input : list byte) : outcome graph.MemGraph :=
  match parse fuel (newParser input) with
  | (Ok _, p) => Ok (g p)
  | (Err e, _) => Err (Wrapf "parsing heap dump: %w" [] e)
  | (Panic, _) => Panic
  | (OutOfFuel, _) => OutOfFuel
  end.

End goheap.

(** ** Package heapdump/goheap: the streaming parser (streaming.go) *)

Module streaming.

Record DumpParams : Type := {
  BigEndian : bool;
  PointerSize : Z;
  HeapStart : Z;
  HeapEnd : Z;
  Arch : string;
  GoVersion : string;
  NumCPUs : Z
}.

Section Callbacks.

(** The caller's callbacks are closures over state of the caller's own, [U];
    a callback returns [None] for a [nil] error. [OnProgress] is driven by a
    ticker goroutine and has no part in what [Parse] returns; it is left
    out. *)
Context {U : Type}.

Record StreamCallbacks : Type := {
  OnParams : option (DumpParams -> U -> option error * U);
  OnType : option (Z -> Z -> string -> bool -> U -> option error * U);
  OnObject : option (Z -> Z -> list byte -> list Z -> U -> option error * U);
  OnRoot : option (string -> Z -> U -> option error * U);
  OnGoroutine : option (Z -> Z -> string -> U -> option error * U);
  OnError : option (error -> bool -> U -> option error * U)
}.

Record StreamingParser : Type := {
  r : list byte;
  callbacks : StreamCallbacks;
  progress : Z;
  recordCount : Z;
  maxErrors : Z;
  errorCount : Z;
  skipOnError : bool;
  params : DumpParams;
  user : U
}.

Definition set_r (v : list byte) (p : StreamingParser) : StreamingParser :=
  {| r := v; callbacks := callbacks p; progress := progress p;
     recordCount := recordCount p; maxErrors := maxErrors p;
     errorCount := errorCount p; skipOnError := skipOnError p;
     params := params p; user := user p |}.

Definition add_progress (n : Z) (p : StreamingParser) : StreamingParser :=
  {| r := r p; callbacks := callbacks p; progress := wrap64 (progress p + n);
     recordCount := recordCount p; maxErrors := maxErrors p;
     errorCount := errorCount p; skipOnError := skipOnError p;
     params := params p; user := user p |}.

Definition add_recordCount (n : Z) (p : StreamingParser) : StreamingParser :=
  {| r := r p; callbacks := callbacks p; progress := progress p;
     recordCount := recordCount p + n; maxErrors := maxErrors p;
     errorCount := errorCount p; skipOnError := skipOnError p;
     params := params p; user := user p |}.

Definition add_errorCount (n : Z) (p : StreamingParser) : StreamingParser :=
  {| r := r p; callbacks := callbacks p; progress := progress p;
     recordCount := recordCount p; maxErrors := maxErrors p;
     errorCount := errorCount p + n; skipOnError := skipOnError p;
     params := params p; user := user p |}.

Definition set_params (f : DumpParams -> DumpParams) (p : StreamingParser) : StreamingParser :=
  {| r := r p; callbacks := callbacks p; progress := progress p;
     recordCount := recordCount p; maxErrors := maxErrors p;
     errorCount := errorCount p; skipOnError := skipOnError p;
     params := f (params p); user := user p |}.

Definition set_user (v : U) (p : StreamingParser) : StreamingParser :=
  {| r := r p; callbacks := callbacks p; progress := progress p;
     recordCount := recordCount p; maxErrors := maxErrors p;
     errorCount := errorCount p; skipOnError := skipOnError p;
     params := params p; user := v |}.

Definition NewStreamingParser (input : list byte) (callbacks : StreamCallbacks) (u : U)
    : StreamingParser :=
  {| r := input; callbacks := callbacks; progress := 0; recordCount := 0;
     maxErrors := 100; errorCount := 0; skipOnError := true;
     params := {| BigEndian := false; PointerSize := 0; HeapStart := 0;
                  HeapEnd := 0; Arch := ""; GoVersion := ""; NumCPUs := 0 |};
     user := u |}.


(** A call [cb(args)] of a callback that is set. *)
Definition call (cb : U -> option error * U) : M StreamingParser unit := fun p =>
  let '(e, u) := cb (user p) in
  (match e with None => Ok tt | Some e => Err e end, set_user u p).

Definition readVarint : M StreamingParser Z := fun p =>
  match ReadUvarint (r p) with
  | (Ok v, r') => (Ok v, add_progress 1 (set_r r' p))
  | (res, r') => (res, set_r r' p)
  end.

(** [io.ReadFull] followed by [p.progress.Add(uint64(n))]. *)
Definition readFull (length : Z) : M StreamingParser (list byte) := fun p =>
  let '(res, r') := ReadFull length (r p) in
  let n := Z.of_nat (List.length (r p)) - Z.of_nat (List.length r') in
  (res, add_progress n (set_r r' p)).

Definition readString : M StreamingParser string :=
  length ← readVarint;
  if 2 ^ 20 <? length then fail (Errorf "string too long: %d" [ArgInt length])
  else
    data ← readFull length;
    mret (String.string_of_list_byte data).

Definition readBytes : M StreamingParser (list byte) :=
  length ← readVarint;
  if 2 ^ 30 <? length then fail (Errorf "byte slice too long: %d" [ArgInt length])
  else readFull length.

Definition skipVarint : M StreamingParser unit := _ ← readVarint; mret tt.

(** Whether [bufio.Reader.UnreadByte] succeeds when the last call on the
    reader was [Peek]. The Go releases differ (since [Peek] was made to
    invalidate the last byte read it does not), so the parser is described
    for both. *)
Variable unreadAfterPeek : bool.

(** [seekToNextRecord]: at most 1000 bytes are read; a byte that could be a
    tag and is followed by more input ends the search. *)
Fixpoint seekLoop (n : nat) (r : list byte) : list byte :=
  match n with
  | O => r
  | S n' =>
    match r with
    | [] => []
    | b :: r' =>
      if (byte_val b <=? goheap.tagAllocSample) && (0 <? Z.of_nat (List.length (take 10 r')))
      then (if unreadAfterPeek then b :: r' else r')
      else seekLoop n' r'
    end
  end.

Definition seekToNextRecord (p : StreamingParser) : StreamingParser :=
  set_r (seekLoop 1000 (r p)) p.

Definition handleError (err : error) (p : StreamingParser) : bool * StreamingParser :=
  let p := add_errorCount 1 p in
  let '(recoveryErr, p) :=
    match OnError (callbacks p) with
    | Some cb => let '(e, u) := cb err (skipOnError p) (user p) in (e, set_user u p)
    | None => (None, p)
    end in
  match recoveryErr with
  | Some _ => (false, p)
  | None =>
    if maxErrors p <? errorCount p then (false, p)
    else if skipOnError p then (true, seekToNextRecord p)
    else (false, p)
  end.

Definition skipUnknown (tag : Z) : M StreamingParser unit :=
  if tag <? 20 then repeatM 5 skipVarint
  else fail (Errorf "unknown tag: %d" [ArgInt tag]).

(** As in parser.go, a read that fails leaves its field as it was; the
    failure of a Params record ends the parse. *)
Definition parseParams : M StreamingParser unit :=
  bigEndian ← readVarint;
  _ ← modify (set_params (fun d =>
        {| BigEndian := negb (bigEndian =? 0); PointerSize := PointerSize d;
           HeapStart := HeapStart d; HeapEnd := HeapEnd d; Arch := Arch d;
           GoVersion := GoVersion d; NumCPUs := NumCPUs d |}));
  v ← readVarint;
  _ ← modify (set_params (fun d =>
        {| BigEndian := BigEndian d; PointerSize := v;
           HeapStart := HeapStart d; HeapEnd := HeapEnd d; Arch := Arch d;
           GoVersion := GoVersion d; NumCPUs := NumCPUs d |}));
  v ← readVarint;
  _ ← modify (set_params (fun d =>
        {| BigEndian := BigEndian d; PointerSize := PointerSize d;
           HeapStart := v; HeapEnd := HeapEnd d; Arch := Arch d;
           GoVersion := GoVersion d; NumCPUs := NumCPUs d |}));
  v ← readVarint;
  _ ← modify (set_params (fun d =>
        {| BigEndian := BigEndian d; PointerSize := PointerSize d;
           HeapStart := HeapStart d; HeapEnd := v; Arch := Arch d;
           GoVersion := GoVersion d; NumCPUs := NumCPUs d |}));
  v ← wrapErr "reading arch: %w" readString;
  _ ← modify (set_params (fun d =>
        {| BigEndian := BigEndian d; PointerSize := PointerSize d;
           HeapStart := HeapStart d; HeapEnd := HeapEnd d; Arch := v;
           GoVersion := GoVersion d; NumCPUs := NumCPUs d |}));
  v ← wrapErr "reading go version: %w" readString;
  _ ← modify (set_params (fun d =>
        {| BigEndian := BigEndian d; PointerSize := PointerSize d;
           HeapStart := HeapStart d; HeapEnd := HeapEnd d; Arch := Arch d;
           GoVersion := v; NumCPUs := NumCPUs d |}));
  v ← readVarint;
  _ ← modify (set_params (fun d =>
        {| BigEndian := BigEndian d; PointerSize := PointerSize d;
           HeapStart := HeapStart d; HeapEnd := HeapEnd d; Arch := Arch d;
           GoVersion := GoVersion d; NumCPUs := v |}));
  p ← get;
  match OnParams (callbacks p) with
  | Some cb => call (cb (params p))
  | None => mret tt
  end.

Definition parseType : M StreamingParser unit :=
  addr ← readVarint;
  size ← readVarint;
  name ← readString;
  indirect ← readVarint;
  p ← get;
  match OnType (callbacks p) with
  | Some cb => call (cb addr size name (negb (indirect =? 0)))
  | None => mret tt
  end.

(** The field loop of [parseObject]. *)
Fixpoint objectFields (fuel : nat) (data : list byte) (pointers : list Z)
    : M StreamingParser (list Z) :=
  match fuel with
  | O => fun p => (OutOfFuel, p)
  | S fuel' =>
    kind ← readVarint;
    if kind =? goheap.fieldKindEol then mret pointers
    else
      offset ← readVarint;
      p ← get;
      let pointerSize := PointerSize (params p) in
      if (kind =? goheap.fieldKindPtr)
         && (int64 (wrap64 (offset + pointerSize)) <=? Z.of_nat (List.length data)) then
        match subslice data offset (wrap64 (offset + pointerSize)) with
        | Ok ptrData =>
          let ptr := decodePointer (BigEndian (params p)) pointerSize ptrData in
          if negb (ptr =? 0) then objectFields fuel' data (pointers ++ [ptr])
          else objectFields fuel' data pointers
        | _ => panic
        end
      else objectFields fuel' data pointers
  end.

Definition parseObject (fuel : nat) : M StreamingParser unit :=
  addr ← readVarint;
  data ← readBytes;
  p ← get;
  let pointerSize := PointerSize (params p) in
  typeAddr ←
    (if int64 pointerSize <=? Z.of_nat (List.length data) then
       match subslice data 0 pointerSize with
       | Ok typeAddrData => mret (decodePointer (BigEndian (params p)) pointerSize typeAddrData)
       | _ => panic
       end
     else mret 0);
  pointers ← objectFields fuel data [];
  match OnObject (callbacks p) with
  | Some cb => call (cb addr typeAddr data pointers)
  | None => mret tt
  end.

Definition parseRoot : M StreamingParser unit :=
  desc ← readString;
  ptr ← readVarint;
  p ← get;
  match OnRoot (callbacks p) with
  | Some cb => call (cb desc ptr)
  | None => mret tt
  end.

Definition parseGoroutine : M StreamingParser unit :=
  _ ← readVarint;
  _ ← readVarint;
  id ← readVarint;
  status ← readVarint;
  _ ← readVarint;
  _ ← readVarint;
  _ ← readVarint;
  waitReason ← readString;
  _ ← repeatM 4 skipVarint;
  p ← get;
  match OnGoroutine (callbacks p) with
  | Some cb => call (cb id status waitReason)
  | None => mret tt
  end.

(** The pattern [if err := m; err != nil { if !p.handleError(wrapped) { return
    ... } }] of the record loop, followed by the rest of the loop [k]: when
    [handleError] declines, the site returns the wrapped error
    ([returnWrapped]) or the record's own error. *)
Definition orRecover (wrap : error -> error) (returnWrapped : bool)
    (m k : M StreamingParser unit) : M StreamingParser unit := fun p =>
  match m p with
  | (Ok _, p') => k p'
  | (Err err, p') =>
    let '(recovered, p'') := handleError (wrap err) p' in
    if recovered then k p''
    else (Err (if returnWrapped then wrap err else err), p'')
  | (Panic, p') => (Panic, p')
  | (OutOfFuel, p') => (OutOfFuel, p')
  end.

(** The record loop of [Parse]: [Ok tt] when [Parse] returns [nil]. *)
Fixpoint records (fuel : nat) : M StreamingParser unit :=
  match fuel with
  | O => fun p => (OutOfFuel, p)
  | S fuel' => fun p =>
    match readVarint p with
    | (Err e, p') =>
      match e with
      | EOF => (Ok tt, p')
      | _ =>
        let '(recovered, p'') := handleError (Wrapf "reading tag: %w" [] e) p' in
        if recovered then records fuel' p'' else (Err e, p'')
      end
    | (Ok tag, p') =>
      let p' := add_recordCount 1 p' in
      (if tag =? goheap.tagEOF then mret tt
       else if tag =? goheap.tagParams then
         _ ← wrapErr "parsing params: %w" parseParams; records fuel'
       else if tag =? goheap.tagType then
         match OnType (callbacks p') with
         | Some _ => _ ← wrapErr "parsing type: %w" parseType; records fuel'
         | None =>
           orRecover (Wrapf "parsing type: %w" []) true parseType (records fuel')
         end
       else if tag =? goheap.tagObject then
         orRecover (Wrapf "parsing object: %w" []) false (parseObject fuel') (records fuel')
       else if tag =? goheap.tagOtherRoot then
         orRecover (Wrapf "parsing root: %w" []) false parseRoot (records fuel')
       else if tag =? goheap.tagGoroutine then
         orRecover (Wrapf "parsing goroutine: %w" []) false parseGoroutine (records fuel')
       else
         orRecover (Wrapf "skipping unknown tag %d: %w" [ArgInt tag]) false
                   (skipUnknown tag) (records fuel')) p'
    | (Panic, p') => (Panic, p')
    | (OutOfFuel, p') => (OutOfFuel, p')
    end
  end.

Definition Parse (fuel : nat) : M StreamingParser unit :=
  header ← wrapErr "reading header: %w" (fun p =>
              let '(res, r') := ReadFull 16 (r p) in (res, set_r r' p));
  if decide (header = header_magic) then
    _ ← modify (add_progress 16);
    records fuel
  else fail (Errorf "invalid header: %q" [ArgBytes header]).

End Callbacks.

Arguments StreamCallbacks : clear implicits.
Arguments StreamingParser : clear implicits.

End streaming.

(** ** Package heapdump: the parser registry (registry.go) and the JSON
    fixture adapter *)

Module heapdump.

(** An [io.Reader], as the sequence of things its coming [Read] calls will
    meet: a run of bytes that is available, or a failure. At the end of the
    sequence [Read] reports [io.EOF]; a reader that has reported [io.EOF]
    goes on reporting it. *)
Inductive chunk : Type :=
| Data (bs : list byte)
| Fail (e : error).

Definition Reader : Type := list chunk.

(** [r.Read(p)] with [len(p) = n]: the bytes read, the error, the reader
    afterwards. *)
Definition Read (n : nat) (rd : Reader) : list byte * option error * Reader :=
  match rd with
  | [] => ([], Some EOF, [])
  | Data bs :: rest =>
    if (length bs <=? n)%nat then (bs, None, rest)
    else (take n bs, None, Data (drop n bs) :: rest)
  | Fail EOF :: _ => ([], Some EOF, rd)
  | Fail e :: rest => ([], Some e, rest)
  end.

(** [bytes.NewReader(b)] *)
Definition bytesReader (b : list byte) : Reader :=
  match b with
  | [] => []
  | _ => [Data b]
  end.

(** [io.MultiReader(r1, r2)] where [r1] is a [bytes.Reader]. *)
Definition MultiReader (r1 r2 : Reader) : Reader := r1 ++ r2.

(** All the bytes a reader delivers before it ends or fails. *)
Fixpoint content (rd : Reader) : list byte :=
  match rd with
  | [] => []
  | Data bs :: rest => bs ++ content rest
  | Fail _ :: _ => []
  end.

(** The error that ends the reader: [io.EOF] unless a read fails first. *)
Fixpoint ending (rd : Reader) : error :=
  match rd with
  | [] => EOF
  | Data _ :: rest => ending rest
  | Fail e :: _ => e
  end.

(** parser.go: the interface [Parser]. *)
Record Parser : Type := {
  CanParse : Reader -> bool;
  Parse : Reader -> outcome graph.MemGraph
}.

(** The registry is the list of parsers in registration order (its lock has
    no counterpart here). *)
Definition Register (registry : list Parser) (p : Parser) : list Parser :=
  registry ++ [p].

(** The loop [for _, parser := range registry.parsers] of [Open]. *)
Fixpoint tryParsers (parsers : list Parser) (detected : list byte) (r : Reader)
    : outcome graph.MemGraph :=
  match parsers with
  | [] => Err ErrNoParser
  | parser :: rest =>
    let checkReader := bytesReader detected in
    if CanParse parser checkReader then
      let parseReader := MultiReader (bytesReader detected) r in
      Parse parser parseReader
    else tryParsers rest detected r
  end.

(** [Open]: one [Read] of up to 4096 bytes through the tee reader (the copy
    the tee keeps in [buf] is never read again). *)
Definition Open (registry : list Parser) (r : Reader) : outcome graph.MemGraph :=
  let '(detected, err, r) := Read 4096 r in
  match err with
  | Some EOF | None => tryParsers registry detected r
  | Some e => Err e
  end.

(** [GoHeapParser.CanParse]: one [Read] into a 16-byte header. *)
Definition GoHeapParser_CanParse (r : Reader) : bool :=
  let '(header, err, _) := Read 16 r in
  match err with
  | Some _ => false
  | None =>
    if (length header <? 16)%nat then false
    else bool_decide (header = header_magic)
  end.

(** json_stub.go *)
Record jsonObject : Type := {
  ID : graph.ObjID;
  Type_ : string;
  Size : Z;
  Ptrs : slice graph.ObjID
}.

Record jsonDump : Type := {
  Objects : list jsonObject;
  Roots : slice graph.ObjID
}.

(** The loop that validates the required fields. *)
Fixpoint validateIDs (i : Z) (objs : list jsonObject) : option error :=
  match objs with
  | [] => None
  | obj :: rest =>
    if ID obj =? 0 then Some (Errorf "object at index %d missing ID" [ArgInt i])
    else validateIDs (i + 1) rest
  end.

(** The [graph.Object] made from one entry of the dump; a [nil] pointer
    list becomes an empty one. *)
Definition toGraphObject (obj : jsonObject) : graph.Object :=
  {| graph.ID := ID obj; graph.Type_ := Type_ obj; graph.Size := Size obj;
     graph.Ptrs := match Ptrs obj with
                   | None => Some []
                   | Some ptrs => Some ptrs
                   end |}.

(** What [JSONStub.Parse] does with the decoded dump. *)
Definition buildGraph (dump : jsonDump) : outcome graph.MemGraph :=
  match validateIDs 0 (Objects dump) with
  | Some e => Err e
  | None =>
    let g :=
      foldl (fun g obj => graph.AddObject g (toGraphObject obj))
            graph.NewMemGraph (Objects dump) in
    let roots := {| graph.IDs := match Roots dump with
                                 | None => Some []
                                 | Some ids => Some ids
                                 end |} in
    Ok (graph.SetRoots g roots)
  end.

Section JSON.

(** [encoding/json] is outside the repository: [jsonDecode] stands for
    [json.NewDecoder(r).Decode(&dump)], and [jsonHasObjects] for unmarshalling
    the preview and finding a non-null ["objects"] key. *)
Variable jsonDecode : Reader -> error + jsonDump.
Variable jsonHasObjects : list byte -> bool.

Definition JSONStub_CanParse (r : Reader) : bool :=
  let '(buf, err, _) := Read 1024 r in
  match err with
  | Some EOF | None =>
    if (length buf =? 0)%nat then false else jsonHasObjects buf
  | Some _ => false
  end.

Definition JSONStub_Parse (r : Reader) : outcome graph.MemGraph :=
  match jsonDecode r with
  | inl err => Err (Wrapf "failed to decode JSON: %w" [] err)
  | inr dump => buildGraph dump
  end.

Definition JSONStub : Parser :=
  {| CanParse := JSONStub_CanParse; Parse := JSONStub_Parse |}.

End JSON.

(** [GoHeapParser] as a registered parser. Its [Parse] reads through a
    [bufio.Reader]; it is given here on the bytes the reader delivers, the end
    of the input being [io.EOF]. *)
Definition GoHeapParser (fuel : nat) : Parser :=
  {| CanParse := GoHeapParser_CanParse;
     Parse := fun r => goheap.Parse fuel (content r) |}.

End heapdump.

(** ** Test fixtures: the graphs of the graph tests and the dump writers of
    parser_test.go *)

Module fixtures.

Definition writeVarint (v : Z) : list byte := PutUvarint v.

Definition writeString (s : string) : list byte :=
  let b := String.list_byte_of_string s in
  writeVarint (Z.of_nat (length b)) ++ b.

Definition writeBytes (b : list byte) : list byte :=
  writeVarint (Z.of_nat (length b)) ++ b.

(** [binary.LittleEndian.PutUint64] *)
Fixpoint PutUintLE (width : nat) (v : Z) : list byte :=
  match width with
  | O => []
  | S w => byte_of v :: PutUintLE w (Z.shiftr v 8)
  end.
Definition PutUint64 (v : Z) : list byte := PutUintLE 8 v.

(** The minimal dump of the binary round-trip scenario: Params
    (little-endian, 8-byte pointers), one Type ["T"] at 0x1000, two 16-byte
    objects at 0x2000 and 0x2010 that store the type address at offset 0, the
    first storing the address of the second at offset 8, one OtherRoot naming
    the first object, EOF. *)
Definition scenarioF : list byte :=
  header_magic
  ++ writeVarint goheap.tagParams
  ++ writeVarint 0 ++ writeVarint 8 ++ writeVarint 0x1000 ++ writeVarint 0x3000
  ++ writeString "amd64" ++ writeString "go1.20.0" ++ writeVarint 4
  ++ writeVarint goheap.tagType
  ++ writeVarint 0x1000 ++ writeVarint 16 ++ writeString "T" ++ writeVarint 0
  ++ writeVarint goheap.tagObject ++ writeVarint 0x2000
  ++ writeBytes (PutUint64 0x1000 ++ PutUint64 0x2010)
  ++ writeVarint goheap.fieldKindPtr ++ writeVarint 8 ++ writeVarint goheap.fieldKindEol
  ++ writeVarint goheap.tagObject ++ writeVarint 0x2010
  ++ writeBytes (PutUint64 0x1000 ++ PutUint64 0)
  ++ writeVarint goheap.fieldKindPtr ++ writeVarint 8 ++ writeVarint goheap.fieldKindEol
  ++ writeVarint goheap.tagOtherRoot ++ writeString "root" ++ writeVarint 0x2000
  ++ writeVarint goheap.tagEOF.

(** A dump whose only record is a MemStats record of 61 varints, each of
    value 100. *)
Definition memStatsDump : list byte :=
  header_magic
  ++ writeVarint goheap.tagMemStats
  ++ concat (replicate 61 (writeVarint 100))
  ++ writeVarint goheap.tagEOF.

(** retained_test.go, "simple linear chain". *)
Definition chain : graph.MemGraph :=
  graph.SetRoots
    (graph.AddObject (graph.AddObject (graph.AddObject graph.NewMemGraph
       {| graph.ID := 1; graph.Type_ := "root"; graph.Size := 100; graph.Ptrs := Some [2] |})
       {| graph.ID := 2; graph.Type_ := "node"; graph.Size := 50; graph.Ptrs := Some [3] |})
       {| graph.ID := 3; graph.Type_ := "leaf"; graph.Size := 25; graph.Ptrs := None |})
    {| graph.IDs := Some [1] |}.





(** The graph the goheap parser returns for [scenarioF]. *)
Definition scenarioF_graph : graph.MemGraph :=
  graph.SetRoots
    (graph.AddObject (graph.AddObject graph.NewMemGraph
       {| graph.ID := 0; graph.Type_ := "T"; graph.Size := 16; graph.Ptrs := Some [] |})
       {| graph.ID := 1; graph.Type_ := "T"; graph.Size := 16; graph.Ptrs := Some [] |})
    {| graph.IDs := Some [0] |}.

(** One schedule of [RetainedSize] on [chain]. *)
Definition chain_schedule : graph.schedule :=
  {| graph.visitDominators := (map_to_list (graph.objects chain)).*2;
     graph.visitIdom1 := map_to_list ({[1 := 0; 2 := 1; 3 := 2]} : gmap Z Z);
     graph.visitIdom2 := map_to_list ({[1 := 0; 2 := 1; 3 := 2]} : gmap Z Z);
     graph.visitSizes := (map_to_list (graph.objects chain)).*2;
     graph.visitTree :=
       map_to_list ({[0 := [1]; 1 := [2]; 2 := [3]; 3 := []]} : gmap Z (list Z)) |}.

End fixtures.

(** ** The vocabulary of the properties *)

Section Vocabulary.

Import graph.

(** [a ∈ objects[b].ptrs]: the object with id [b] holds a pointer to [a]. *)
Definition points_to (g : MemGraph) (b a : ObjID) : Prop :=
  ∃ obj, GetObject g b = Some obj ∧ a ∈ elems (Ptrs obj).

(** Every element of the sequence is pointed to by its successor. *)
Fixpoint linked (g : MemGraph) (p : list ObjID) : Prop :=
  match p with
  | a :: rest =>
    match rest with
    | b :: _ => points_to g b a ∧ linked g rest
    | [] => True
    end
  | [] => True
  end.

(** A path from [from] to a root: it starts at [from], is linked, ends in a
    root and repeats no id. *)
Definition valid_path (g : MemGraph) (from : ObjID) (p : list ObjID) : Prop :=
  head p = Some from ∧ linked g p ∧
  (∃ vk, last p = Some vk ∧ vk ∈ elems (IDs (GetRoots g))) ∧
  NoDup p.

(** Every object is stored under its own id, as [AddObject] stores it. *)
Definition keyed_by_ID (g : MemGraph) : Prop :=
  ∀ k obj, objects g !! k = Some obj → ID obj = k.

(** What the search of [PathsToRoots] maintains for a queued node. *)
Definition node_ok (g : MemGraph) (visit : list Object) (from : ObjID)
    (n : searchNode) : Prop :=
  head (path n) = Some from ∧ linked g (path n) ∧ last (path n) = Some (graph.id n) ∧
  NoDup (path n) ∧ ∀ x, x ∈ path n → x ∈ from :: (ID <$> visit).

(** The number of pointers in the graph, and a bound on the rounds of the
    search that a queued node can still cause: [d] referrers at most per
    node, paths of at most [k] more elements. *)
Definition edgeCount (visit : list Object) : nat :=
  sum_list_with (fun obj => length (elems (Ptrs obj))) visit.

Fixpoint bfsWeight (d : nat) (k : nat) : nat :=
  match k with
  | O => 1
  | S k' => 1 + d * bfsWeight d k'
  end.

Definition nodeWeight (visit : list Object) (n : searchNode) : nat :=
  bfsWeight (edgeCount visit) (S (length visit) - length (path n)).

(** The referrers of [a] that one object contributes: its id, once for each
    occurrence of [a] in its pointer list. *)
Definition referrersFrom (a : ObjID) (obj : Object) : list ObjID :=
  (fun _ => ID obj) <$> filter (fun t => t = a) (elems (Ptrs obj)).

(** No object of the graph holds a pointer. *)
Definition no_pointers (gr : MemGraph) : Prop :=
  ∀ k obj, objects gr !! k = Some obj → Ptrs obj = Some [].

End Vocabulary.

(** A step of the goheap parser that keeps the graph free of pointers. *)
Definition keeps {A} (m : M goheap.parser A) : Prop :=
  ∀ p, no_pointers (goheap.g p) → no_pointers (goheap.g (m p).2).

(** The errors of the byte codec. *)
Definition io_error (e : error) : Prop :=
  e = EOF ∨ e = ErrUnexpectedEOF ∨ e = errOverflow.

(** The error kind CorruptLength: the errors [readString] and [readBytes]
    make for a declared length above the cap, which a caller tells from the
    others by their message. *)
Definition CorruptLength (e : error) : bool :=
  match e with
  | Errorf format [ArgInt _] =>
    bool_decide (format = "string too long: %d")
    || bool_decide (format = "byte slice too long: %d")
  | _ => false
  end.

(** [read] reads a length with [varint] and then that many bytes, under the
    cap [cap]: a longer declared length fails with a CorruptLength error;
    a length within the cap never does, and yields exactly the next [n]
    bytes when the input holds them. *)
Definition length_capped {St A} (read : M St A) (varint : M St Z) (cap : Z)
    (input : St -> list byte) (payload : A -> list byte) : Prop :=
  ∀ p,
    match varint p with
    | (Ok n, p1) =>
      (cap < n → ∃ e, read p = (Err e, p1) ∧ CorruptLength e = true) ∧
      (n ≤ cap →
         (∀ e p2, read p = (Err e, p2) → CorruptLength e = false) ∧
         ((Z.to_nat n ≤ length (input p1))%nat →
            ∃ a p2, read p = (Ok a, p2) ∧
                    payload a = take (Z.to_nat n) (input p1) ∧
                    input p2 = drop (Z.to_nat n) (input p1)))
    | (Err e, p1) => read p = (Err e, p1) ∧ CorruptLength e = false
    | (Panic, _) | (OutOfFuel, _) => False
    end.

(** A step of the streaming parser that leaves the error budget alone, never
    lengthens the input, and does not run out of fuel on an input of fewer
    than [n] bytes. *)
Definition sub {U A} (n : nat) (m : M (streaming.StreamingParser U) A) : Prop :=
  ∀ p res p', m p = (res, p') →
    streaming.maxErrors p' = streaming.maxErrors p ∧
    streaming.errorCount p' = streaming.errorCount p ∧
    (length (streaming.r p') ≤ length (streaming.r p))%nat ∧
    ((length (streaming.r p) < n)%nat → res ≠ OutOfFuel).

(** What holds when the streaming [Parse] is over: the budget is the
    configured one, the count has passed it by at most one, and if it has
    passed it an error was returned. A negative maximum counts as 0: no error
    has been met before the first one. *)
Definition budget_post {U} (maxE : Z) (res : outcome unit)
    (p' : streaming.StreamingParser U) : Prop :=
  streaming.maxErrors p' = maxE ∧
  streaming.errorCount p' ≤ Z.max maxE 0 + 1 ∧
  (Z.max maxE 0 < streaming.errorCount p' → ∃ e, res = Err e).

(** A continuation of the record loop that, started within the budget, ends
    as [budget_post] says and has fuel enough for inputs of fewer than [n]
    bytes. *)
Definition good {U} (maxE : Z) (n : nat) (k : M (streaming.StreamingParser U) unit) : Prop :=
  ∀ p res p',
    streaming.maxErrors p = maxE → streaming.errorCount p ≤ Z.max maxE 0 →
    k p = (res, p') →
    budget_post maxE res p' ∧ ((length (streaming.r p) < n)%nat → res ≠ OutOfFuel).

(** ** The vocabulary of the further properties *)

(** One step up the dominator relation, a step that does not arrive at the
    super-root, and a node at which [DominatorPath] stops. *)
Definition idom_step (idom : gmap Z Z) (x y : Z) : Prop := idom !! x = Some y.
Definition idom_climb (idom : gmap Z Z) (x y : Z) : Prop := idom !! x = Some y ∧ y ≠ 0.
Definition idom_top (idom : gmap Z Z) (x : Z) : Prop :=
  idom !! x = None ∨ idom !! x = Some 0.

(** [m] is reached from [n] by exactly [k] steps up the dominator relation. *)
Fixpoint idom_steps (idom : gmap Z Z) (k : nat) (n m : Z) : Prop :=
  match k with
  | O => n = m
  | S k' => ∃ y, idom !! n = Some y ∧ idom_steps idom k' y m
  end.

(** [b] is [k] levels below [a] in the tree. *)
Fixpoint tree_reach (tree : gmap Z (list Z)) (k : nat) (a b : Z) : Prop :=
  match k with
  | O => a = b
  | S k' => ∃ c, c ∈ sget tree a ∧ tree_reach tree k' c b
  end.

(** The sum [computeRetained] forms for a node: its own size, then the
    retained size of each child, each addition wrapping at 64 bits. *)
Definition retained_sum (own : Z) (rs : list Z) : Z :=
  foldl (fun acc r => wrap64 (acc + r)) own rs.

Definition Zsum (rs : list Z) : Z := foldr Z.add 0 rs.

(** A memo table of [computeRetained] in which every entry is the sum over
    the entries of the node's children. *)
Definition memo_consistent (objSizes : gmap Z Z) (tree : gmap Z (list Z))
    (m : gmap Z Z) : Prop :=
  ∀ n s, m !! n = Some s →
    ∃ rs, Forall2 (fun c r => m !! c = Some r) (sget tree n) rs ∧
          s = retained_sum (zget objSizes n) rs.

(** The size of the object with id [n], 0 when there is none. *)
Definition own_size (g : graph.MemGraph) (n : Z) : Z :=
  default 0 (graph.Size <$> graph.GetObject g n).

(** Sizes are [uint64] values. *)
Definition sizes_in_range (g : graph.MemGraph) : Prop :=
  ∀ k obj, graph.objects g !! k = Some obj → 0 ≤ graph.Size obj < 2 ^ 64.

(** No element of [p] but the last is a root. *)
Definition interior_free (roots : list Z) (p : list Z) : Prop :=
  ∀ i x, p !! i = Some x → (S i < length p)%nat → x ∉ roots.

(** A queued node of the search whose path is a proper initial part of [p]. *)
Definition on_path (p : list Z) (n : graph.searchNode) : Prop :=
  ∃ k, (0 < k < length p)%nat ∧ graph.path n = take k p ∧
       p !! (k - 1)%nat = Some (graph.id n).

Definition nondecreasing (ls : list nat) : Prop :=
  ∀ i j a b, (i ≤ j)%nat → ls !! i = Some a → ls !! j = Some b → (a ≤ b)%nat.

(** ** The vocabulary of the parser invariants *)

(** A step of the goheap parser that leaves the graph, the address table,
    the roots and the id counter as they are and does not put input back. *)
Definition frames {A} (m : M goheap.parser A) : Prop :=
  ∀ p, goheap.g (m p).2 = goheap.g p ∧
       goheap.addrToObjID (m p).2 = goheap.addrToObjID p ∧
       goheap.roots (m p).2 = goheap.roots p ∧
       goheap.nextObjID (m p).2 = goheap.nextObjID p ∧
       (length (goheap.r (m p).2) ≤ length (goheap.r p))%nat.

(** A reader that hands back no more input than it was given. *)
Definition never_grows {A} (rd : list byte → outcome A * list byte) : Prop :=
  ∀ r, (length (rd r).2 ≤ length r)%nat.

(** What [parse] maintains between records, for an input of [N] bytes: the
    ids handed out so far are 0 .. nextObjID - 1, each names one object of the
    graph, and the address table and the root list hold only such ids. *)
Definition parser_ok (N : Z) (p : goheap.parser) : Prop :=
  keyed_by_ID (goheap.g p) ∧
  graph.NumObjects (goheap.g p) = goheap.nextObjID p ∧
  (∀ id, is_Some (graph.GetObject (goheap.g p) id) ↔ 0 ≤ id < goheap.nextObjID p) ∧
  goheap.nextObjID p + Z.of_nat (length (goheap.r p)) ≤ N ∧
  (∀ addr id, goheap.addrToObjID p !! addr = Some id → 0 ≤ id < goheap.nextObjID p) ∧
  (∀ id, id ∈ goheap.roots p → 0 ≤ id < goheap.nextObjID p) ∧
  (∀ id obj, graph.GetObject (goheap.g p) id = Some obj →
             0 ≤ graph.Size obj ≤ 2 ^ 30 ∧ graph.Ptrs obj = Some []).

(** What holds of the graph a successful parse returns. *)
Definition graph_wellformed (gr : graph.MemGraph) : Prop :=
  keyed_by_ID gr ∧
  (∀ id, is_Some (graph.GetObject gr id) ↔ 0 ≤ id < graph.NumObjects gr) ∧
  (∃ ids, graph.IDs (graph.GetRoots gr) = Some ids ∧
          ∀ id, id ∈ ids → is_Some (graph.GetObject gr id)) ∧
  (∀ id obj, graph.GetObject gr id = Some obj →
             0 ≤ graph.Size obj ≤ 2 ^ 30 ∧ graph.Ptrs obj = Some []).

(** A step of the goheap parser that does not put input back and does not
    run out of fuel on an input of fewer than [n] bytes. *)
Definition runs {A} (n : nat) (m : M goheap.parser A) : Prop :=
  ∀ p res p', m p = (res, p') →
    (length (goheap.r p') ≤ length (goheap.r p))%nat ∧
    ((length (goheap.r p) < n)%nat → res ≠ OutOfFuel).

(** * Properties *)

(** ** Visiting orders of concrete graphs *)

Lemma order_cases (g : graph.MemGraph) (visit : list graph.Object) :
  graph.ForEachObject_order g visit →
  visit ∈ permutations (map_to_list (graph.objects g)).*2.
Proof. intros H. apply permutations_Permutation. symmetry. exact H. Qed.

Lemma range_cases {A} (m : gmap Z A) (visit : list (Z * A)) :
  graph.range_order m visit → visit ∈ permutations (map_to_list m).
Proof. intros H. apply permutations_Permutation. symmetry. exact H. Qed.

(** Case analysis on membership in an explicit list. *)
Ltac elem_cases H :=
  repeat (apply elem_of_cons in H as [-> | H]);
  try (apply elem_of_nil in H; contradiction).

(** ** The linear chain (scenario A) *)

Lemma chain_dominators (k : nat) (visit : list graph.Object) :
  graph.ForEachObject_order fixtures.chain visit →
  graph.Dominators (8 + k) fixtures.chain visit = Ok {[1 := 0; 2 := 1; 3 := 2]}.
Proof.
  intros H. apply order_cases in H. vm_compute in H.
  elem_cases H; vm_compute; reflexivity.
Qed.

Lemma chain_tree (v1 v2 : list (Z * Z)) :
  graph.range_order ({[1 := 0; 2 := 1; 3 := 2]} : gmap Z Z) v1 →
  graph.range_order ({[1 := 0; 2 := 1; 3 := 2]} : gmap Z Z) v2 →
  graph.DominatorTree {[1 := 0; 2 := 1; 3 := 2]} v1 v2
  = {[0 := [1]; 1 := [2]; 2 := [3]; 3 := []]}.
Proof.
  intros H1 H2. apply range_cases in H1, H2. vm_compute in H1, H2.
  elem_cases H1; elem_cases H2; vm_compute; reflexivity.
Qed.

(** C3. On the linear chain {1: size 100 -> 2; 2: size 50 -> 3; 3: size 25}
    with roots {1}, whatever orders the runtime picks for its map ranges and
    with any fuel of at least 8: [Dominators] returns exactly
    {1: 0, 2: 1, 3: 2} (0 is the super-root), [RetainedSize] returns exactly
    {1: 175, 2: 75, 3: 25}, and [PathsToRoots(G, 3, 5)] returns exactly the
    single path [3, 2, 1]. *)
Theorem C3_linear_chain (fuel : nat) (sch : graph.schedule) (visit : list graph.Object) :
  (8 ≤ fuel)%nat →
  graph.schedule_ok fuel fixtures.chain sch →
  graph.ForEachObject_order fixtures.chain visit →
  graph.Dominators fuel fixtures.chain (graph.visitDominators sch)
    = Ok {[1 := 0; 2 := 1; 3 := 2]} ∧
  graph.RetainedSize fuel fixtures.chain sch = Ok {[1 := 175; 2 := 75; 3 := 25]} ∧
  graph.PathsToRoots fuel fixtures.chain visit 3 5
    = Ok [{| graph.Path_IDs := [3; 2; 1] |}].
Proof.
  intros Hfuel Hsch Hvisit.
  replace fuel with (8 + (fuel - 8))%nat in * by lia.
  generalize dependent (fuel - 8)%nat. intros k _ Hsch.
  destruct sch as [vd v1 v2 vs vt]. destruct Hsch as (Hd & Hs & Hrange).
  cbn [graph.visitDominators graph.visitIdom1 graph.visitIdom2 graph.visitSizes
       graph.visitTree] in *.
  pose proof (chain_dominators k vd Hd) as Hdom.
  destruct (Hrange _ Hdom) as (H1 & H2 & Ht).
  rewrite (chain_tree v1 v2 H1 H2) in Ht.
  split; [exact Hdom|]. split.
  - unfold graph.RetainedSize.
    cbn [graph.visitDominators graph.visitIdom1 graph.visitIdom2 graph.visitSizes
         graph.visitTree].
    rewrite Hdom. unfold mbind at 1, outcome_bind at 1.
    rewrite (chain_tree v1 v2 H1 H2).
    apply order_cases in Hs. apply range_cases in Ht.
    vm_compute in Hs. vm_compute in Ht.
    elem_cases Hs; elem_cases Ht; vm_compute; reflexivity.
  - apply order_cases in Hvisit. vm_compute in Hvisit.
    elem_cases Hvisit; vm_compute; reflexivity.
Qed.

Lemma C3_linear_chain_witness :
  graph.Dominators 8 fixtures.chain (graph.visitDominators fixtures.chain_schedule)
    = Ok {[1 := 0; 2 := 1; 3 := 2]} ∧
  graph.RetainedSize 8 fixtures.chain fixtures.chain_schedule
    = Ok {[1 := 175; 2 := 75; 3 := 25]} ∧
  graph.PathsToRoots 8 fixtures.chain (map_to_list (graph.objects fixtures.chain)).*2 3 5
    = Ok [{| graph.Path_IDs := [3; 2; 1] |}].
Proof.
  apply (C3_linear_chain 8 fixtures.chain_schedule).
  - lia.
  - unfold graph.schedule_ok, graph.ForEachObject_order.
    split; [reflexivity|]. split; [reflexivity|].
    intros dominators Hdom. vm_compute in Hdom. injection Hdom as <-.
    unfold graph.range_order. repeat split; vm_compute; reflexivity.
  - unfold graph.ForEachObject_order. reflexivity.
Defined.

(** ** The reverse-edge index *)

Lemma sget_insert {A} (m : gmap Z (list A)) t v a :
  sget (<[t := v]> m) a = if decide (t = a) then v else sget m a.
Proof.
  unfold sget. destruct (decide (t = a)) as [->|Hne].
  - by rewrite lookup_insert_eq.
  - by rewrite lookup_insert_ne.
Qed.

Lemma addReferrers_sget idv ptrs : ∀ (acc : gmap Z (list Z)) a,
  sget (foldl (graph.addReferrer idv) acc ptrs) a
  = sget acc a ++ ((fun _ => idv) <$> filter (fun t => t = a) ptrs).
Proof.
  induction ptrs as [|t ptrs IH]; intros acc a; simpl.
  - by rewrite app_nil_r.
  - rewrite IH. unfold graph.addReferrer. rewrite sget_insert, filter_cons.
    destruct (decide (t = a)) as [->|Hne]; [|done].
    by rewrite <- app_assoc.
Qed.

Lemma BuildReverseEdges_sget_fold visit : ∀ (acc : gmap Z (list Z)) a,
  sget (foldl (fun reverse obj =>
                 foldl (graph.addReferrer (graph.ID obj)) reverse
                       (elems (graph.Ptrs obj))) acc visit) a
  = sget acc a ++ (visit ≫= referrersFrom a).
Proof.
  induction visit as [|o visit IH]; intros acc a; simpl.
  - by rewrite app_nil_r.
  - rewrite IH, addReferrers_sget. by rewrite <- app_assoc.
Qed.

(** The referrer list of [a] is made of the contributions of the objects, in
    the order of the visit. *)
Lemma BuildReverseEdges_sget visit a :
  sget (graph.BuildReverseEdges visit) a = visit ≫= referrersFrom a.
Proof.
  unfold graph.BuildReverseEdges, graph.ForEachObject.
  rewrite (BuildReverseEdges_sget_fold visit ∅ a).
  unfold sget. by rewrite lookup_empty.
Qed.

(** Reverse-edge consistency: [b] is a referrer of [a] exactly when a
    visited object of id [b] points to [a]. *)
Lemma BuildReverseEdges_elem visit a b :
  b ∈ sget (graph.BuildReverseEdges visit) a
  ↔ ∃ obj, obj ∈ visit ∧ graph.ID obj = b ∧ a ∈ elems (graph.Ptrs obj).
Proof.
  rewrite BuildReverseEdges_sget, list_elem_of_bind. unfold referrersFrom. split.
  - intros (obj & Hb & Hin). exists obj. split; [done|].
    apply list_elem_of_fmap in Hb as (t & -> & Ht).
    apply list_elem_of_filter in Ht as [-> Ht]. done.
  - intros (obj & Hin & <- & Ha). exists obj. split; [|done].
    apply list_elem_of_fmap. exists a. split; [done|].
    apply list_elem_of_filter. done.
Qed.

Lemma referrersFrom_length a obj :
  (length (referrersFrom a obj) ≤ length (elems (graph.Ptrs obj)))%nat.
Proof. unfold referrersFrom. rewrite length_fmap. apply length_filter. Qed.

Lemma BuildReverseEdges_length visit a :
  (length (sget (graph.BuildReverseEdges visit) a) ≤ edgeCount visit)%nat.
Proof.
  rewrite BuildReverseEdges_sget. unfold edgeCount.
  induction visit as [|o visit IH]; [simpl; lia|].
  rewrite bind_cons, length_app. pose proof (referrersFrom_length a o).
  change (sum_list_with (fun obj => length (elems (graph.Ptrs obj))) (o :: visit))
    with (length (elems (graph.Ptrs o))
          + sum_list_with (fun obj => length (elems (graph.Ptrs obj))) visit)%nat.
  lia.
Qed.

(** ** Paths to roots *)

Lemma keyed_by_ID_new : keyed_by_ID graph.NewMemGraph.
Proof. intros k obj H. simpl in H. by rewrite lookup_empty in H. Qed.

Lemma keyed_by_ID_add g obj : keyed_by_ID g → keyed_by_ID (graph.AddObject g obj).
Proof.
  intros Hg k o H. simpl in H. apply lookup_insert_Some in H as [[<- <-]|[_ H]]; [done|].
  by apply Hg.
Qed.

Lemma keyed_by_ID_roots g r : keyed_by_ID g → keyed_by_ID (graph.SetRoots g r).
Proof. intros Hg k o H. by apply Hg. Qed.

Lemma visit_lookup g visit obj :
  keyed_by_ID g → graph.ForEachObject_order g visit → obj ∈ visit →
  graph.GetObject g (graph.ID obj) = Some obj.
Proof.
  intros Hk Hv Hin. unfold graph.ForEachObject_order in Hv. rewrite Hv in Hin.
  apply list_elem_of_fmap in Hin as ([k o] & -> & Hin). simpl.
  apply elem_of_map_to_list in Hin. unfold graph.GetObject. by rewrite (Hk _ _ Hin).
Qed.

Lemma rootSet_elem (ids : list Z) x :
  bget (foldl (fun rootSet id => <[id := true]> rootSet) ∅ ids) x = true → x ∈ ids.
Proof.
  assert (∀ acc : gmap Z bool,
    bget (foldl (fun rootSet id => <[id := true]> rootSet) acc ids) x = true →
    bget acc x = true ∨ x ∈ ids) as Hgen.
  { induction ids as [|i ids IH]; intros acc H; simpl in *; [auto|].
    apply IH in H as [H|H]; [|right; by right].
    unfold bget in H. destruct (decide (i = x)) as [->|Hne].
    - right; by left.
    - rewrite lookup_insert_ne in H by done. by left. }
  intros H. apply Hgen in H as [H|H]; [|done].
  unfold bget in H. by rewrite lookup_empty in H.
Qed.

Lemma inPath_false x p : graph.inPath x p = false → x ∉ p.
Proof.
  induction p as [|y p IH]; simpl; intros H.
  - apply not_elem_of_nil.
  - destruct (Z.eqb_spec y x) as [->|Hne]; [done|].
    apply not_elem_of_cons. split; [congruence|auto].
Qed.

Lemma linked_snoc g p a b :
  linked g p → last p = Some a → points_to g b a → linked g (p ++ [b]).
Proof.
  induction p as [|x p IH]; intros Hl Hlast Hpt; [done|].
  destruct p as [|y p]; simpl in *.
  - injection Hlast as ->. done.
  - destruct Hl as [Hxy Hl]. split; [done|]. apply IH; done.
Qed.

Lemma head_app_l {A} (p l : list A) x : head p = Some x → head (p ++ l) = Some x.
Proof. destruct p; simpl; [done|auto]. Qed.

Lemma bfsWeight_pos d k : (1 ≤ bfsWeight d k)%nat.
Proof. destruct k; simpl; lia. Qed.

Section PathsToRoots_facts.

Variables (g : graph.MemGraph) (visit : list graph.Object) (from : Z) (maxPaths : Z).
Hypothesis Hkey : keyed_by_ID g.
Hypothesis Hvisit : graph.ForEachObject_order g visit.

Local Abbreviation reverse := (graph.BuildReverseEdges visit).
Local Abbreviation rootSet :=
  (foldl (fun (rootSet : gmap Z bool) id => <[id := true]> rootSet) ∅
         (elems (graph.IDs (graph.GetRoots g)))).
Local Abbreviation found_ok :=
  (Forall (fun p => valid_path g from (graph.Path_IDs p))).

Lemma referrer_points_to a b :
  b ∈ sget reverse a → points_to g b a ∧ b ∈ from :: (graph.ID <$> visit).
Proof.
  intros H. apply BuildReverseEdges_elem in H as (obj & Hin & <- & Ha). split.
  - exists obj. split; [by apply (visit_lookup g visit)|done].
  - right. apply list_elem_of_fmap. by exists obj.
Qed.

Lemma extend_node_ok node ref :
  node_ok g visit from node → ref ∈ sget reverse (graph.id node) →
  graph.inPath ref (graph.path node) = false →
  node_ok g visit from {| graph.id := ref; graph.path := graph.path node ++ [ref] |}.
Proof.
  intros (Hh & Hl & Hlast & Hnd & Hu) Href Hin.
  apply referrer_points_to in Href as [Hpt Hru]. apply inPath_false in Hin.
  unfold node_ok; simpl. repeat split.
  - by apply head_app_l.
  - by apply (linked_snoc g _ (graph.id node)).
  - apply last_snoc.
  - apply NoDup_app. repeat split; [done| |apply NoDup_singleton].
    intros x Hx Hx'. apply list_elem_of_singleton in Hx' as ->. done.
  - intros x Hx. apply elem_of_app in Hx as [Hx|Hx]; [auto|].
    apply list_elem_of_singleton in Hx as ->. done.
Qed.

(** One round of the inner loop: it appends valid paths to the result and
    nodes that satisfy the invariant, one element longer, to the queue. *)
Lemma visitReferrers_spec node :
  node_ok g visit from node → ∀ refs result queue result' queue',
  (∀ ref, ref ∈ refs → ref ∈ sget reverse (graph.id node)) →
  graph.visitReferrers rootSet maxPaths node refs result queue = (result', queue') →
  ∃ found pushed, result' = result ++ found ∧ queue' = queue ++ pushed ∧
    found_ok found ∧
    Forall (fun n => node_ok g visit from n ∧
                     length (graph.path n) = S (length (graph.path node))) pushed ∧
    (length pushed ≤ length refs)%nat.
Proof.
  intros Hnode. induction refs as [|ref refs IH]; intros result queue result' queue' Hrefs H;
    simpl in H.
  - injection H as <- <-. exists [], []. rewrite !app_nil_r. repeat split; auto.
  - assert (∀ ref0, ref0 ∈ refs → ref0 ∈ sget reverse (graph.id node)) as Hrefs'
      by (intros; apply Hrefs; by right).
    assert (ref ∈ sget reverse (graph.id node)) as Href by (apply Hrefs; by left).
    destruct (graph.inPath ref (graph.path node)) eqn:Hin.
    { destruct (IH _ _ _ _ Hrefs' H) as (found & pushed & ? & ? & ? & ? & ?).
      exists found, pushed. repeat split; auto. simpl; lia. }
    pose proof (extend_node_ok node ref Hnode Href Hin) as Hnew.
    destruct (bget rootSet ref) eqn:Hroot.
    + assert (valid_path g from (graph.path node ++ [ref])) as Hpath.
      { destruct Hnew as (Hh & Hl & Hlast & Hnd & _). simpl in *.
        unfold valid_path; simpl. repeat split; auto.
        exists ref. split; [done|]. by apply rootSet_elem. }
      destruct (Z.of_nat (length (result ++ [{| graph.Path_IDs := graph.path node ++ [ref] |}]))
                >=? maxPaths).
      * injection H as <- <-. exists [{| graph.Path_IDs := graph.path node ++ [ref] |}], [].
        rewrite app_nil_r. repeat split; auto. simpl; lia.
      * destruct (IH _ _ _ _ Hrefs' H) as (found & pushed & -> & -> & ? & ? & ?).
        exists ({| graph.Path_IDs := graph.path node ++ [ref] |} :: found), pushed.
        rewrite <- app_assoc. repeat split; auto. simpl; lia.
    + destruct (IH _ _ _ _ Hrefs' H) as (found & pushed & -> & -> & ? & ? & ?).
      exists found, ({| graph.id := ref; graph.path := graph.path node ++ [ref] |} :: pushed).
      rewrite <- app_assoc. repeat split; auto.
      * constructor; [|done]. split; [done|]. simpl. rewrite length_app. simpl. lia.
      * simpl; lia.
Qed.

Lemma bfs_valid fuel : ∀ queue result paths,
  Forall (node_ok g visit from) queue → found_ok result →
  graph.bfs fuel reverse rootSet maxPaths queue result = Ok paths → found_ok paths.
Proof.
  induction fuel as [|fuel IH]; intros [|node queue] result paths Hq Hr H; simpl in H.
  - by injection H as <-.
  - destruct (Z.of_nat (length result) <? maxPaths); [done|]. by injection H as <-.
  - by injection H as <-.
  - destruct (Z.of_nat (length result) <? maxPaths); [|by injection H as <-].
    destruct (graph.visitReferrers rootSet maxPaths node (sget reverse (graph.id node))
                result queue) as [result' queue'] eqn:Hv.
    apply Forall_cons in Hq as [Hnode Hq].
    apply (visitReferrers_spec node Hnode) in Hv as (found & pushed & -> & -> & Hf & Hp & _);
      [|auto].
    apply (IH _ _ _ (proj2 (Forall_app _ _ _) (conj Hq (Forall_impl _ _ _ Hp (fun _ H => proj1 H))))
              (proj2 (Forall_app _ _ _) (conj Hr Hf)) H).
Qed.

Lemma node_ok_length n :
  node_ok g visit from n → (length (graph.path n) ≤ S (length visit))%nat.
Proof.
  intros (_ & _ & _ & Hnd & Hu).
  replace (S (length visit)) with (length (from :: (graph.ID <$> visit)))
    by (simpl; by rewrite length_fmap).
  apply submseteq_length. by apply NoDup_submseteq.
Qed.

(** The nodes pushed in one round weigh less than the node dequeued. *)
Lemma pushed_weight node pushed :
  Forall (fun n => node_ok g visit from n ∧
                   length (graph.path n) = S (length (graph.path node))) pushed →
  (length pushed ≤ edgeCount visit)%nat →
  (sum_list_with (nodeWeight visit) pushed < nodeWeight visit node)%nat.
Proof.
  intros Hp Hlen.
  assert (pushed = [] ∨ S (length (graph.path node)) ≤ S (length visit))%nat as [->|Hroom].
  { destruct Hp as [|n0 pushed0 [Hok Hl] _]; [by left|right].
    rewrite <- Hl. by apply node_ok_length. }
  { simpl. apply bfsWeight_pos. }
  set (w := bfsWeight (edgeCount visit) (S (length visit) - S (length (graph.path node)))).
  assert (sum_list_with (nodeWeight visit) pushed ≤ length pushed * w)%nat as Hsum.
  { clear Hlen. induction Hp as [|n l [_ Hl] _ IH]; simpl; [lia|].
    unfold nodeWeight at 1. rewrite Hl. fold w. apply Nat.add_le_mono_l. exact IH. }
  assert (nodeWeight visit node = 1 + edgeCount visit * w)%nat as ->.
  { unfold nodeWeight.
    replace (S (length visit) - length (graph.path node))%nat
      with (S (S (length visit) - S (length (graph.path node)))) by lia.
    reflexivity. }
  assert (length pushed * w ≤ edgeCount visit * w)%nat by (apply Nat.mul_le_mono_r; lia).
  lia.
Qed.

(** The search ends: fuel above the weight of the queue is enough. *)
Lemma bfs_terminates fuel : ∀ queue result,
  Forall (node_ok g visit from) queue →
  (sum_list_with (nodeWeight visit) queue < fuel)%nat →
  ∃ paths, graph.bfs fuel reverse rootSet maxPaths queue result = Ok paths.
Proof.
  induction fuel as [|fuel IH]; intros [|node queue] result Hq Hw; simpl in *; try lia.
  - by eexists.
  - destruct (Z.of_nat (length result) <? maxPaths); [|by eexists].
    destruct (graph.visitReferrers rootSet maxPaths node (sget reverse (graph.id node))
                result queue) as [result' queue'] eqn:Hv.
    apply Forall_cons in Hq as [Hnode Hq].
    apply (visitReferrers_spec node Hnode) in Hv as (found & pushed & -> & -> & Hf & Hp & Hlen);
      [|auto].
    apply IH.
    + apply Forall_app. split; [done|]. eapply Forall_impl; [exact Hp|]. by intros ? [? _].
    + rewrite sum_list_with_app.
      pose proof (pushed_weight node pushed Hp) as Hlt.
      pose proof (BuildReverseEdges_length visit (graph.id node)).
      specialize (Hlt ltac:(lia)). lia.
Qed.

End PathsToRoots_facts.

(** C4. Every path in the list returned by [PathsToRoots(G, from, K)] is a
    sequence [v0, ..., vk] with [v0 = from], each element in the pointer list
    of its successor, [vk] a root, and no id occurring twice. The graph
    stores every object under its id (as [AddObject] does), [visit] is any
    order in which [ForEachObject] may visit it; the call returns for some
    fuel, and whatever fuel it returns with, its paths are valid. *)
Theorem C4_paths_valid (g : graph.MemGraph) (visit : list graph.Object)
    (from : Z) (maxPaths : Z) :
  keyed_by_ID g → graph.ForEachObject_order g visit →
  (∃ fuel paths, graph.PathsToRoots fuel g visit from maxPaths = Ok paths) ∧
  (∀ fuel paths p, graph.PathsToRoots fuel g visit from maxPaths = Ok paths →
     p ∈ paths → valid_path g from (graph.Path_IDs p)).
Proof.
  intros Hkey Hvisit.
  assert (node_ok g visit from {| graph.id := from; graph.path := [from] |}) as Hinit.
  { unfold node_ok; simpl. repeat split; auto.
    - apply NoDup_singleton.
    - intros x Hx. apply list_elem_of_singleton in Hx as ->. by left. }
  split.
  - exists (S (nodeWeight visit {| graph.id := from; graph.path := [from] |})).
    unfold graph.PathsToRoots.
    destruct (maxPaths <=? 0); [by eexists|].
    destruct (bget _ from); [by eexists|].
    apply (bfs_terminates g visit from maxPaths Hkey Hvisit).
    + by constructor.
    + simpl. lia.
  - intros fuel paths p H Hp. unfold graph.PathsToRoots in H.
    destruct (maxPaths <=? 0).
    { injection H as <-. by apply elem_of_nil in Hp. }
    destruct (bget _ from) eqn:Hroot.
    { injection H as <-. apply list_elem_of_singleton in Hp as ->. simpl.
      unfold valid_path; simpl. repeat split; auto; [|apply NoDup_singleton].
      exists from. split; [done|]. by apply rootSet_elem. }
    apply (bfs_valid g visit from maxPaths Hkey Hvisit) in H; [| by constructor | constructor].
    rewrite Forall_forall in H. by apply H.
Qed.

Lemma C4_paths_valid_witness : valid_path fixtures.chain 3 [3; 2; 1].
Proof.
  assert (keyed_by_ID fixtures.chain) as Hkey.
  { apply keyed_by_ID_roots. repeat apply keyed_by_ID_add. apply keyed_by_ID_new. }
  assert (graph.ForEachObject_order fixtures.chain
            (map_to_list (graph.objects fixtures.chain)).*2) as Hvisit.
  { unfold graph.ForEachObject_order. reflexivity. }
  destruct (C4_paths_valid fixtures.chain _ 3 5 Hkey Hvisit) as [_ H].
  apply (H 8%nat [{| graph.Path_IDs := [3; 2; 1] |}] {| graph.Path_IDs := [3; 2; 1] |}).
  - vm_compute. reflexivity.
  - by left.
Defined.

(** ** Runs of the same input *)






(** ** The graph-building parser *)

Section Goheap_facts.

Import goheap.

Lemma keeps_ret {A} (a : A) : keeps (mret a).
Proof. by intros p. Qed.
Lemma keeps_fail {A} e : keeps (@fail parser A e).
Proof. by intros p. Qed.
Lemma keeps_panic {A} : keeps (@panic parser A).
Proof. by intros p. Qed.
Lemma keeps_get : keeps get.
Proof. by intros p. Qed.
Lemma keeps_out_of_fuel {A} : keeps (fun p : parser => (@OutOfFuel A, p)).
Proof. by intros p. Qed.

Lemma keeps_bind {A B} (m : M parser A) (k : A → M parser B) :
  keeps m → (∀ a, keeps (k a)) → keeps (m ≫= k).
Proof.
  intros Hm Hk p Hp. unfold mbind, M_bind. specialize (Hm p Hp).
  destruct (m p) as [[a|e| |] p']; simpl in *; auto. by apply Hk.
Qed.

Lemma keeps_wrapErr {A} format (m : M parser A) : keeps m → keeps (wrapErr format m).
Proof.
  intros Hm p Hp. unfold wrapErr. specialize (Hm p Hp).
  by destruct (m p) as [[a|e| |] p'].
Qed.

Lemma keeps_repeatM n (m : M parser unit) : keeps m → keeps (repeatM n m).
Proof.
  intros Hm. induction n as [|n IH]; simpl; [apply keeps_ret|].
  apply keeps_bind; auto.
Qed.

Lemma keeps_onReader {A} (rd : list byte → outcome A * list byte) : keeps (onReader rd).
Proof. intros p Hp. unfold onReader. by destruct (rd (r p)). Qed.

Lemma keeps_modify (f : parser → parser) :
  (∀ p, no_pointers (g p) → no_pointers (g (f p))) → keeps (modify f).
Proof. intros Hf p Hp. by apply Hf. Qed.

Lemma no_pointers_add gr obj :
  no_pointers gr → graph.Ptrs obj = Some [] → no_pointers (graph.AddObject gr obj).
Proof.
  intros Hg Ho k o H. simpl in H.
  apply lookup_insert_Some in H as [[_ <-]|[_ H]]; [done|]. by apply (Hg k).
Qed.

Ltac keeps_step :=
  first
    [ apply keeps_ret | apply keeps_fail | apply keeps_panic | apply keeps_get
    | apply keeps_out_of_fuel
    | apply keeps_onReader
    | apply keeps_wrapErr
    | apply keeps_repeatM
    | apply keeps_bind; [|intros ?]
    | apply keeps_modify; intros ? ?; assumption
    | apply keeps_modify; intros ? ?; simpl; apply no_pointers_add; [assumption|reflexivity]
    | match goal with
      | |- keeps (let _ := _ in _) => cbv zeta
      | |- keeps (if ?c then _ else _) => destruct c
      | |- keeps (match ?x with _ => _ end) => destruct x
      end ].

Lemma keeps_readVarint : keeps readVarint.
Proof. unfold readVarint. repeat keeps_step. Qed.
Lemma keeps_readString : keeps readString.
Proof. unfold readString. repeat (keeps_step || apply keeps_readVarint). Qed.
Lemma keeps_readBytes : keeps readBytes.
Proof. unfold readBytes. repeat (keeps_step || apply keeps_readVarint). Qed.
Lemma keeps_skipVarint : keeps skipVarint.
Proof. unfold skipVarint. repeat (keeps_step || apply keeps_readVarint). Qed.

Ltac keeps_base :=
  repeat first [ apply keeps_readVarint | apply keeps_readString | apply keeps_readBytes
               | apply keeps_skipVarint | keeps_step ].

Lemma keeps_objectFields fuel : ∀ data pointers, keeps (objectFields fuel data pointers).
Proof.
  induction fuel as [|fuel IH]; intros data pointers; simpl; keeps_base; apply IH.
Qed.

Lemma keeps_skipFields fuel : keeps (skipFields fuel).
Proof. induction fuel as [|fuel IH]; simpl; keeps_base; apply IH. Qed.

Lemma keeps_skipFrames fuel : ∀ i nstk, keeps (skipFrames fuel i nstk).
Proof.
  induction fuel as [|fuel IH]; intros i nstk; simpl; keeps_base; apply IH.
Qed.

Ltac keeps_auto :=
  repeat first [ apply keeps_objectFields | apply keeps_skipFields | apply keeps_skipFrames
               | apply keeps_readVarint | apply keeps_readString | apply keeps_readBytes
               | apply keeps_skipVarint | keeps_step ].

Lemma keeps_parseObject fuel : keeps (parseObject fuel).
Proof. unfold parseObject. keeps_auto. Qed.

Lemma keeps_finalize : keeps finalize.
Proof. by intros p Hp. Qed.

Lemma keeps_records fuel : keeps (records fuel).
Proof.
  induction fuel as [|fuel IH]; simpl; [apply keeps_out_of_fuel|].
  intros p Hp. pose proof (keeps_readVarint p Hp) as Hv.
  destruct (readVarint p) as [[tag|e| |] p']; simpl in Hv; try done.
  - revert p' Hv.
    change (keeps (if tag =? tagEOF then finalize
       else if tag =? tagParams then
         _ ← wrapErr "parsing params: %w" parseParams; records fuel
       else if tag =? tagType then
         _ ← wrapErr "parsing type: %w" parseType; records fuel
       else if tag =? tagObject then
         _ ← wrapErr "parsing object: %w" (parseObject fuel); records fuel
       else if tag =? tagOtherRoot then
         _ ← wrapErr "parsing root: %w" parseOtherRoot; records fuel
       else if tag =? tagGoroutine then
         _ ← wrapErr "parsing goroutine: %w" parseGoroutine; records fuel
       else if tag =? tagStackFrame then
         _ ← wrapErr "parsing stack frame: %w" (parseStackFrame fuel); records fuel
       else if tag =? tagMemStats then
         _ ← wrapErr "parsing memstats: %w" parseMemStats; records fuel
       else if tag =? tagItab then
         _ ← wrapErr "skipping itab: %w" skipItab; records fuel
       else if (tag =? tagFinalizer) || (tag =? tagQueuedFinalizer) then
         _ ← wrapErr "skipping finalizer: %w" skipFinalizer; records fuel
       else if (tag =? tagData) || (tag =? tagBSS) then
         _ ← wrapErr "skipping data segment: %w" (skipDataSegment fuel); records fuel
       else if (tag =? tagDefer) || (tag =? tagPanic) then
         _ ← wrapErr "skipping defer/panic: %w" skipDeferPanic; records fuel
       else if tag =? tagOSThread then
         _ ← wrapErr "skipping OS thread: %w" skipOSThread; records fuel
       else if (tag =? tagMemProf) || (tag =? tagAllocSample) then
         _ ← wrapErr "skipping mem prof: %w" (skipMemProf fuel); records fuel
       else fail (Errorf "unknown tag: %d" [ArgInt tag]))).
    unfold parseParams, parseType, parseOtherRoot, parseGoroutine, parseStackFrame,
      parseMemStats, skipItab, skipFinalizer, skipDataSegment, skipDeferPanic,
      skipOSThread, skipMemProf.
    keeps_auto;
      first [ apply IH | apply keeps_finalize | apply keeps_parseObject
            | apply keeps_skipFields | apply keeps_skipFrames ].
  - destruct e; simpl; try done; by apply keeps_finalize.
Qed.

(** Whatever the dump, no object of the graph the goheap parser returns holds
    a pointer: [parseObject] stores an empty pointer list and nothing fills it
    in afterwards. *)
Lemma goheap_Parse_no_pointers fuel input gr :
  Parse fuel input = Ok gr → no_pointers gr.
Proof.
  unfold Parse, parse. intros H.
  assert (keeps (header ← wrapErr "reading header: %w" (onReader (ReadFull 16));
                 if decide (header = header_magic) then records fuel
                 else fail (Errorf "invalid header: %q" [ArgBytes header]))) as Hk.
  { keeps_base. apply keeps_records. }
  specialize (Hk (newParser input)).
  match type of H with
  | context [match ?x with _ => _ end] => destruct x as [[?|e| |] p]
  end; try done.
  injection H as <-. apply Hk. intros k obj Hl. simpl in Hl. by rewrite lookup_empty in Hl.
Qed.

End Goheap_facts.

(** C1, evaluated on the code: parsing the minimal dump of scenario F (any
    fuel of at least 8) yields two objects typed "T" and the root set {0},
    but the pointer list of the first object is empty, although its payload
    stores the address of the second object at offset 8, which a pointer
    field names: no finalization pass rewrites addresses into ids. *)
Theorem C1_scenarioF_pointers_lost (k : nat) :
  goheap.Parse (8 + k) fixtures.scenarioF = Ok fixtures.scenarioF_graph ∧
  graph.NumObjects fixtures.scenarioF_graph = 2 ∧
  graph.GetRoots fixtures.scenarioF_graph = {| graph.IDs := Some [0] |} ∧
  graph.GetObject fixtures.scenarioF_graph 0 =
    Some {| graph.ID := 0; graph.Type_ := "T"; graph.Size := 16; graph.Ptrs := Some [] |} ∧
  graph.GetObject fixtures.scenarioF_graph 1 =
    Some {| graph.ID := 1; graph.Type_ := "T"; graph.Size := 16; graph.Ptrs := Some [] |}.
Proof. repeat split; vm_compute; reflexivity. Qed.

(** C2, evaluated on the code: the goheap parser gives the first object of a
    dump the id 0, which [Dominators] uses for its super-root. On the graph
    parsed from scenario F, object 0 exists and is the root, yet [Dominators]
    returns the empty map: the edges of the super-root are overwritten by the
    (empty) pointer list of object 0, and the entry of id 0 is deleted. *)
Theorem C2_super_root_collides (k : nat) (visit : list graph.Object) :
  graph.ForEachObject_order fixtures.scenarioF_graph visit →
  goheap.Parse (8 + k) fixtures.scenarioF = Ok fixtures.scenarioF_graph ∧
  is_Some (graph.GetObject fixtures.scenarioF_graph 0) ∧
  graph.IDs (graph.GetRoots fixtures.scenarioF_graph) = Some [0] ∧
  graph.Dominators (8 + k) fixtures.scenarioF_graph visit = Ok ∅.
Proof.
  intros H. split; [vm_compute; reflexivity|]. split; [by eexists|]. split; [reflexivity|].
  apply order_cases in H. vm_compute in H.
  elem_cases H; vm_compute; reflexivity.
Qed.

Lemma C2_super_root_collides_witness :
  graph.Dominators 8 fixtures.scenarioF_graph
    (map_to_list (graph.objects fixtures.scenarioF_graph)).*2 = Ok ∅.
Proof.
  apply (C2_super_root_collides 0 (map_to_list (graph.objects fixtures.scenarioF_graph)).*2).
  unfold graph.ForEachObject_order. reflexivity.
Defined.

(** [Dominators] never returns an entry for the id 0, whatever the graph. *)
Lemma Dominators_omits_zero fuel g visit idom :
  graph.Dominators fuel g visit = Ok idom → idom !! 0 = None.
Proof.
  unfold graph.Dominators. intros H.
  repeat match type of H with
         | (?m ≫= _) = Ok _ => destruct m; try discriminate H; simpl in H
         end.
  injection H as <-. apply lookup_delete_eq.
Qed.

(** ** The MemStats record *)

Lemma byte_val_range b : 0 ≤ byte_val b < 256.
Proof. unfold byte_val. pose proof (Byte.to_N_bounded b). lia. Qed.

Lemma ReadUvarint_single b rest :
  byte_val b < 128 → ReadUvarint (b :: rest) = (Ok (byte_val b), rest).
Proof.
  intros Hb. unfold ReadUvarint. simpl.
  destruct (Z.ltb_spec (byte_val b) 128); [|lia].
  rewrite Z.shiftl_0_r. unfold wrap64.
  pose proof (byte_val_range b). rewrite Z.mod_small by lia. done.
Qed.

Lemma goheap_readVarint_single p b rest :
  byte_val b < 128 → goheap.r p = b :: rest →
  goheap.readVarint p = (Ok (byte_val b), goheap.set_r (fun _ => rest) p).
Proof.
  intros Hb Hr. unfold goheap.readVarint, goheap.onReader.
  by rewrite Hr, ReadUvarint_single.
Qed.

Lemma goheap_bind_readVarint_single {A} p b rest (k : Z → M goheap.parser A) :
  goheap.r p = b :: rest → byte_val b < 128 →
  (goheap.readVarint ≫= k) p = k (byte_val b) (goheap.set_r (fun _ => rest) p).
Proof.
  intros Hr Hb. unfold mbind, M_bind. by rewrite (goheap_readVarint_single p b rest).
Qed.

Lemma goheap_skip_single_bytes n : ∀ p fields rest,
  length fields = n → Forall (fun b => byte_val b < 128) fields →
  goheap.r p = fields ++ rest →
  repeatM n goheap.skipVarint p = (Ok tt, goheap.set_r (fun _ => rest) p).
Proof.
  induction n as [|n IH]; intros p [|b fields] rest Hlen Hall Hr; try done.
  - simpl in Hr. destruct p; simpl in *. by subst.
  - apply Forall_cons in Hall as [Hb Hall]. simpl.
    unfold mbind, M_bind, goheap.skipVarint. unfold mbind, M_bind.
    rewrite (goheap_readVarint_single p b (fields ++ rest) Hb Hr). unfold mret, M_ret.
    rewrite (IH _ fields rest); [done|by injection Hlen|done|done].
Qed.

(** On a MemStats record of 61 one-byte varints, [parseMemStats] stops after
    the eighth and leaves 53 of them in the input, where the next tag is
    expected; [parseMemStatsFull] of records.go consumes all 61. *)
Lemma parseMemStats_reads_8_of_61 (p : goheap.parser) (fields rest : list byte) :
  length fields = 61%nat → Forall (fun b => byte_val b < 128) fields →
  goheap.r p = fields ++ rest →
  goheap.parseMemStats p = (Ok tt, goheap.set_r (fun _ => drop 8 fields ++ rest) p) ∧
  ∃ ms, goheap.parseMemStatsFull p = (Ok ms, goheap.set_r (fun _ => rest) p).
Proof.
  intros Hlen Hall Hr. split.
  - unfold goheap.parseMemStats.
    apply (goheap_skip_single_bytes 8 p (take 8 fields)).
    + rewrite length_take. lia.
    + by apply Forall_take.
    + by rewrite app_assoc, take_drop.
  - do 12 (destruct fields as [|? fields]; [done|]).
    repeat match goal with
           | H : Forall _ (_ :: _) |- _ => apply Forall_cons in H as [? H]
           end.
    unfold goheap.parseMemStatsFull. eexists.
    do 12 (erewrite goheap_bind_readVarint_single;
           [|first [exact Hr | cbn [goheap.r goheap.set_r]; reflexivity]|assumption]).
    unfold mbind, M_bind.
    erewrite (goheap_skip_single_bytes 49 _ fields rest); [| by injection Hlen | done | reflexivity].
    reflexivity.
Qed.

(** C6, evaluated on the code: a dump whose only record is a MemStats record
    of 61 varints of value 100 is rejected. [parseMemStats] skips 8 varints,
    not 61, so the ninth is read as the tag of the next record. *)
Theorem C6_memstats_record_misread (k : nat) :
  goheap.Parse (8 + k) fixtures.memStatsDump =
    Err (Wrapf "parsing heap dump: %w" [] (Errorf "unknown tag: %d" [ArgInt 100])).
Proof. vm_compute. reflexivity. Qed.

(** ** The byte codec *)

Lemma io_error_not_CorruptLength e : io_error e → CorruptLength e = false.
Proof. by intros [->|[->| ->]]. Qed.

Lemma ReadUvarint_loop_outcome n : ∀ i x s r,
  match ReadUvarint_loop n i x s r with
  | (Ok _, _) => True
  | (Err e, _) => io_error e
  | _ => False
  end.
Proof.
  induction n as [|n IH]; intros i x s r; simpl.
  - right; right; reflexivity.
  - destruct r as [|b r].
    + destruct (0 <? i); [right; left|left]; reflexivity.
    + destruct (byte_val b <? 128); [|apply IH].
      destruct ((i =? 9) && (1 <? byte_val b)); [right; right; reflexivity|exact I].
Qed.

Lemma ReadUvarint_outcome r :
  match ReadUvarint r with
  | (Ok _, _) => True
  | (Err e, _) => io_error e
  | _ => False
  end.
Proof. apply ReadUvarint_loop_outcome. Qed.

Lemma ReadFull_outcome n r :
  match ReadFull n r with
  | (Ok data, r') => (Z.to_nat n ≤ length r)%nat ∧ data = take (Z.to_nat n) r ∧ r' = drop (Z.to_nat n) r
  | (Err e, _) => (length r < Z.to_nat n)%nat ∧ io_error e
  | _ => False
  end.
Proof.
  unfold ReadFull. destruct (Nat.leb_spec (Z.to_nat n) (length r)).
  - auto.
  - destruct r; (split; [done|]); [left|right; left]; reflexivity.
Qed.

Lemma goheap_readString_capped :
  length_capped goheap.readString goheap.readVarint (2 ^ 20) goheap.r String.list_byte_of_string.
Proof.
  intros p. unfold goheap.readString, mbind, M_bind, goheap.readVarint, goheap.onReader.
  pose proof (ReadUvarint_outcome (goheap.r p)) as Hv.
  destruct (ReadUvarint (goheap.r p)) as [[n|e| |] r1]; try done.
  - destruct (Z.ltb_spec (2 ^ 20) n) as [Hlt|Hle].
    + split; [|lia]. intros _. eexists. split; reflexivity.
    + split; [lia|]. intros _. unfold mret, M_ret. cbn [goheap.r goheap.set_r].
      pose proof (ReadFull_outcome n r1) as Hf.
      destruct (ReadFull n r1) as [[data|e| |] r2]; try done.
      * split; [done|]. intros _. eexists _, _. split; [reflexivity|].
        cbn [goheap.r goheap.set_r]. destruct Hf as (_ & -> & ->).
        split; [apply String.list_byte_of_string_of_list_byte|done].
      * destruct Hf as [Hshort He]. split.
        -- intros e' p2 [= <- _]. by apply io_error_not_CorruptLength.
        -- intros Hlen. lia.
  - split; [done|]. by apply io_error_not_CorruptLength.
Qed.

Lemma goheap_readBytes_capped :
  length_capped goheap.readBytes goheap.readVarint (2 ^ 30) goheap.r (fun data => data).
Proof.
  intros p. unfold goheap.readBytes, mbind, M_bind, goheap.readVarint, goheap.onReader.
  pose proof (ReadUvarint_outcome (goheap.r p)) as Hv.
  destruct (ReadUvarint (goheap.r p)) as [[n|e| |] r1]; try done.
  - destruct (Z.ltb_spec (2 ^ 30) n) as [Hlt|Hle].
    + split; [|lia]. intros _. eexists. split; reflexivity.
    + split; [lia|]. intros _. cbn [goheap.r goheap.set_r].
      pose proof (ReadFull_outcome n r1) as Hf.
      destruct (ReadFull n r1) as [[data|e| |] r2]; try done.
      * split; [done|]. intros _. eexists _, _. split; [reflexivity|].
        cbn [goheap.r goheap.set_r]. by destruct Hf as (_ & -> & ->).
      * destruct Hf as [Hshort He]. split.
        -- intros e' p2 [= <- _]. by apply io_error_not_CorruptLength.
        -- intros Hlen. lia.
  - split; [done|]. by apply io_error_not_CorruptLength.
Qed.

Lemma streaming_readString_capped U :
  length_capped (@streaming.readString U) streaming.readVarint (2 ^ 20)
                streaming.r String.list_byte_of_string.
Proof.
  intros p. unfold streaming.readString, mbind, M_bind, streaming.readVarint.
  pose proof (ReadUvarint_outcome (streaming.r p)) as Hv.
  destruct (ReadUvarint (streaming.r p)) as [[n|e| |] r1]; try done.
  - destruct (Z.ltb_spec (2 ^ 20) n) as [Hlt|Hle].
    + split; [|lia]. intros _. eexists. split; reflexivity.
    + split; [lia|]. intros _. unfold mret, M_ret, streaming.readFull.
      cbn [streaming.r streaming.set_r streaming.add_progress].
      pose proof (ReadFull_outcome n r1) as Hf.
      destruct (ReadFull n r1) as [[data|e| |] r2]; try done.
      * split; [done|]. intros _. eexists _, _. split; [reflexivity|].
        cbn [streaming.r streaming.set_r streaming.add_progress].
        destruct Hf as (_ & -> & ->).
        split; [apply String.list_byte_of_string_of_list_byte|done].
      * destruct Hf as [Hshort He]. split.
        -- intros e' p2 [= <- _]. by apply io_error_not_CorruptLength.
        -- intros Hlen. lia.
  - split; [done|]. by apply io_error_not_CorruptLength.
Qed.

Lemma streaming_readBytes_capped U :
  length_capped (@streaming.readBytes U) streaming.readVarint (2 ^ 30)
                streaming.r (fun data => data).
Proof.
  intros p. unfold streaming.readBytes, mbind, M_bind, streaming.readVarint.
  pose proof (ReadUvarint_outcome (streaming.r p)) as Hv.
  destruct (ReadUvarint (streaming.r p)) as [[n|e| |] r1]; try done.
  - destruct (Z.ltb_spec (2 ^ 30) n) as [Hlt|Hle].
    + split; [|lia]. intros _. eexists. split; reflexivity.
    + split; [lia|]. intros _. unfold streaming.readFull.
      cbn [streaming.r streaming.set_r streaming.add_progress].
      pose proof (ReadFull_outcome n r1) as Hf.
      destruct (ReadFull n r1) as [[data|e| |] r2]; try done.
      * split; [done|]. intros _. eexists _, _. split; [reflexivity|].
        cbn [streaming.r streaming.set_r streaming.add_progress].
        by destruct Hf as (_ & -> & ->).
      * destruct Hf as [Hshort He]. split.
        -- intros e' p2 [= <- _]. by apply io_error_not_CorruptLength.
        -- intros Hlen. lia.
  - split; [done|]. by apply io_error_not_CorruptLength.
Qed.

(** C9. In the graph-building parser and in the streaming parser alike,
    reading a length-prefixed string whose declared length exceeds 1 MiB, or
    a length-prefixed byte slice whose declared length exceeds 1 GiB, fails
    with a CorruptLength error, which no other failure of these readers is;
    a declared length at or below the cap is accepted: the read never fails
    with CorruptLength and returns the declared number of bytes when the
    input holds them. *)
Theorem C9_length_caps :
  length_capped goheap.readString goheap.readVarint (2 ^ 20) goheap.r
                String.list_byte_of_string ∧
  length_capped goheap.readBytes goheap.readVarint (2 ^ 30) goheap.r (fun data => data) ∧
  (∀ U, length_capped (@streaming.readString U) streaming.readVarint (2 ^ 20)
                      streaming.r String.list_byte_of_string) ∧
  (∀ U, length_capped (@streaming.readBytes U) streaming.readVarint (2 ^ 30)
                      streaming.r (fun data => data)).
Proof.
  split; [apply goheap_readString_capped|].
  split; [apply goheap_readBytes_capped|].
  split; [apply streaming_readString_capped|apply streaming_readBytes_capped].
Qed.

Lemma C9_length_caps_witness :
  ∃ e, goheap.readString (goheap.newParser (PutUvarint (2 ^ 20 + 1)))
       = (Err e, goheap.newParser []) ∧ CorruptLength e = true.
Proof.
  pose proof (proj1 C9_length_caps (goheap.newParser (PutUvarint (2 ^ 20 + 1)))) as H.
  assert (goheap.readVarint (goheap.newParser (PutUvarint (2 ^ 20 + 1)))
          = (Ok (2 ^ 20 + 1), goheap.newParser [])) as Hv by (vm_compute; reflexivity).
  rewrite Hv in H. destruct H as [H _]. apply H. lia.
Defined.

(** ** The JSON fixture adapter *)

Section JSONStub_facts.

Import heapdump.

Lemma validateIDs_Some objs : ∀ i e,
  validateIDs i objs = Some e →
  ∃ k obj, objs !! k = Some obj ∧ ID obj = 0 ∧
           e = Errorf "object at index %d missing ID" [ArgInt (i + Z.of_nat k)] ∧
           ∀ j obj', (j < k)%nat → objs !! j = Some obj' → ID obj' ≠ 0.
Proof.
  induction objs as [|o objs IH]; intros i e H; simpl in H; [done|].
  destruct (Z.eqb_spec (ID o) 0) as [Hz|Hnz].
  - injection H as <-. exists 0%nat, o. repeat split; auto.
    + do 3 f_equal. lia.
    + intros j obj' Hj. lia.
  - apply IH in H as (k & obj & Hk & Hz & -> & Hfirst).
    exists (S k), obj. repeat split; auto.
    + do 3 f_equal. lia.
    + intros [|j] obj' Hj Hl; simpl in Hl.
      * by injection Hl as <-.
      * apply (Hfirst j); [lia|done].
Qed.

Lemma validateIDs_None objs : ∀ i,
  validateIDs i objs = None ↔ ∀ obj, obj ∈ objs → ID obj ≠ 0.
Proof.
  induction objs as [|o objs IH]; intros i; simpl.
  - split; [|done]. intros _ obj H. by apply elem_of_nil in H.
  - destruct (Z.eqb_spec (ID o) 0) as [Hz|Hnz].
    + split; [done|]. intros H. exfalso. apply (H o); [by left|done].
    + rewrite IH. split.
      * intros H obj Hin. apply elem_of_cons in Hin as [->|Hin]; auto.
      * intros H obj Hin. apply H. by right.
Qed.

Lemma addObjects_lookup objs : ∀ g k o,
  graph.objects (foldl (fun g obj => graph.AddObject g (toGraphObject obj)) g objs) !! k = Some o →
  graph.objects g !! k = Some o ∨ ∃ obj, obj ∈ objs ∧ o = toGraphObject obj ∧ k = ID obj.
Proof.
  induction objs as [|obj objs IH]; intros g k o H; simpl in H; [by left|].
  apply IH in H as [H|(obj' & ? & ? & ?)].
  - simpl in H. apply lookup_insert_Some in H as [[<- <-]|[_ H]]; [|by left].
    right. exists obj. split; [by left|done].
  - right. exists obj'. split; [by right|done].
Qed.

End JSONStub_facts.

(** C10. [JSONStub.Parse] returns an error reporting a missing ID, at the
    index of the first such entry, for every JSON dump whose objects array
    contains an entry with id 0; and a graph it returns has no object under
    the id 0 and no object whose id is 0. *)
Theorem C10_json_rejects_id_zero (jsonDecode : heapdump.Reader → error + heapdump.jsonDump)
    (r : heapdump.Reader) :
  (∀ dump obj, jsonDecode r = inr dump → obj ∈ heapdump.Objects dump → heapdump.ID obj = 0 →
     ∃ (i : nat) first,
       heapdump.JSONStub_Parse jsonDecode r
         = Err (Errorf "object at index %d missing ID" [ArgInt (Z.of_nat i)]) ∧
       heapdump.Objects dump !! i = Some first ∧ heapdump.ID first = 0) ∧
  (∀ g, heapdump.JSONStub_Parse jsonDecode r = Ok g →
     graph.GetObject g 0 = None ∧
     ∀ k o, graph.GetObject g k = Some o → graph.ID o ≠ 0).
Proof.
  unfold heapdump.JSONStub_Parse, heapdump.buildGraph. split.
  - intros dump obj -> Hin Hz.
    destruct (heapdump.validateIDs 0 (heapdump.Objects dump)) as [e|] eqn:Hv.
    + apply validateIDs_Some in Hv as (k & first & Hk & Hz' & -> & _).
      exists k, first. by rewrite Z.add_0_l.
    + exfalso. eapply validateIDs_None; eauto.
  - intros g H. destruct (jsonDecode r) as [err|dump]; [done|].
    destruct (heapdump.validateIDs 0 (heapdump.Objects dump)) as [e|] eqn:Hv; [done|].
    injection H as <-. unfold graph.GetObject. cbn [graph.SetRoots graph.objects].
    assert (∀ k o, graph.objects
              (foldl (fun g obj => graph.AddObject g (heapdump.toGraphObject obj))
                     graph.NewMemGraph (heapdump.Objects dump)) !! k = Some o →
            k ≠ 0 ∧ graph.ID o ≠ 0) as Hall.
    { intros k o H. apply addObjects_lookup in H as [H|(obj & Hin & -> & ->)].
      - simpl in H. by rewrite lookup_empty in H.
      - pose proof (proj1 (validateIDs_None _ _) Hv obj Hin). done. }
    split.
    + destruct (_ !! 0) as [o|] eqn:H0; [|done].
      apply Hall in H0 as [? _]. done.
    + intros k o H. by apply Hall in H as [_ ?].
Qed.

Lemma C10_json_rejects_id_zero_witness :
  ∃ (i : nat) first,
    heapdump.JSONStub_Parse
      (fun _ => inr {| heapdump.Objects :=
                         [ {| heapdump.ID := 7; heapdump.Type_ := "a"; heapdump.Size := 1;
                              heapdump.Ptrs := None |};
                           {| heapdump.ID := 0; heapdump.Type_ := "b"; heapdump.Size := 1;
                              heapdump.Ptrs := None |} ];
                       heapdump.Roots := None |}) []
      = Err (Errorf "object at index %d missing ID" [ArgInt (Z.of_nat i)]) ∧
    [ {| heapdump.ID := 7; heapdump.Type_ := "a"; heapdump.Size := 1;
         heapdump.Ptrs := None |};
      {| heapdump.ID := 0; heapdump.Type_ := "b"; heapdump.Size := 1;
         heapdump.Ptrs := None |} ] !! i = Some first ∧
    heapdump.ID first = 0.
Proof.
  refine (proj1 (C10_json_rejects_id_zero _ []) _
                {| heapdump.ID := 0; heapdump.Type_ := "b"; heapdump.Size := 1;
                   heapdump.Ptrs := None |} eq_refl _ eq_refl).
  right. left.
Defined.

(** ** The parser registry *)

Section Registry_facts.

Import heapdump.

Lemma content_app_bytes b r : content (MultiReader (bytesReader b) r) = b ++ content r.
Proof. destruct b; reflexivity. Qed.

Lemma ending_app_bytes b r : ending (MultiReader (bytesReader b) r) = ending r.
Proof. destruct b; reflexivity. Qed.

Lemma Read_preview n r detected err r' :
  Read n r = (detected, err, r') →
  (length detected ≤ n)%nat ∧
  match err with
  | Some EOF | None => content r = detected ++ content r' ∧ ending r = ending r'
  | Some e => r = Fail e :: r'
  end.
Proof.
  unfold Read. destruct r as [|[bs|e] rest].
  - intros [= <- <- <-]. simpl. split; [lia|split; reflexivity].
  - destruct (Nat.leb_spec (length bs) n).
    + intros [= <- <- <-]. split; [lia|split; reflexivity].
    + intros [= <- <- <-]. rewrite length_take. split; [lia|].
      simpl. rewrite app_assoc, take_drop. split; reflexivity.
  - destruct e; intros [= <- <- <-]; simpl; (split; [lia|]); try reflexivity.
    split; reflexivity.
Qed.

Lemma tryParsers_claimed parsers detected r i parser :
  parsers !! i = Some parser →
  CanParse parser (bytesReader detected) = true →
  (∀ j earlier, (j < i)%nat → parsers !! j = Some earlier →
     CanParse earlier (bytesReader detected) = false) →
  tryParsers parsers detected r = Parse parser (MultiReader (bytesReader detected) r).
Proof.
  revert i. induction parsers as [|q parsers IH]; intros i Hi Hcan Hfirst; [done|].
  destruct i as [|i]; simpl in *.
  - injection Hi as ->. by rewrite Hcan.
  - rewrite (Hfirst 0%nat q) by (lia || done).
    apply (IH i); [done..|]. intros j earlier Hj Hl. apply (Hfirst (S j)); [lia|done].
Qed.

Lemma tryParsers_unclaimed parsers detected r :
  (∀ parser, parser ∈ parsers → CanParse parser (bytesReader detected) = false) →
  tryParsers parsers detected r = Err ErrNoParser.
Proof.
  induction parsers as [|q parsers IH]; intros H; [done|]. simpl.
  rewrite (H q) by (by left). apply IH. intros parser Hin. apply H. by right.
Qed.

(** C8. [Open] reads a preview of at most 4096 bytes, a prefix of the input.
    Unless that read fails with an error other than EOF (which [Open]
    returns), it asks each registered parser's [CanParse] on a fresh reader
    of the preview, in registration order; the first parser that claims the
    preview is given a reader that delivers the whole input, preview first,
    and [Open] returns what it returns; when no registered parser claims the
    preview, [Open] returns [ErrNoParser]. *)
Theorem C8_open_selects_first_claimant (registry : list Parser) (r : Reader) :
  ∃ detected err r',
    Read 4096 r = (detected, err, r') ∧ (length detected ≤ 4096)%nat ∧
    match err with
    | Some EOF | None =>
      detected `prefix_of` content r ∧
      (∀ i parser,
         registry !! i = Some parser →
         CanParse parser (bytesReader detected) = true →
         (∀ j earlier, (j < i)%nat → registry !! j = Some earlier →
            CanParse earlier (bytesReader detected) = false) →
         ∃ parseReader, Open registry r = Parse parser parseReader ∧
                        content parseReader = content r ∧
                        ending parseReader = ending r) ∧
      ((∀ parser, parser ∈ registry → CanParse parser (bytesReader detected) = false) →
         Open registry r = Err ErrNoParser)
    | Some e => Open registry r = Err e
    end.
Proof.
  destruct (Read 4096 r) as [[detected err] r'] eqn:HR.
  exists detected, err, r'. split; [done|].
  pose proof (Read_preview _ _ _ _ _ HR) as [Hlen Hc]. split; [done|].
  unfold Open. rewrite HR.
  assert (err = None ∨ err = Some EOF →
    detected `prefix_of` content r ∧
    (∀ i parser,
       registry !! i = Some parser →
       CanParse parser (bytesReader detected) = true →
       (∀ j earlier, (j < i)%nat → registry !! j = Some earlier →
          CanParse earlier (bytesReader detected) = false) →
       ∃ parseReader, tryParsers registry detected r' = Parse parser parseReader ∧
                      content parseReader = content r ∧
                      ending parseReader = ending r) ∧
    ((∀ parser, parser ∈ registry → CanParse parser (bytesReader detected) = false) →
       tryParsers registry detected r' = Err ErrNoParser)) as Hok.
  { intros Herr.
    assert (content r = detected ++ content r' ∧ ending r = ending r') as [Hcon Hend]
      by (destruct Herr as [-> | ->]; exact Hc).
    split; [by exists (content r')|]. split.
    - intros i parser Hi Hcan Hfirst. eexists. split.
      + by apply (tryParsers_claimed registry detected r' i).
      + by rewrite content_app_bytes, ending_app_bytes.
    - apply tryParsers_unclaimed. }
  destruct err as [e|]; [destruct e|]; auto.
Qed.

Lemma C8_open_selects_first_claimant_witness :
  Open [GoHeapParser 8] [Data fixtures.scenarioF] = Ok fixtures.scenarioF_graph.
Proof.
  destruct (C8_open_selects_first_claimant [GoHeapParser 8] [Data fixtures.scenarioF])
    as (detected & err & r' & HR & _ & H).
  vm_compute in HR. injection HR as <- <- <-.
  destruct H as (_ & Hclaim & _).
  destruct (Hclaim 0%nat (GoHeapParser 8) eq_refl) as (parseReader & -> & Hc & _).
  - vm_compute. reflexivity.
  - intros j earlier Hj. lia.
  - unfold GoHeapParser, Parse. rewrite Hc. vm_compute. reflexivity.
Defined.

(** [Register] adds the parser at the end of the registration order. *)
Lemma Register_last registry p : Register registry p !! length registry = Some p.
Proof. unfold Register. by rewrite lookup_app_r, Nat.sub_diag. Qed.

End Registry_facts.

(** ** The streaming parser *)

Lemma ReadUvarint_loop_length n : ∀ i x s r res r',
  ReadUvarint_loop n i x s r = (res, r') → (length r' ≤ length r)%nat.
Proof.
  induction n as [|n IH]; intros i x s r res r' H; simpl in H.
  - injection H as _ <-. lia.
  - destruct r as [|b r]; [injection H as _ <-; simpl; lia|].
    destruct (byte_val b <? 128).
    + destruct ((i =? 9) && (1 <? byte_val b)); injection H as _ <-; simpl; lia.
    + apply IH in H. simpl. lia.
Qed.

Lemma ReadUvarint_loop_not_EOF n : ∀ i x s r r',
  0 < i → ReadUvarint_loop n i x s r ≠ (Err EOF, r').
Proof.
  induction n as [|n IH]; intros i x s r r' Hi; simpl; [done|].
  destruct r as [|b r].
  - destruct (Z.ltb_spec 0 i); [done|lia].
  - destruct (byte_val b <? 128); [|apply IH; lia].
    by destruct ((i =? 9) && (1 <? byte_val b)).
Qed.

(** A varint read either finds the input empty and reports [EOF], or consumes
    at least one byte. *)
Lemma ReadUvarint_loop_S n i x s r :
  ReadUvarint_loop (S n) i x s r =
  match r with
  | [] => (Err (if 0 <? i then ErrUnexpectedEOF else EOF), [])
  | b :: r' =>
    let b := byte_val b in
    if b <? 128 then
      if (i =? 9) && (1 <? b) then (Err errOverflow, r')
      else (Ok (Z.lor x (wrap64 (Z.shiftl b s))), r')
    else
      ReadUvarint_loop n (i + 1) (Z.lor x (wrap64 (Z.shiftl (Z.land b 127) s))) (s + 7) r'
  end.
Proof. reflexivity. Qed.

Lemma ReadUvarint_progress r res r' :
  ReadUvarint r = (res, r') →
  (r = [] ∧ res = Err EOF ∧ r' = []) ∨ ((length r' < length r)%nat ∧ res ≠ Err EOF).
Proof.
  unfold ReadUvarint. rewrite ReadUvarint_loop_S. destruct r as [|b r]; cbv zeta.
  - intros [= <- <-]. by left.
  - intros H. right. destruct (byte_val b <? 128).
    + destruct ((0 =? 9) && (1 <? byte_val b)); injection H as <- <-; split;
        ((simpl; lia) || done).
    + split.
      * apply ReadUvarint_loop_length in H. simpl. lia.
      * intros ->. by apply ReadUvarint_loop_not_EOF in H.
Qed.

Lemma ReadFull_length n r res r' :
  ReadFull n r = (res, r') → (length r' ≤ length r)%nat ∧ res ≠ OutOfFuel.
Proof.
  unfold ReadFull. destruct (Z.to_nat n <=? length r)%nat.
  - intros [= <- <-]. rewrite length_drop. split; [lia|done].
  - destruct r; intros [= <- <-]; simpl; split; (lia || done).
Qed.


Section Streaming_facts.

Context {U : Type}.
Variable unread : bool.

Local Abbreviation SP := (streaming.StreamingParser U).













Lemma sub_weaken {A} n n' (m : M SP A) : sub n m → (n' ≤ n)%nat → sub n' m.
Proof.
  intros Hm Hle p res p' H. apply Hm in H as (? & ? & ? & Hf).
  split; [done|]. split; [done|]. split; [done|]. intros Hn. apply Hf. lia.
Qed.













Lemma seekLoop_length n : ∀ r, (length (streaming.seekLoop unread n r) ≤ length r)%nat.
Proof.
  induction n as [|n IH]; intros r; simpl; [lia|].
  destruct r as [|b r]; [simpl; lia|].
  destruct (_ && _).
  - destruct unread; simpl; lia.
  - specialize (IH r). simpl. lia.
Qed.

Lemma handleError_spec err (p : SP) recovered p' :
  streaming.handleError unread err p = (recovered, p') →
  streaming.maxErrors p' = streaming.maxErrors p ∧
  streaming.errorCount p' = streaming.errorCount p + 1 ∧
  (length (streaming.r p') ≤ length (streaming.r p))%nat ∧
  (recovered = true → streaming.errorCount p' ≤ streaming.maxErrors p').
Proof.
  unfold streaming.handleError. intros H.
  set (p1 := streaming.add_errorCount 1 p) in *.
  destruct (match streaming.OnError (streaming.callbacks p1) with
            | Some cb => let '(e, u) := cb err (streaming.skipOnError p1) (streaming.user p1) in
                         (e, streaming.set_user u p1)
            | None => (None, p1)
            end) as [recoveryErr p2] eqn:Hcb.
  assert (streaming.maxErrors p2 = streaming.maxErrors p ∧
          streaming.errorCount p2 = streaming.errorCount p + 1 ∧
          streaming.r p2 = streaming.r p) as (Hm & He & Hr).
  { destruct (streaming.OnError (streaming.callbacks p1)) as [cb|].
    - destruct (cb err _ _) as [e u]. by injection Hcb as <- <-.
    - by injection Hcb as <- <-. }
  destruct recoveryErr as [e|].
  { injection H as <- <-. rewrite Hm, He, Hr. repeat split; (lia || done). }
  destruct (Z.ltb_spec (streaming.maxErrors p2) (streaming.errorCount p2)).
  { injection H as <- <-. rewrite Hm, He, Hr. repeat split; (lia || done). }
  destruct (streaming.skipOnError p2); injection H as <- <-.
  - unfold streaming.seekToNextRecord. simpl. rewrite Hr.
    pose proof (seekLoop_length 1000 (streaming.r p)).
    repeat split; (lia || done).
  - rewrite Hm, He, Hr. repeat split; (lia || done).
Qed.


(** With the budget used up, [handleError] declines, and the site returns the
    error of the record that failed (wrapped or not, as the site has it)
    without going on to the next record. *)
Lemma handleError_over_budget err (p : SP) :
  streaming.maxErrors p ≤ streaming.errorCount p →
  ∃ p', streaming.handleError unread err p = (false, p') ∧
        streaming.errorCount p' = streaming.errorCount p + 1.
Proof.
  intros Hfull. destruct (streaming.handleError unread err p) as [recovered p'] eqn:Hh.
  pose proof (handleError_spec _ _ _ _ Hh) as (Hm & He & _ & Hrec).
  exists p'. destruct recovered; [specialize (Hrec eq_refl); lia|done].
Qed.

Lemma orRecover_over_budget wrap returnWrapped (m k : M SP unit) (p p1 : SP) err :
  m p = (Err err, p1) → streaming.maxErrors p1 ≤ streaming.errorCount p1 →
  ∃ p2, streaming.orRecover unread wrap returnWrapped m k p
        = (Err (if returnWrapped then wrap err else err), p2) ∧
        streaming.errorCount p2 = streaming.errorCount p1 + 1.
Proof.
  intros Hm Hfull. unfold streaming.orRecover. rewrite Hm.
  destruct (handleError_over_budget (wrap err) p1 Hfull) as (p2 & -> & He).
  by exists p2.
Qed.



Lemma good_fail maxE n e : @good U maxE n (fail e).
Proof.
  intros p res p' Hm He [= <- <-]. split; [|done].
  split; [done|]. split; [lia|]. intros; lia.
Qed.



Lemma good_weaken maxE n n' (k : M SP unit) :
  good maxE n k → (n' ≤ n)%nat → good maxE n' k.
Proof.
  intros Hk Hle p res p' Hm He H. apply Hk in H as [? Hf]; [|done..].
  split; [done|]. intros Hn. apply Hf. lia.
Qed.


End Streaming_facts.



(** * Further properties of the graph analyses *)

Section Graph_facts.

Import graph.

(** ** The dominator tree and its utilities (dominators.go, domtree.go) *)

Lemma tree_fold_sget (l : list (Z * Z)) : ∀ (t : gmap Z (list Z)) p,
  sget (foldl (fun tree '(node, dom) => <[dom := sget tree dom ++ [node]]> tree) t l) p
  = sget t p ++ (filter (fun x => x.2 = p) l).*1.
Proof.
  induction l as [|[node dom] l IH]; intros t p; simpl.
  - by rewrite app_nil_r.
  - rewrite IH. rewrite filter_cons. simpl. destruct (decide (dom = p)) as [->|Hne].
    + rewrite sget_insert. rewrite decide_True by done. simpl. by rewrite <- app_assoc.
    + rewrite sget_insert. by rewrite decide_False.
Qed.

Lemma tree_fold_keys (l : list (Z * Z)) : ∀ (t : gmap Z (list Z)) k,
  is_Some (foldl (fun tree '(node, dom) => <[dom := sget tree dom ++ [node]]> tree) t l !! k)
  ↔ is_Some (t !! k) ∨ k ∈ l.*2.
Proof.
  induction l as [|[node dom] l IH]; intros t k; simpl.
  - split; [by left|]. intros [H|H]; [done|]. by apply elem_of_nil in H.
  - rewrite IH. rewrite elem_of_cons. destruct (decide (dom = k)) as [->|Hne].
    + rewrite lookup_insert_eq. split; [intros _; right; by left | intros _; left; by eexists].
    + rewrite lookup_insert_ne by done. split; intros [H|H]; auto.
      destruct H as [H|H]; [congruence | auto].
Qed.

Lemma tree_init (l : list (Z * Z)) : ∀ (t : gmap Z (list Z)),
  let t' := foldl (fun tree '(node, _) => <[node := []]> tree) t l in
  (∀ k, is_Some (t' !! k) ↔ is_Some (t !! k) ∨ k ∈ l.*1) ∧
  ((∀ p, sget t p = []) → ∀ p, sget t' p = []).
Proof.
  induction l as [|[node dom] l IH]; intros t; simpl.
  - split; [|done]. intros k. split; [by left|]. intros [H|H]; [done|]. by apply elem_of_nil in H.
  - destruct (IH (<[node := []]> t)) as [IH1 IH2]. split.
    + intros k. rewrite IH1, elem_of_cons. destruct (decide (node = k)) as [->|Hne].
      * rewrite lookup_insert_eq. split; [intros _; right; by left | intros _; left; by eexists].
      * rewrite lookup_insert_ne by done. split; intros [H|H]; auto.
        destruct H as [H|H]; [congruence | auto].
    + intros H. apply IH2. intros p. rewrite sget_insert. by destruct (decide _).
Qed.

Lemma DominatorTree_sget (idom : gmap Z Z) (visit1 visit2 : list (Z * Z)) p :
  sget (DominatorTree idom visit1 visit2) p = (filter (fun x => x.2 = p) visit2).*1.
Proof.
  unfold DominatorTree. rewrite tree_fold_sget.
  pose proof (tree_init visit1 ∅) as [_ He]. simpl in He.
  rewrite sget_insert. destruct (decide _); [done|]. by rewrite He.
Qed.

(** The children listed for [p] are the nodes whose immediate dominator is
    [p]. *)
Lemma DominatorTree_children (idom : gmap Z Z) (visit1 visit2 : list (Z * Z)) p c :
  range_order idom visit2 →
  c ∈ sget (DominatorTree idom visit1 visit2) p ↔ idom !! c = Some p.
Proof.
  intros H2. unfold range_order in H2. rewrite DominatorTree_sget, list_elem_of_fmap. split.
  - intros ([c' p'] & -> & Hin). apply list_elem_of_filter in Hin as [Hp Hin]. simpl in *.
    subst p'. rewrite H2 in Hin. by apply elem_of_map_to_list in Hin.
  - intros Hc. exists (c, p). split; [done|]. apply list_elem_of_filter. split; [done|].
    rewrite H2. by apply elem_of_map_to_list.
Qed.

Lemma DominatorTree_NoDup (idom : gmap Z Z) (visit1 visit2 : list (Z * Z)) p :
  range_order idom visit2 → NoDup (sget (DominatorTree idom visit1 visit2) p).
Proof.
  intros H2. unfold range_order in H2. rewrite DominatorTree_sget.
  assert (NoDup visit2.*1) as Hnd by (rewrite H2; apply NoDup_fst_map_to_list).
  clear -Hnd. induction visit2 as [|[c q] l IH]; simpl; [constructor|].
  apply NoDup_cons in Hnd as [Hc Hnd]. rewrite filter_cons. simpl.
  destruct (decide (q = p)); [|by apply IH]. simpl. apply NoDup_cons. split; [|by apply IH].
  intros Hin. apply Hc. apply list_elem_of_fmap in Hin as (x & -> & Hin).
  apply list_elem_of_filter in Hin as [_ Hin]. apply list_elem_of_fmap. by exists x.
Qed.

Lemma DominatorTree_keys (idom : gmap Z Z) (visit1 visit2 : list (Z * Z)) k :
  range_order idom visit1 → range_order idom visit2 →
  is_Some (DominatorTree idom visit1 visit2 !! k) ↔
  k = 0 ∨ is_Some (idom !! k) ∨ ∃ c, idom !! c = Some k.
Proof.
  intros H1 H2. unfold range_order in *. unfold DominatorTree.
  pose proof (tree_init visit1 ∅) as [Hk _]. simpl in Hk. rewrite tree_fold_keys.
  assert (is_Some (<[0:=[]]> (foldl (λ tree '(node, _), <[node:=[]]> tree) ∅ visit1) !! k)
          ↔ k = 0 ∨ is_Some (idom !! k)) as ->.
  { destruct (decide (0 = k)) as [<-|Hne].
    - rewrite lookup_insert_eq. split; [by left | by eexists].
    - rewrite lookup_insert_ne by done. rewrite Hk. rewrite lookup_empty. split.
      + intros [H|H]; [by destruct H|]. right.
        apply list_elem_of_fmap in H as ([k' v] & -> & H). rewrite H1 in H.
        apply elem_of_map_to_list in H. by eexists.
      + intros [H|[v H]]; [congruence|]. right. apply list_elem_of_fmap.
        exists (k, v). split; [done|]. rewrite H1. by apply elem_of_map_to_list. }
  split.
  - intros [[H|H]|H]; auto. right; right.
    apply list_elem_of_fmap in H as ([c k'] & -> & H). rewrite H2 in H.
    apply elem_of_map_to_list in H. by exists c.
  - intros [H|[H|[c H]]]; auto. right. apply list_elem_of_fmap. exists (c, k).
    split; [done|]. rewrite H2. by apply elem_of_map_to_list.
Qed.

(** X1. [DominatorTree] turns the map of immediate dominators around: in
    whatever orders its two ranges visit [idom], the children listed for a
    node [p] are exactly the nodes whose immediate dominator is [p], each
    listed once; the keys of the tree are the super-root 0, the nodes that
    have an immediate dominator, and the nodes that are one. *)
Theorem DominatorTree_inverts_idom (idom : gmap Z Z) (visit1 visit2 : list (Z * Z)) :
  range_order idom visit1 → range_order idom visit2 →
  (∀ p c, c ∈ sget (DominatorTree idom visit1 visit2) p ↔ idom !! c = Some p) ∧
  (∀ p, NoDup (sget (DominatorTree idom visit1 visit2) p)) ∧
  (∀ k, is_Some (DominatorTree idom visit1 visit2 !! k) ↔
        k = 0 ∨ is_Some (idom !! k) ∨ ∃ c, idom !! c = Some k).
Proof.
  intros H1 H2. split; [|split].
  - intros p c. by apply DominatorTree_children.
  - intros p. by apply DominatorTree_NoDup.
  - intros k. by apply DominatorTree_keys.
Qed.

Lemma DominatorTree_inverts_idom_witness :
  2 ∈ sget (DominatorTree ({[1 := 0; 2 := 1]} : gmap Z Z)
              (map_to_list ({[1 := 0; 2 := 1]} : gmap Z Z))
              (map_to_list ({[1 := 0; 2 := 1]} : gmap Z Z))) 1.
Proof.
  apply (DominatorTree_inverts_idom {[1 := 0; 2 := 1]}).
  - unfold range_order. reflexivity.
  - unfold range_order. reflexivity.
  - vm_compute. reflexivity.
Defined.

End Graph_facts.

Section DominatorPath_facts.

Import graph.

Lemma DominatorPath_loop_returns idom node x :
  rtc (idom_climb idom) node x → idom_top idom x →
  ∃ fuel, ∀ path, ∃ res, DominatorPath_loop fuel idom node path = Ok res.
Proof.
  induction 1 as [x|a b c [Hab Hb] Hbc IH]; intros Htop.
  - exists 1%nat. intros path. simpl. destruct Htop as [-> | ->]; simpl; eauto.
  - destruct (IH Htop) as [fuel Hf]. exists (S fuel). intros path. simpl.
    rewrite Hab. destruct (b =? 0) eqn:E; [lia|]. apply Hf.
Qed.

(** What the loop appends to [path]: the chain of immediate dominators from
    [cur], closed by the super-root. *)
Lemma DominatorPath_loop_spec fuel idom : ∀ cur path res,
  DominatorPath_loop fuel idom cur path = Ok res →
  ∃ chain, res = path ++ chain ∧ head chain = Some cur ∧ last chain = Some 0 ∧
    (∃ x, rtc (idom_climb idom) cur x ∧ idom_top idom x) ∧
    (∀ i x y, chain !! i = Some x → chain !! S i = Some y →
       idom !! x = Some y ∨ (y = 0 ∧ idom !! x = None)) ∧
    (idom !! 0 = None → ∀ d, d ∈ chain ↔ d = 0 ∨ rtc (idom_step idom) cur d).
Proof.
  induction fuel as [|fuel IH]; intros cur path res H; [done|]. simpl in H.
  assert (idom_top idom cur →
          Ok (if negb (cur =? 0) then (path ++ [cur]) ++ [0] else path ++ [cur]) = Ok res →
          ∃ chain, res = path ++ chain ∧ head chain = Some cur ∧ last chain = Some 0 ∧
            (∃ x, rtc (idom_climb idom) cur x ∧ idom_top idom x) ∧
            (∀ i x y, chain !! i = Some x → chain !! S i = Some y →
               idom !! x = Some y ∨ (y = 0 ∧ idom !! x = None)) ∧
            (idom !! 0 = None → ∀ d, d ∈ chain ↔ d = 0 ∨ rtc (idom_step idom) cur d)) as Hstop.
  { intros Htop Hres. injection Hres as <-.
    assert (∀ d, rtc (idom_step idom) 0 d → idom !! 0 = None → d = 0) as Hz.
    { intros d Hd H0. inversion Hd as [|? y ? Hs]; [done|]. unfold idom_step in Hs. congruence. }
    destruct (cur =? 0) eqn:E; simpl.
    - apply Z.eqb_eq in E as ->. exists [0]. repeat split; auto.
      + exists 0. split; [constructor | done].
      + intros [|i] x y Hx Hy; simpl in *; [done | done].
      + intros Hd. apply list_elem_of_singleton in Hd. by left.
      + intros [-> | Hd]; [by constructor|]. apply Hz in Hd as ->; [by constructor | done].
    - apply Z.eqb_neq in E. exists [cur; 0]. rewrite <- app_assoc. repeat split; auto.
      + exists cur. split; [constructor | done].
      + intros [|[|i]] x y Hx Hy; simpl in *; try done.
        injection Hx as <-. injection Hy as <-.
        destruct Htop as [Hn | Hs]; [by right | by left].
      + intros Hd. apply elem_of_cons in Hd as [-> | Hd]; [right; constructor|].
        apply list_elem_of_singleton in Hd. by left.
      + intros [-> | Hd]; [right; by left|].
        inversion Hd as [|? y ? Hs Hr]; subst; [by left|].
        unfold idom_step in Hs. destruct Htop as [Hn | Ht]; [congruence|].
        rewrite Ht in Hs. injection Hs as <-. apply Hz in Hr; [|done]. subst. right; by left. }
  destruct (idom !! cur) as [dom|] eqn:Hc; [|apply Hstop; [by left | done]].
  destruct (dom =? 0) eqn:E.
  { apply Z.eqb_eq in E as ->. apply Hstop; [by right | done]. }
  apply Z.eqb_neq in E. apply IH in H as (chain & -> & Hh & Hl & (x & Hx & Htop) & Hlink & Hmem).
  exists (cur :: chain). rewrite <- app_assoc. repeat split; auto.
  - destruct chain; [done|]. simpl in *. done.
  - exists x. split; [|done]. by apply (rtc_l _ _ dom).
  - intros [|i] a b Ha Hb; simpl in *.
    + injection Ha as <-. destruct chain as [|c chain]; [done|]. simpl in *.
      injection Hh as ->. injection Hb as <-. by left.
    + by apply (Hlink i).
  - intros Hd. apply elem_of_cons in Hd as [-> | Hd]; [right; constructor|].
    apply Hmem in Hd as [-> | Hd]; [by left | |done]. right. by apply (rtc_l _ _ dom).
  - intros [-> | Hd].
    + right. apply Hmem; [done | by left].
    + inversion Hd as [|? y ? Hs Hr]; subst; [by left|]. right.
      unfold idom_step in Hs. rewrite Hc in Hs. injection Hs as <-. apply Hmem; [done | by right].
Qed.

(** X2. [DominatorPath] returns exactly when the chain of immediate
    dominators from [node] comes to a node that has no entry in [idom] or
    whose entry is the super-root 0 (on a chain that runs in a circle it
    never returns). The path it returns starts with [node] and ends with 0;
    each element is followed by its immediate dominator, or by the 0 that
    closes the path. When [idom] has no entry for 0, as [Dominators] leaves
    it, the elements of the path are 0 and the nodes the chain passes. *)
Theorem DominatorPath_follows_idom (idom : gmap Z Z) (node : Z) :
  ((∃ fuel path, DominatorPath fuel idom node = Ok path) ↔
   (∃ x, rtc (idom_climb idom) node x ∧ idom_top idom x)) ∧
  (∀ fuel path, DominatorPath fuel idom node = Ok path →
     head path = Some node ∧ last path = Some 0 ∧
     (∀ i x y, path !! i = Some x → path !! S i = Some y →
        idom !! x = Some y ∨ (y = 0 ∧ idom !! x = None)) ∧
     (idom !! 0 = None → ∀ d, d ∈ path ↔ d = 0 ∨ rtc (idom_step idom) node d)).
Proof.
  split; [split|].
  - intros (fuel & path & H). unfold DominatorPath in H.
    apply DominatorPath_loop_spec in H as (chain & _ & _ & _ & Hx & _). exact Hx.
  - intros (x & Hx & Htop). destruct (DominatorPath_loop_returns idom node x Hx Htop) as [fuel H].
    exists fuel. apply H.
  - intros fuel path H. unfold DominatorPath in H.
    apply DominatorPath_loop_spec in H as (chain & -> & Hh & Hl & _ & Hlink & Hmem). auto.
Qed.

Lemma IsDominated_loop_spec fuel idom d : idom !! 0 = None → ∀ cur b,
  IsDominated_loop fuel idom cur d = Ok b → cur ≠ d →
  (b = true ↔ rtc (idom_step idom) cur d).
Proof.
  intros H0. induction fuel as [|fuel IH]; intros cur b H Hne; [done|]. simpl in H.
  destruct (idom !! cur) as [dom|] eqn:Hc.
  - destruct (dom =? d) eqn:E.
    { apply Z.eqb_eq in E as ->. injection H as <-. split; [|done]. intros _.
      apply rtc_once. exact Hc. }
    apply Z.eqb_neq in E. destruct (dom =? 0) eqn:E0.
    + apply Z.eqb_eq in E0 as ->. injection H as <-.
      assert ((d =? 0) = false) as -> by (apply Z.eqb_neq; congruence).
      split; [done|]. intros Hr. inversion Hr as [|? y ? Hs Hr']; subst; [done|].
      unfold idom_step in Hs. rewrite Hc in Hs. injection Hs as <-.
      inversion Hr' as [|? y ? Hs' _]; subst; [done|]. unfold idom_step in Hs'. congruence.
    + apply IH in H; [|done]. rewrite H. split.
      * intros Hr. by apply (rtc_l _ _ dom).
      * intros Hr. inversion Hr as [|? y ? Hs Hr']; subst; [done|].
        unfold idom_step in Hs. rewrite Hc in Hs. by injection Hs as <-.
  - injection H as <-. split; [done|]. intros Hr.
    inversion Hr as [|? y ? Hs _]; subst; [done|]. unfold idom_step in Hs. congruence.
Qed.

(** [IsDominated] stops no later than [DominatorPath]. *)
Lemma IsDominated_loop_returns fuel idom d : ∀ cur path res,
  DominatorPath_loop fuel idom cur path = Ok res →
  ∃ b, IsDominated_loop fuel idom cur d = Ok b.
Proof.
  induction fuel as [|fuel IH]; intros cur path res H; [done|]. simpl in *.
  destruct (idom !! cur) as [dom|]; [|by eexists].
  destruct (dom =? d); [by eexists|]. destruct (dom =? 0); [by eexists|]. by eapply IH.
Qed.

(** X3. On a map of immediate dominators without an entry for 0 (as
    [Dominators] returns it), wherever [DominatorPath] returns a path for
    [node], [IsDominated] returns with the same fuel, and it answers true
    exactly when [dominator] is reached from [node] by following immediate
    dominators zero or more times. For a dominator other than 0 that is
    membership in the path of [DominatorPath]; the super-root, which closes
    every such path, dominates only the nodes whose chain arrives at it. *)
Theorem IsDominated_decides_idom_chain (idom : gmap Z Z) (node dominator : Z)
    (fuel : nat) (path : list Z) :
  idom !! 0 = None →
  DominatorPath fuel idom node = Ok path →
  ∃ b, IsDominated fuel idom node dominator = Ok b ∧
       (b = true ↔ rtc (idom_step idom) node dominator) ∧
       (dominator ≠ 0 → (b = true ↔ dominator ∈ path)).
Proof.
  intros H0 Hp. unfold IsDominated. unfold DominatorPath in Hp.
  pose proof (DominatorPath_loop_spec _ _ _ _ _ Hp) as (chain & Hpath & _ & _ & _ & _ & Hmem).
  simpl in Hpath. subst chain. specialize (Hmem H0).
  destruct (node =? dominator) eqn:E.
  - apply Z.eqb_eq in E as ->. exists true. split; [done|]. split.
    + split; [constructor | done].
    + intros _. split; [|done]. intros _. apply Hmem. right. constructor.
  - apply Z.eqb_neq in E.
    destruct (IsDominated_loop_returns fuel idom dominator _ _ _ Hp) as [b Hb].
    exists b. split; [done|].
    pose proof (IsDominated_loop_spec fuel idom dominator H0 _ _ Hb E) as Hs.
    split; [done|]. intros Hd. rewrite Hs, Hmem. split; [by right|]. intros [?|?]; [done|done].
Qed.

Lemma IsDominated_decides_idom_chain_witness :
  ∃ b, IsDominated 3 ({[1 := 0; 2 := 1]} : gmap Z Z) 2 1 = Ok b ∧
       (b = true ↔ rtc (idom_step {[1 := 0; 2 := 1]}) 2 1) ∧
       (1 ≠ 0 → (b = true ↔ 1 ∈ [2; 1; 0])).
Proof.
  apply (IsDominated_decides_idom_chain {[1 := 0; 2 := 1]} 2 1 3 [2; 1; 0]).
  - reflexivity.
  - vm_compute. reflexivity.
Defined.

End DominatorPath_facts.

Lemma foldM_Ok_inv {A B} (f : B → A → outcome B) l : ∀ b b',
  foldM f b l = Ok b' → ∀ a, a ∈ l → ∃ b1 b2, f b1 a = Ok b2.
Proof.
  induction l as [|x l IH]; intros b b' H a Ha; [by apply elem_of_nil in Ha|].
  simpl in H. destruct (f b x) as [b1| | |] eqn:E; try done. simpl in H.
  apply elem_of_cons in Ha as [-> | Ha]; [by eauto | by eapply IH].
Qed.

Lemma foldM_inv {A B} (P : B → Prop) (f : B → A → outcome B) l : ∀ b b',
  (∀ a b b', a ∈ l → P b → f b a = Ok b' → P b') →
  P b → foldM f b l = Ok b' → P b'.
Proof.
  induction l as [|x l IH]; intros b b' Hf Hb H; simpl in H.
  - by injection H as <-.
  - destruct (f b x) as [b1| | |] eqn:E; try done. simpl in H.
    apply (IH b1 b'); auto.
    + intros a c c' Ha. apply Hf. by right.
    + apply (Hf x b b1); auto. by left.
Qed.

Section DominatorDepth_facts.

Import graph.

Variable tree : gmap Z (list Z).

Lemma tree_reach_snoc k : ∀ a b c,
  tree_reach tree k a b → c ∈ sget tree b → tree_reach tree (S k) a c.
Proof.
  induction k as [|k IH]; intros a b c H Hc; simpl in *.
  - subst. by exists c.
  - destruct H as (x & Hx & H). exists x. split; [done|]. by apply (IH x b c).
Qed.

(** Every depth recorded is the length of a descent from the super-root. *)
Lemma computeDepth_sound fuel : ∀ node d depth depth',
  computeDepth fuel tree node d depth = Ok depth' →
  0 ≤ d → tree_reach tree (Z.to_nat d) 0 node →
  (∀ n e, depth !! n = Some e → 0 ≤ e ∧ tree_reach tree (Z.to_nat e) 0 n) →
  ∀ n e, depth' !! n = Some e → 0 ≤ e ∧ tree_reach tree (Z.to_nat e) 0 n.
Proof.
  induction fuel as [|fuel IH]; intros node d depth depth' H Hd Hr Hs; [done|].
  simpl in H. revert H.
  apply (foldM_inv (fun m : gmap Z Z =>
           ∀ n e, m !! n = Some e → 0 ≤ e ∧ tree_reach tree (Z.to_nat e) 0 n)).
  - intros c b b' Hc Hb H. apply (IH c (d + 1) b b' H); [lia | | done].
    replace (Z.to_nat (d + 1)) with (S (Z.to_nat d)) by lia. by apply (tree_reach_snoc _ _ node).
  - intros n e. destruct (decide (node = n)) as [<-|Hne].
    + rewrite lookup_insert_eq. intros [= <-]. done.
    + rewrite lookup_insert_ne by done. apply Hs.
Qed.

(** Everything below a visited node is given a depth. *)
Lemma computeDepth_complete fuel : ∀ node d depth depth',
  computeDepth fuel tree node d depth = Ok depth' →
  (∀ n, is_Some (depth !! n) → is_Some (depth' !! n)) ∧
  (∀ k n, tree_reach tree k node n → is_Some (depth' !! n)).
Proof.
  induction fuel as [|fuel IH]; intros node d depth depth' H; [done|].
  simpl in H.
  assert (∀ l b b',
    foldM (λ depth child, computeDepth fuel tree child (d + 1) depth) b l = Ok b' →
    (∀ n, is_Some (b !! n) → is_Some (b' !! n)) ∧
    (∀ c k n, c ∈ l → tree_reach tree k c n → is_Some (b' !! n))) as Hfold.
  { induction l as [|x l IHl]; intros b b' Hb; simpl in Hb.
    - injection Hb as <-. split; [done|]. intros c k n Hc. by apply elem_of_nil in Hc.
    - destruct (computeDepth fuel tree x (d + 1) b) as [b1| | |] eqn:E; try done. simpl in Hb.
      apply IH in E as [E1 E2]. apply IHl in Hb as [Hb1 Hb2]. split; [by auto|].
      intros c k n Hc Hr. apply elem_of_cons in Hc as [-> | Hc]; [|by eapply Hb2].
      apply Hb1. by eapply E2. }
  apply Hfold in H as [H1 H2]. split.
  - intros n [v Hn]. apply H1. destruct (decide (node = n)) as [<-|Hne].
    + rewrite lookup_insert_eq. by eexists.
    + rewrite lookup_insert_ne by done. by eexists.
  - intros [|k] n Hr; simpl in Hr.
    + subst n. apply H1. rewrite lookup_insert_eq. by eexists.
    + destruct Hr as (c & Hc & Hr). by eapply H2.
Qed.

(** A call that returns has gone no deeper than its fuel. *)
Lemma computeDepth_bounded fuel : ∀ node d depth depth',
  computeDepth fuel tree node d depth = Ok depth' →
  ∀ k n, tree_reach tree k node n → (k < fuel)%nat.
Proof.
  induction fuel as [|fuel IH]; intros node d depth depth' H k n Hr; [done|].
  simpl in H. destruct k as [|k]; [lia|]. simpl in Hr. destruct Hr as (c & Hc & Hr).
  destruct (foldM_Ok_inv _ _ _ _ H c Hc) as (b1 & b2 & Hb).
  apply (IH _ _ _ _ Hb) in Hr. lia.
Qed.

Lemma computeDepth_returns fuel : ∀ node (N : nat),
  (∀ k n, tree_reach tree k node n → (k ≤ N)%nat) → (N < fuel)%nat →
  ∀ d depth, ∃ depth', computeDepth fuel tree node d depth = Ok depth'.
Proof.
  induction fuel as [|fuel IH]; intros node N Hb Hlt d depth; [lia|]. simpl.
  assert (∀ c, c ∈ sget tree node →
            ∀ e b, ∃ b', computeDepth fuel tree c e b = Ok b') as Hc.
  { intros c Hc e b. destruct N as [|N].
    - specialize (Hb 1%nat c). simpl in Hb. assert (1 ≤ 0)%nat; [|lia]. apply Hb. by exists c.
    - apply (IH c N); [|lia]. intros k n Hr. specialize (Hb (S k) n). simpl in Hb.
      assert (S k ≤ S N)%nat; [|lia]. apply Hb. by exists c. }
  generalize (<[node:=d]> depth). revert Hc. generalize (sget tree node).
  induction l as [|x l IHl]; intros Hc b; simpl; [by eexists|].
  destruct (Hc x (ltac:(by left)) (d + 1) b) as [b' ->]. simpl. apply IHl.
  intros c Hin. apply Hc. by right.
Qed.

End DominatorDepth_facts.

Lemma idom_steps_unique idom : idom !! 0 = None → ∀ k k' n,
  idom_steps idom k n 0 → idom_steps idom k' n 0 → k = k'.
Proof.
  intros H0. induction k as [|k IH]; intros k' n H H'; simpl in *.
  - subst. destruct k'; [done|]. simpl in H'. destruct H' as (y & Hy & _). congruence.
  - destruct H as (y & Hy & H). destruct k' as [|k']; simpl in H'.
    + subst. congruence.
    + destruct H' as (y' & Hy' & H'). rewrite Hy in Hy'. injection Hy' as <-.
      f_equal. by apply (IH k' y).
Qed.

Lemma idom_steps_snoc idom k : ∀ a b c,
  idom_steps idom k c b → idom !! b = Some a → idom_steps idom (S k) c a.
Proof.
  induction k as [|k IH]; intros a b c H Hb; simpl in *.
  - subst. by exists a.
  - destruct H as (y & Hy & H). exists y. split; [done|]. by apply (IH a b y).
Qed.

Lemma tree_reach_idom_steps idom tree :
  (∀ p c, c ∈ sget tree p ↔ idom !! c = Some p) →
  ∀ k a b, tree_reach tree k a b ↔ idom_steps idom k b a.
Proof.
  intros Hinv. induction k as [|k IH]; intros a b; simpl.
  - split; by intros ->.
  - split.
    + intros (c & Hc & Hr). apply Hinv in Hc. apply IH in Hr.
      by apply (idom_steps_snoc idom k a c b).
    + intros (y & Hy & H). apply IH in H. apply (tree_reach_snoc tree k a y b H). by apply Hinv.
Qed.

(** X4. [DominatorDepth] on the tree that [DominatorTree] builds from a map
    of immediate dominators without an entry for 0: it returns exactly when
    the chains of immediate dominators that arrive at the super-root have a
    bounded length, and then it gives a node the depth [d] exactly when [d]
    steps up the immediate dominators lead from the node to the super-root;
    a node the super-root does not dominate has no depth. *)
Theorem DominatorDepth_counts_idom_steps (idom : gmap Z Z) (visit1 visit2 : list (Z * Z)) :
  idom !! 0 = None →
  graph.range_order idom visit1 → graph.range_order idom visit2 →
  ((∃ fuel depth,
      graph.DominatorDepth fuel (graph.DominatorTree idom visit1 visit2) = Ok depth) ↔
   (∃ N : nat, ∀ k n, idom_steps idom k n 0 → (k ≤ N)%nat)) ∧
  (∀ fuel depth,
     graph.DominatorDepth fuel (graph.DominatorTree idom visit1 visit2) = Ok depth →
     ∀ n d, depth !! n = Some d ↔ 0 ≤ d ∧ idom_steps idom (Z.to_nat d) n 0).
Proof.
  intros H0 H1 H2.
  pose proof (tree_reach_idom_steps idom (graph.DominatorTree idom visit1 visit2)
                (fun p c => DominatorTree_children idom visit1 visit2 p c H2)) as Hreach.
  unfold graph.DominatorDepth. split; [split|].
  - intros (fuel & depth & H). exists fuel. intros k n Hk. apply Hreach in Hk.
    pose proof (computeDepth_bounded _ _ _ _ _ _ H k n Hk). lia.
  - intros (N & HN). exists (S N).
    apply (computeDepth_returns _ (S N) 0 N); [|lia].
    intros k n Hk. apply (HN k n). by apply Hreach.
  - intros fuel depth H n d.
    assert (∀ n e, depth !! n = Some e →
              0 ≤ e ∧ tree_reach (graph.DominatorTree idom visit1 visit2) (Z.to_nat e) 0 n)
      as Hsound.
    { apply (computeDepth_sound _ _ _ _ _ _ H); [lia | done | ].
      intros m e Hm. by rewrite lookup_empty in Hm. }
    split.
    + intros Hn. apply Hsound in Hn as [Hd Hr]. split; [done|]. by apply Hreach.
    + intros [Hd Hs]. apply Hreach in Hs.
      destruct (computeDepth_complete _ _ _ _ _ _ H) as [_ Hc].
      destruct (Hc _ _ Hs) as [d' Hd']. rewrite Hd'. f_equal.
      apply Hsound in Hd' as [Hd0 Hr']. apply Hreach in Hr'. apply Hreach in Hs.
      pose proof (idom_steps_unique idom H0 (Z.to_nat d') (Z.to_nat d) n Hr' Hs). lia.
Qed.

Lemma DominatorDepth_counts_idom_steps_witness :
  ({[0 := 0; 1 := 1; 2 := 2]} : gmap Z Z) !! 2 = Some 2 ↔
  0 ≤ 2 ∧ idom_steps {[1 := 0; 2 := 1]} (Z.to_nat 2) 2 0.
Proof.
  destruct (DominatorDepth_counts_idom_steps {[1 := 0; 2 := 1]}
              (map_to_list ({[1 := 0; 2 := 1]} : gmap Z Z))
              (map_to_list ({[1 := 0; 2 := 1]} : gmap Z Z))) as [_ H].
  - vm_compute. reflexivity.
  - unfold graph.range_order. reflexivity.
  - unfold graph.range_order. reflexivity.
  - apply (H 3%nat). vm_compute. reflexivity.
Defined.

(** ** Retained sizes (retained.go) *)

Lemma wrap64_idem z : wrap64 (wrap64 z) = wrap64 z.
Proof. unfold wrap64. by rewrite Z.mod_mod. Qed.

Lemma wrap64_add_l a b : wrap64 (wrap64 a + b) = wrap64 (a + b).
Proof. unfold wrap64. by rewrite Zplus_mod_idemp_l. Qed.

Lemma retained_sum_wrap rs : ∀ own,
  wrap64 (retained_sum own rs) = wrap64 (own + Zsum rs).
Proof.
  unfold retained_sum. induction rs as [|r rs IH]; intros own; simpl.
  - by rewrite Z.add_0_r.
  - rewrite IH. rewrite wrap64_add_l. f_equal. lia.
Qed.

Lemma retained_sum_Zsum own rs :
  0 ≤ own < 2 ^ 64 → retained_sum own rs = wrap64 (own + Zsum rs).
Proof.
  intros Hown. rewrite <- retained_sum_wrap. destruct rs as [|r rs]; simpl.
  - unfold retained_sum, wrap64. simpl. by rewrite Z.mod_small.
  - assert (∀ l a, retained_sum (wrap64 a) l = wrap64 (retained_sum (wrap64 a) l)) as H.
    { unfold retained_sum. induction l as [|x l IHl] using rev_ind; intros a; simpl.
      - by rewrite wrap64_idem.
      - rewrite foldl_app. simpl. by rewrite wrap64_idem. }
    unfold retained_sum at 1 2. simpl. apply H.
Qed.

Section Retained_facts.

Import graph.

Variable objSizes : gmap Z Z.
Variable tree : gmap Z (list Z).
Variable rank : Z → nat.
Hypothesis rank_tree : ∀ p c, c ∈ sget tree p → (rank c < rank p)%nat.

Local Abbreviation consistent := (memo_consistent objSizes tree).

Lemma Forall2_lookup_mono (m m' : gmap Z Z) l rs :
  m ⊆ m' → Forall2 (fun c r => m !! c = Some r) l rs →
  Forall2 (fun c r => m' !! c = Some r) l rs.
Proof.
  intros Hsub H. eapply Forall2_impl; [exact H|]. intros c r Hc. simpl in *.
  by eapply lookup_weaken.
Qed.

(** One call of [computeRetained] on a tree without cycles: the table grows,
    stays consistent, holds the value returned, and gains only the node and
    nodes below it. *)
Lemma computeRetained_spec fuel : ∀ node m s m',
  consistent m →
  computeRetained fuel objSizes tree node m = Ok (s, m') →
  m ⊆ m' ∧ consistent m' ∧ m' !! node = Some s ∧
  (∀ k, is_Some (m' !! k) →
     is_Some (m !! k) ∨ ((rank k ≤ rank node)%nat ∧ (k = node ∨ ∃ p, k ∈ sget tree p))).
Proof.
  induction fuel as [|fuel IH]; intros node m s m' Hm H; [done|]. simpl in H.
  destruct (m !! node) as [s0|] eqn:Hn.
  { injection H as <- <-. split; [done|]. split; [done|]. split; [done|]. auto. }
  assert (∀ l size m0 size1 m1,
    consistent m0 → (∀ c, c ∈ l → c ∈ sget tree node) →
    foldM (λ '(size, retained) child,
             '(r, retained) ← computeRetained fuel objSizes tree child retained;
             Ok (wrap64 (size + r), retained)) (size, m0) l = Ok (size1, m1) →
    m0 ⊆ m1 ∧ consistent m1 ∧
    (∃ rs, Forall2 (fun c r => m1 !! c = Some r) l rs ∧ size1 = retained_sum size rs) ∧
    (∀ k, is_Some (m1 !! k) →
       is_Some (m0 !! k) ∨ ((rank k < rank node)%nat ∧ ∃ p, k ∈ sget tree p))) as Hfold.
  { induction l as [|c l IHl]; intros size m0 size1 m1 Hm0 Hr Hf; simpl in Hf.
    - injection Hf as <- <-. split; [done|]. split; [done|]. split; [|auto].
      exists []. split; [constructor | done].
    - destruct (computeRetained fuel objSizes tree c m0) as [[r m2]| | |] eqn:Ec; try done.
      simpl in Hf. apply IH in Ec as (Hs2 & Hc2 & Hl2 & Hk2); [|done].
      apply IHl in Hf as (Hs1 & Hc1 & (rs & Hrs & ->) & Hk1); [|done|].
      2:{ intros c' Hc'. apply Hr. by right. }
      split; [by etrans|]. split; [done|]. split.
      + exists (r :: rs). split; [|done]. constructor; [|done]. by eapply lookup_weaken.
      + intros k Hk. apply Hk1 in Hk as [Hk|Hk]; [|by right].
        apply Hk2 in Hk as [Hk|[Hk Hk']]; [by left|]. right.
        assert (c ∈ sget tree node) as Hc by (apply Hr; by left).
        pose proof (rank_tree _ _ Hc). split; [lia|].
        destruct Hk' as [-> | Hk']; [by exists node | done]. }
  destruct (foldM _ _ _) as [[size1 m1]| | |] eqn:Ef; try done. simpl in H.
  injection H as <- <-.
  apply Hfold in Ef as (Hs1 & Hc1 & (rs & Hrs & ->) & Hk1); [|done|auto].
  assert (m1 !! node = None) as Hnone.
  { destruct (m1 !! node) eqn:E; [|done].
    destruct (Hk1 node) as [[? ?]|[? _]]; [by eexists|congruence|lia]. }
  assert (m1 ⊆ <[node := retained_sum (zget objSizes node) rs]> m1) as Hsub
    by (by apply insert_subseteq).
  split; [by etrans|]. split; [|split].
  - intros n s Hs. destruct (decide (node = n)) as [<-|Hne].
    + rewrite lookup_insert_eq in Hs. injection Hs as <-. exists rs. split; [|done].
      by eapply Forall2_lookup_mono.
    + rewrite lookup_insert_ne in Hs by done. apply Hc1 in Hs as (rs' & Hrs' & ->).
      exists rs'. split; [|done]. by eapply Forall2_lookup_mono.
  - by rewrite lookup_insert_eq.
  - intros k Hk. destruct (decide (node = k)) as [<-|Hne]; [right; split; [lia | by left]|].
    rewrite lookup_insert_ne in Hk by done.
    apply Hk1 in Hk as [Hk|[Hk Hk']]; [by left | right; split; [lia | by right]].
Qed.

Lemma computeRetained_returns fuel : ∀ node m,
  (rank node < fuel)%nat → ∃ s m', computeRetained fuel objSizes tree node m = Ok (s, m').
Proof.
  induction fuel as [|fuel IH]; intros node m Hlt; [lia|]. simpl.
  destruct (m !! node); [by eauto|].
  assert (∀ l size m0, (∀ c, c ∈ l → (rank c < rank node)%nat) →
    ∃ size1 m1,
    foldM (λ '(size, retained) child,
             '(r, retained) ← computeRetained fuel objSizes tree child retained;
             Ok (wrap64 (size + r), retained)) (size, m0) l = Ok (size1, m1)) as Hfold.
  { induction l as [|c l IHl]; intros size m0 Hr; simpl; [by eauto|].
    destruct (IH c m0) as (r & m2 & ->).
    { assert (rank c < rank node)%nat by (apply Hr; by left). lia. }
    simpl. apply IHl. intros c' Hc'. apply Hr. by right. }
  destruct (Hfold (sget tree node) (zget objSizes node) m) as (size1 & m1 & ->).
  { intros c Hc. by apply rank_tree. }
  simpl. eauto.
Qed.

(** Two consistent tables agree wherever both have an entry. *)
Lemma consistent_agree (m1 m2 : gmap Z Z) :
  consistent m1 → consistent m2 →
  ∀ n s1 s2, m1 !! n = Some s1 → m2 !! n = Some s2 → s1 = s2.
Proof.
  intros H1 H2.
  assert (∀ N n, (rank n < N)%nat → ∀ s1 s2, m1 !! n = Some s1 → m2 !! n = Some s2 → s1 = s2)
    as Hgen.
  { induction N as [|N IH]; intros n Hlt s1 s2 Hs1 Hs2; [lia|].
    apply H1 in Hs1 as (rs1 & Hrs1 & ->). apply H2 in Hs2 as (rs2 & Hrs2 & ->).
    f_equal. assert (∀ c, c ∈ sget tree n → (rank c < N)%nat) as Hr.
    { intros c Hc. apply rank_tree in Hc. lia. }
    revert rs1 rs2 Hrs1 Hrs2 Hr. generalize (sget tree n).
    induction l as [|c l IHl]; intros rs1 rs2 Hrs1 Hrs2 Hr.
    - apply Forall2_nil_inv_l in Hrs1 as ->. by apply Forall2_nil_inv_l in Hrs2 as ->.
    - apply Forall2_cons_inv_l in Hrs1 as (r1 & rs1' & Hr1 & Hrs1 & ->).
      apply Forall2_cons_inv_l in Hrs2 as (r2 & rs2' & Hr2 & Hrs2 & ->).
      f_equal.
      + apply (IH c); [apply Hr; by left | done | done].
      + apply IHl; [done | done |]. intros c' Hc'. apply Hr. by right. }
  intros n. by apply (Hgen (S (rank n))); lia.
Qed.

Variable fuel : nat.
Hypothesis rank_fuel : ∀ n, (rank n < fuel)%nat.
Variable K : Z → Prop.
Hypothesis K_child : ∀ p c, c ∈ sget tree p → K c.

(** The loop [for nodeID := range tree] of [RetainedSize]. *)
Lemma retained_outer (l : list (Z * list Z)) : ∀ m,
  consistent m → (∀ k, is_Some (m !! k) → K k) →
  (∀ x, x ∈ l → K x.1) →
  ∃ m', foldM (fun retained '(nodeID, _) =>
                 '(_, retained) ← computeRetained fuel objSizes tree nodeID retained;
                 Ok retained) m l = Ok m' ∧
        consistent m' ∧ m ⊆ m' ∧
        (∀ x, x ∈ l → is_Some (m' !! x.1)) ∧ (∀ k, is_Some (m' !! k) → K k).
Proof.
  induction l as [|[n cs] l IH]; intros m Hm Hk Hl; simpl.
  - exists m. repeat split; auto. intros x Hx. by apply elem_of_nil in Hx.
  - destruct (computeRetained_returns fuel n m (rank_fuel n)) as (s & m1 & E).
    rewrite E. simpl.
    apply computeRetained_spec in E as (Hs1 & Hc1 & Hn1 & Hk1); [|done].
    destruct (IH m1) as (m' & -> & Hc' & Hs' & Hl' & Hk'); auto.
    + intros k Hin. apply Hk1 in Hin as [Hin|[_ [-> | [p Hp]]]]; auto.
      * apply (Hl (n, cs)). by left.
      * by apply (K_child p).
    + intros x Hx. apply Hl. by right.
    + exists m'. repeat split; auto.
      * by etrans.
      * intros x Hx. apply elem_of_cons in Hx as [-> | Hx]; [|by apply Hl'].
        simpl. eapply lookup_weaken_is_Some; [|exact Hs']. by eexists.
Qed.

(** The loop over [targetIDs] of [RetainedSizeSubsets]. *)
Lemma subsets_fold : ∀ (l : list Z) (result computed : gmap Z Z),
  consistent computed →
  (∀ t s, result !! t = Some s → computed !! t = Some s) →
  ∃ result' computed',
    foldM (fun '(result, computed) targetID =>
             match objSizes !! targetID with
             | Some _ =>
               if negb (targetID =? 0) then
                 '(size, computed) ←
                   computeRetained fuel objSizes tree targetID computed;
                 Ok (<[targetID := size]> result, computed)
               else Ok (result, computed)
             | None => Ok (result, computed)
             end) (result, computed) l = Ok (result', computed') ∧
    consistent computed' ∧
    (∀ t s, result' !! t = Some s → computed' !! t = Some s) ∧
    (∀ t, is_Some (result' !! t) ↔
          is_Some (result !! t) ∨ (t ∈ l ∧ t ≠ 0 ∧ is_Some (objSizes !! t))).
Proof.
  induction l as [|x l IH]; intros result computed Hc Hr; simpl.
  - exists result, computed. repeat split; auto.
    intros [?|[Hin _]]; [done|]. by apply elem_of_nil in Hin.
  - match goal with |- context [foldM ?f _ l] => set (G := f) in * end.
    assert (∀ result1 computed1 : gmap Z Z,
      consistent computed1 →
      (∀ t s, result1 !! t = Some s → computed1 !! t = Some s) →
      (∀ t, is_Some (result1 !! t) ↔
            is_Some (result !! t) ∨ (t = x ∧ t ≠ 0 ∧ is_Some (objSizes !! t))) →
      ∃ result' computed',
        foldM G (result1, computed1) l = Ok (result', computed') ∧
        consistent computed' ∧
        (∀ t s, result' !! t = Some s → computed' !! t = Some s) ∧
        (∀ t, is_Some (result' !! t) ↔
              is_Some (result !! t) ∨ (t ∈ x :: l ∧ t ≠ 0 ∧ is_Some (objSizes !! t))))
      as Hnext.
    { intros result1 computed1 Hc1 Hr1 Hk1.
      destruct (IH result1 computed1 Hc1 Hr1) as (result' & computed' & -> & Hc' & Hr' & Hk').
      exists result', computed'. repeat split; auto.
      - intros Ht. apply Hk' in Ht as [Ht|(Hin & ? & ?)].
        + apply Hk1 in Ht as [?|(-> & ? & ?)]; [by left|]. right. split; [by left | done].
        + right. split; [by right | done].
      - intros [Ht|(Hin & Ht0 & Hts)]; apply Hk'.
        + left. apply Hk1. by left.
        + apply elem_of_cons in Hin as [-> | Hin]; [|by right]. left. apply Hk1. by right. }
    destruct (objSizes !! x) as [sz|] eqn:Hx.
    2:{ apply Hnext; auto. intros t. split; [by left|].
        intros [?|(-> & _ & [? ?])]; [done | congruence]. }
    destruct (x =? 0) eqn:E; simpl.
    { apply Z.eqb_eq in E as ->. apply Hnext; auto. intros t. split; [by left|].
      intros [?|(-> & ? & _)]; done. }
    apply Z.eqb_neq in E.
    destruct (computeRetained_returns fuel x computed (rank_fuel x)) as (s & m1 & Ec).
    rewrite Ec. simpl.
    apply computeRetained_spec in Ec as (Hs1 & Hc1 & Hn1 & _); [|done].
    apply Hnext; auto.
    + intros t s'. destruct (decide (x = t)) as [<-|Hne].
      * rewrite lookup_insert_eq. by intros [= <-].
      * rewrite lookup_insert_ne by done. intros Ht. eapply lookup_weaken; [|exact Hs1]. auto.
    + intros t. destruct (decide (x = t)) as [<-|Hne].
      * rewrite lookup_insert_eq. split; [|by eexists]. intros _. right. by rewrite Hx.
      * rewrite lookup_insert_ne by done. split; [by left|]. intros [?|(-> & _)]; done.
Qed.

End Retained_facts.

Lemma objSizes_lookup g visit n :
  keyed_by_ID g → graph.ForEachObject_order g visit →
  graph.ForEachObject visit
    (fun objSizes obj => <[graph.ID obj := graph.Size obj]> objSizes) (∅ : gmap Z Z) !! n
  = graph.Size <$> graph.GetObject g n.
Proof.
  intros Hk Hv. unfold graph.ForEachObject, graph.GetObject.
  assert (NoDup (graph.ID <$> visit)) as Hnd.
  { unfold graph.ForEachObject_order in Hv. rewrite Hv.
    assert (graph.ID <$> (map_to_list (graph.objects g)).*2
            = (map_to_list (graph.objects g)).*1) as ->.
    { rewrite <- list_fmap_compose. apply list_fmap_ext. intros i [k o] Hi. simpl.
      apply list_elem_of_lookup_2 in Hi. apply elem_of_map_to_list in Hi. by apply Hk. }
    apply NoDup_fst_map_to_list. }
  assert (∀ l (acc : gmap Z Z), NoDup (graph.ID <$> l) →
    foldl (fun objSizes obj => <[graph.ID obj := graph.Size obj]> objSizes) acc l !! n
    = match list_find (fun o => graph.ID o = n) l with
      | Some (_, o) => Some (graph.Size o)
      | None => acc !! n
      end) as Hgen.
  { induction l as [|o l IH]; intros acc Hl; simpl; [done|].
    apply NoDup_cons in Hl as [Ho Hl]. rewrite IH by done.
    destruct (decide (graph.ID o = n)) as [<-|Hne].
    - destruct (list_find _ l) as [[i o']|] eqn:E; simpl.
      + apply list_find_Some in E as (Hi & Heq & _). exfalso. apply Ho.
        apply list_elem_of_fmap. exists o'. split; [done|]. by eapply list_elem_of_lookup_2.
      + by rewrite lookup_insert_eq.
    - destruct (list_find _ l) as [[i o']|] eqn:E; simpl; [done|].
      by rewrite lookup_insert_ne. }
  rewrite Hgen by done. rewrite lookup_empty.
  destruct (list_find _ visit) as [[i o]|] eqn:E.
  - apply list_find_Some in E as (Hi & Heq & _). apply list_elem_of_lookup_2 in Hi.
    pose proof (visit_lookup g visit o Hk Hv Hi) as Ho. unfold graph.GetObject in Ho.
    rewrite Heq in Ho. by rewrite Ho.
  - destruct (graph.objects g !! n) as [o|] eqn:Ho; [|done]. exfalso.
    apply list_find_None in E. rewrite Forall_forall in E. apply (E o).
    + unfold graph.ForEachObject_order in Hv. rewrite Hv. apply list_elem_of_fmap.
      exists (n, o). split; [done|]. by apply elem_of_map_to_list.
    + by apply Hk.
Qed.

Section RetainedSize_facts.

Import graph.

Variables (fuel : nat) (g : MemGraph) (sch : schedule) (idom : gmap Z Z) (rank : Z → nat).
Hypothesis Hkey : keyed_by_ID g.
Hypothesis Hsch : schedule_ok fuel g sch.
Hypothesis Hdom : Dominators fuel g (visitDominators sch) = Ok idom.
Hypothesis Hrank : ∀ c p, idom !! c = Some p → (rank c < rank p)%nat.
Hypothesis Hfuel : ∀ n, (rank n < fuel)%nat.

Local Abbreviation tree := (DominatorTree idom (visitIdom1 sch) (visitIdom2 sch)).
Local Abbreviation objSizes :=
  (<[0:=0]> (ForEachObject (visitSizes sch)
               (λ objSizes obj, <[ID obj:=Size obj]> objSizes) (∅ : gmap Z Z))).

Lemma tree_children p c : c ∈ sget tree p ↔ idom !! c = Some p.
Proof.
  destruct Hsch as (_ & _ & Hs). destruct (Hs idom Hdom) as (H1 & H2 & _).
  by apply DominatorTree_children.
Qed.

Lemma tree_keys k :
  is_Some (tree !! k) ↔ k = 0 ∨ is_Some (idom !! k) ∨ ∃ c, idom !! c = Some k.
Proof.
  destruct Hsch as (_ & _ & Hs). destruct (Hs idom Hdom) as (H1 & H2 & _).
  by apply DominatorTree_keys.
Qed.

Lemma tree_rank p c : c ∈ sget tree p → (rank c < rank p)%nat.
Proof. intros Hc. apply Hrank. by apply tree_children. Qed.

Lemma objSizes_own n : n ≠ 0 → objSizes !! n = Size <$> GetObject g n.
Proof.
  intros Hn. rewrite lookup_insert_ne by done. destruct Hsch as (_ & Hvs & _).
  by apply objSizes_lookup.
Qed.

(** The memo table [RetainedSize] ends with, before the entry of the
    super-root is deleted. *)
Lemma RetainedSize_memo :
  ∃ m, RetainedSize fuel g sch = Ok (delete 0 m) ∧
       memo_consistent objSizes tree m ∧
       (∀ n, is_Some (m !! n) ↔ is_Some (tree !! n)).
Proof.
  destruct Hsch as (Hvd & Hvs & Hs). destruct (Hs idom Hdom) as (H1 & H2 & Ht).
  unfold RetainedSize. rewrite Hdom. unfold mbind at 1, outcome_bind at 1.
  destruct (retained_outer objSizes tree rank tree_rank fuel Hfuel (fun k => is_Some (tree !! k))
              ltac:(intros p c Hc; apply tree_keys; right; left; apply tree_children in Hc;
                    by eexists)
              (visitTree sch) ∅) as (m & Hm & Hcons & _ & Hall & Hk).
  { intros n s Hn. by rewrite lookup_empty in Hn. }
  { intros k [? Hn]. by rewrite lookup_empty in Hn. }
  { intros [n cs] Hx. simpl. unfold range_order in Ht. rewrite Ht in Hx.
    apply elem_of_map_to_list in Hx. by eexists. }
  exists m. split; [|split; [done|]].
  - cbv zeta. rewrite Hm. done.
  - intros n. split; [apply Hk|]. intros [cs Hcs].
    apply (Hall (n, cs)). unfold range_order in Ht. rewrite Ht. by apply elem_of_map_to_list.
Qed.

End RetainedSize_facts.

(** X5. [RetainedSize] on a graph that stores every object under its id,
    with sizes in the [uint64] range, when the map [idom] that [Dominators]
    returns has no cycle ([rank] falls along it, and the fuel covers it):
    whatever orders the runtime picks, it returns a map whose keys are the
    nodes other than 0 that have or are an immediate dominator, and whose
    value at a node is the node's own size plus the values at the nodes it
    immediately dominates, modulo 2^64. *)
Theorem RetainedSize_recurrence (fuel : nat) (g : graph.MemGraph) (sch : graph.schedule)
    (idom : gmap Z Z) (rank : Z → nat) :
  keyed_by_ID g → sizes_in_range g → graph.schedule_ok fuel g sch →
  graph.Dominators fuel g (graph.visitDominators sch) = Ok idom →
  (∀ c p, idom !! c = Some p → (rank c < rank p)%nat) →
  (∀ n, (rank n < fuel)%nat) →
  ∃ retained, graph.RetainedSize fuel g sch = Ok retained ∧
    (∀ n, is_Some (retained !! n) ↔
          n ≠ 0 ∧ (is_Some (idom !! n) ∨ ∃ c, idom !! c = Some n)) ∧
    (∀ n s, retained !! n = Some s →
       ∃ rs, Forall2 (fun c r => retained !! c = Some r)
                     (sget (graph.DominatorTree idom (graph.visitIdom1 sch)
                              (graph.visitIdom2 sch)) n) rs ∧
             s = wrap64 (own_size g n + Zsum rs)).
Proof.
  intros Hkey Hrange Hsch Hdom Hrank Hfuel.
  pose proof (Dominators_omits_zero _ _ _ _ Hdom) as H0.
  destruct (RetainedSize_memo fuel g sch idom rank Hsch Hdom Hrank Hfuel)
    as (m & -> & Hcons & Hk).
  eexists. split; [done|]. split.
  - intros n. destruct (decide (n = 0)) as [->|Hne].
    + rewrite lookup_delete_eq. split; [by intros [? ?] | by intros [? _]].
    + rewrite lookup_delete_ne by done. rewrite Hk, (tree_keys fuel g sch idom Hsch Hdom).
      split; [intros [?|?]; done | intros [_ ?]; by right].
  - intros n s Hn. destruct (decide (n = 0)) as [->|Hne]; [by rewrite lookup_delete_eq in Hn|].
    rewrite lookup_delete_ne in Hn by done. apply Hcons in Hn as (rs & Hrs & ->).
    exists rs. split.
    + assert (∀ c, c ∈ sget (graph.DominatorTree idom (graph.visitIdom1 sch)
                               (graph.visitIdom2 sch)) n → c ≠ 0) as Hc0.
      { intros c Hc ->. apply (tree_children fuel g sch idom Hsch Hdom) in Hc. congruence. }
      revert Hc0 Hrs.
      generalize (sget (graph.DominatorTree idom (graph.visitIdom1 sch)
                          (graph.visitIdom2 sch)) n).
      intros l Hc0 Hrs.
      induction Hrs as [|c r l rs Hc Hrs IH]; constructor.
      * rewrite lookup_delete_ne; [done|]. intros <-. by apply (Hc0 0); [left|].
      * apply IH. intros c' Hc'. apply Hc0. by right.
    + assert (zget (<[0:=0]> (graph.ForEachObject (graph.visitSizes sch)
               (λ objSizes obj, <[graph.ID obj:=graph.Size obj]> objSizes) (∅ : gmap Z Z))) n
              = own_size g n) as ->.
      { unfold zget, own_size. by rewrite (objSizes_own fuel g sch Hkey Hsch). }
      apply retained_sum_Zsum. unfold own_size, graph.GetObject.
      destruct (graph.objects g !! n) as [o|] eqn:Ho; simpl; [by eapply Hrange | lia].
Qed.

(** X6. Under the same conditions [RetainedSizeSubsets] returns, with one
    entry for each target other than 0 that is an object of the graph and no
    other entry (none at all for an empty target list). Its value at a target
    is the value [RetainedSize] gives it with the same visiting orders; a
    target that [RetainedSize] leaves out, being out of reach of the roots,
    gets its own size. *)
Theorem RetainedSizeSubsets_agrees (fuel : nat) (g : graph.MemGraph) (sch : graph.schedule)
    (idom : gmap Z Z) (rank : Z → nat) (targetIDs : list Z) :
  keyed_by_ID g → graph.schedule_ok fuel g sch →
  graph.Dominators fuel g (graph.visitDominators sch) = Ok idom →
  (∀ c p, idom !! c = Some p → (rank c < rank p)%nat) →
  (∀ n, (rank n < fuel)%nat) →
  ∃ retained result,
    graph.RetainedSize fuel g sch = Ok retained ∧
    graph.RetainedSizeSubsets fuel g sch targetIDs = Ok result ∧
    (∀ t, is_Some (result !! t) ↔
          t ∈ targetIDs ∧ t ≠ 0 ∧ is_Some (graph.GetObject g t)) ∧
    (∀ t s, result !! t = Some s →
       match retained !! t with
       | Some s' => s = s'
       | None => s = own_size g t
       end).
Proof.
  intros Hkey Hsch Hdom Hrank Hfuel.
  destruct (RetainedSize_memo fuel g sch idom rank Hsch Hdom Hrank Hfuel)
    as (m & -> & Hcons & Hk).
  exists (delete 0 m). unfold graph.RetainedSizeSubsets.
  destruct targetIDs as [|t0 targets].
  { simpl. exists ∅. split; [done|]. split; [done|]. split.
    - intros t. rewrite lookup_empty. split; [by intros [? ?]|]. intros [Hin _].
      by apply elem_of_nil in Hin.
    - intros t s Ht. by rewrite lookup_empty in Ht. }
  assert ((Z.of_nat (length (t0 :: targets)) =? 0) = false) as -> by (simpl; lia).
  rewrite Hdom. unfold mbind at 1, outcome_bind at 1. cbv zeta.
  destruct (subsets_fold
              (<[0:=0]> (graph.ForEachObject (graph.visitSizes sch)
                 (λ objSizes obj, <[graph.ID obj:=graph.Size obj]> objSizes) (∅ : gmap Z Z)))
              (graph.DominatorTree idom (graph.visitIdom1 sch) (graph.visitIdom2 sch))
              rank (tree_rank fuel g sch idom rank Hsch Hdom Hrank) fuel Hfuel
              (t0 :: targets) ∅ ∅) as (result & computed & -> & Hc & Hr & Hkeys).
  { intros n s Hn. by rewrite lookup_empty in Hn. }
  { intros t s Ht. by rewrite lookup_empty in Ht. }
  simpl. exists result. split; [done|]. split; [done|]. split.
  - intros t. rewrite Hkeys. rewrite lookup_empty. split.
    + intros [[? ?]|(Hin & Ht & Hs)]; [done|]. repeat split; auto.
      rewrite (objSizes_own fuel g sch Hkey Hsch) in Hs by done.
      by apply fmap_is_Some in Hs.
    + intros (Hin & Ht & Hs). right. repeat split; auto.
      rewrite (objSizes_own fuel g sch Hkey Hsch) by done. by apply fmap_is_Some.
  - intros t s Ht. assert (t ≠ 0) as Ht0.
    { assert (is_Some (result !! t)) as Hs by (by eexists).
      apply Hkeys in Hs as [[? Hs]|(_ & ? & _)]; [by rewrite lookup_empty in Hs | done]. }
    rewrite lookup_delete_ne by done. apply Hr in Ht.
    destruct (m !! t) as [s'|] eqn:Hm.
    + by apply (consistent_agree _ _ rank (tree_rank fuel g sch idom rank Hsch Hdom Hrank)
                  computed m Hc Hcons t).
    + apply Hc in Ht as (rs & Hrs & ->).
      assert (sget (graph.DominatorTree idom (graph.visitIdom1 sch) (graph.visitIdom2 sch)) t
              = []) as Hnil.
      { destruct (graph.DominatorTree idom (graph.visitIdom1 sch) (graph.visitIdom2 sch) !! t)
          as [cs|] eqn:E.
        - assert (is_Some (m !! t)) as [? ?] by (apply Hk; by eexists). congruence.
        - unfold sget. by rewrite E. }
      rewrite Hnil in Hrs. apply Forall2_nil_inv_l in Hrs as ->.
      unfold retained_sum. simpl. unfold zget, own_size.
      by rewrite (objSizes_own fuel g sch Hkey Hsch).
Qed.

Lemma chain_keyed : keyed_by_ID fixtures.chain.
Proof. apply keyed_by_ID_roots. repeat apply keyed_by_ID_add. apply keyed_by_ID_new. Qed.

Lemma chain_sizes : sizes_in_range fixtures.chain.
Proof.
  intros k obj H. unfold fixtures.chain, graph.SetRoots, graph.AddObject in H. simpl in H.
  repeat (apply lookup_insert_Some in H as [[<- <-]|[? H]]; [simpl; lia|]).
  by rewrite lookup_empty in H.
Qed.

Lemma chain_schedule_ok : graph.schedule_ok 8 fixtures.chain fixtures.chain_schedule.
Proof.
  unfold graph.schedule_ok, graph.ForEachObject_order.
  split; [reflexivity|]. split; [reflexivity|].
  intros dominators Hdom. vm_compute in Hdom. injection Hdom as <-.
  unfold graph.range_order. repeat split; vm_compute; reflexivity.
Qed.

Lemma chain_rank c p :
  ({[1 := 0; 2 := 1; 3 := 2]} : gmap Z Z) !! c = Some p →
  (Z.to_nat (Z.max 0 (Z.min 4 (4 - c))) < Z.to_nat (Z.max 0 (Z.min 4 (4 - p))))%nat.
Proof.
  intros H. repeat (apply lookup_insert_Some in H as [[<- <-]|[? H]]; [simpl; lia|]).
  apply lookup_singleton_Some in H as [<- <-]. simpl. lia.
Qed.

Lemma RetainedSize_recurrence_witness :
  ∃ retained, graph.RetainedSize 8 fixtures.chain fixtures.chain_schedule = Ok retained.
Proof.
  destruct (RetainedSize_recurrence 8 fixtures.chain fixtures.chain_schedule
              {[1 := 0; 2 := 1; 3 := 2]} (fun n => Z.to_nat (Z.max 0 (Z.min 4 (4 - n)))))
    as (retained & H & _).
  - apply chain_keyed.
  - apply chain_sizes.
  - apply chain_schedule_ok.
  - vm_compute. reflexivity.
  - apply chain_rank.
  - intros n. lia.
  - by exists retained.
Defined.

Lemma RetainedSizeSubsets_agrees_witness :
  ∃ result,
    graph.RetainedSizeSubsets 8 fixtures.chain fixtures.chain_schedule [2; 7] = Ok result.
Proof.
  destruct (RetainedSizeSubsets_agrees 8 fixtures.chain fixtures.chain_schedule
              {[1 := 0; 2 := 1; 3 := 2]} (fun n => Z.to_nat (Z.max 0 (Z.min 4 (4 - n))))
              [2; 7])
    as (retained & result & _ & H & _).
  - apply chain_keyed.
  - apply chain_schedule_ok.
  - vm_compute. reflexivity.
  - apply chain_rank.
  - intros n. lia.
  - by exists result.
Defined.

(** ** Paths to roots (paths.go, reverse.go) *)

Section Paths_facts.

Import graph.

(** One run of the loop over the referrers of a dequeued node: what it adds
    to the result and to the queue, that it stops at [maxPaths] results, and
    that unless it stops there it handles every referrer not yet on the
    path. *)
Lemma visitReferrers_shape rootSet maxPaths node : ∀ refs result queue result' queue',
  visitReferrers rootSet maxPaths node refs result queue = (result', queue') →
  ∃ found pushed, result' = result ++ found ∧ queue' = queue ++ pushed ∧
    Forall (fun p => ∃ ref, ref ∈ refs ∧ Path_IDs p = path node ++ [ref]) found ∧
    Forall (fun n => ∃ ref, ref ∈ refs ∧ n = {| id := ref; path := path node ++ [ref] |})
           pushed ∧
    (Z.of_nat (length result) < maxPaths → Z.of_nat (length result') ≤ maxPaths) ∧
    (maxPaths ≤ Z.of_nat (length result') ∨
     ∀ ref, ref ∈ refs → inPath ref (path node) = false →
       if bget rootSet ref then {| Path_IDs := path node ++ [ref] |} ∈ found
       else {| id := ref; path := path node ++ [ref] |} ∈ pushed).
Proof.
  induction refs as [|ref refs IH]; intros result queue result' queue' H; simpl in H.
  - injection H as <- <-. exists [], []. rewrite !app_nil_r.
    split_and!; [done | done | done | done | lia |].
    right. intros ref Href. by apply elem_of_nil in Href.
  - assert (∀ (found : list Path),
      Forall (fun p => ∃ ref, ref ∈ refs ∧ Path_IDs p = path node ++ [ref]) found →
      Forall (fun p => ∃ r, r ∈ ref :: refs ∧ Path_IDs p = path node ++ [r]) found) as Hf'.
    { intros found Hf. eapply Forall_impl; [exact Hf|].
      intros p (r & ? & ?). exists r. split; [by right|done]. }
    assert (∀ (pushed : list searchNode),
      Forall (fun n => ∃ ref, ref ∈ refs ∧ n = {| id := ref; path := path node ++ [ref] |})
             pushed →
      Forall (fun n => ∃ r, r ∈ ref :: refs ∧ n = {| id := r; path := path node ++ [r] |})
             pushed) as Hp'.
    { intros pushed Hp. eapply Forall_impl; [exact Hp|].
      intros p (r & ? & ?). exists r. split; [by right|done]. }
    destruct (inPath ref (path node)) eqn:Hin.
    { apply IH in H as (found & pushed & -> & -> & Hf & Hp & Hc & Hall).
      exists found, pushed. split_and!; [done | done | by apply Hf' | by apply Hp' | done |].
      destruct Hall as [?|Hall]; [by left|right]. intros r Hr Hr'.
      apply elem_of_cons in Hr as [-> | Hr]; [congruence | by apply Hall]. }
    destruct (bget rootSet ref) eqn:Hroot.
    + destruct (Z.of_nat (length (result ++ [{| Path_IDs := path node ++ [ref] |}]))
                >=? maxPaths) eqn:Hfull.
      * injection H as <- <-. exists [{| Path_IDs := path node ++ [ref] |}], [].
        rewrite app_nil_r. split_and!; [done | done | | done | |].
        -- constructor; [|done]. exists ref. split; [by left | done].
        -- rewrite length_app. simpl. lia.
        -- left. lia.
      * apply IH in H as (found & pushed & -> & -> & Hf & Hp & Hc & Hall).
        exists ({| Path_IDs := path node ++ [ref] |} :: found), pushed.
        rewrite <- app_assoc. split_and!; [done | done | | by apply Hp' | |].
        -- constructor; [exists ref; split; [by left | done] | by apply Hf'].
        -- intros _. rewrite <- app_assoc in Hc. apply Hc. lia.
        -- destruct Hall as [Hall|Hall]; [left|right].
           ++ by rewrite <- app_assoc in Hall.
           ++ intros r Hr Hr'. apply elem_of_cons in Hr as [-> | Hr].
              ** rewrite Hroot. by left.
              ** specialize (Hall r Hr Hr'). destruct (bget rootSet r); [by right | done].
    + apply IH in H as (found & pushed & -> & -> & Hf & Hp & Hc & Hall).
      exists found, ({| id := ref; path := path node ++ [ref] |} :: pushed).
      rewrite <- app_assoc. split_and!; [done | done | by apply Hf' | | done |].
      * constructor; [exists ref; split; [by left | done] | by apply Hp'].
      * destruct Hall as [Hall|Hall]; [by left|right].
        intros r Hr Hr'. apply elem_of_cons in Hr as [-> | Hr].
        -- rewrite Hroot. by left.
        -- specialize (Hall r Hr Hr'). destruct (bget rootSet r); [done | by right].
Qed.

Lemma bfs_count fuel reverse rootSet maxPaths : ∀ queue result paths,
  Z.of_nat (length result) ≤ maxPaths →
  bfs fuel reverse rootSet maxPaths queue result = Ok paths →
  Z.of_nat (length paths) ≤ maxPaths.
Proof.
  induction fuel as [|fuel IH]; intros [|node queue] result paths Hr H; simpl in H.
  - by injection H as <-.
  - destruct (Z.of_nat (length result) <? maxPaths); [done|]. by injection H as <-.
  - by injection H as <-.
  - destruct (Z.of_nat (length result) <? maxPaths) eqn:E; [|by injection H as <-].
    destruct (visitReferrers _ _ _ _ _ _) as [result' queue'] eqn:Hv.
    apply visitReferrers_shape in Hv as (found & pushed & -> & -> & _ & _ & Hc & _).
    apply (IH _ _ _ (Hc ltac:(lia)) H).
Qed.

Lemma rootSet_elem_2 (ids : list Z) x :
  x ∈ ids → bget (foldl (fun rootSet id => <[id := true]> rootSet) ∅ ids) x = true.
Proof.
  assert (∀ acc : gmap Z bool, bget acc x = true ∨ x ∈ ids →
    bget (foldl (fun rootSet id => <[id := true]> rootSet) acc ids) x = true) as Hgen.
  { induction ids as [|i ids IH]; intros acc [H|H]; simpl; auto.
    - by apply elem_of_nil in H.
    - apply IH. left. unfold bget. destruct (decide (i = x)) as [->|Hne].
      + by rewrite lookup_insert_eq.
      + by rewrite lookup_insert_ne.
    - apply IH. apply elem_of_cons in H as [-> | H]; [left | by right].
      unfold bget. by rewrite lookup_insert_eq. }
  intros H. apply Hgen. by right.
Qed.

(** X7. [PathsToRoots] never returns more than [maxPaths] paths: none when
    [maxPaths] is zero or negative; and when [from] is itself a root the
    answer is the single path [[from]], whatever refers to it. *)
Theorem PathsToRoots_bounds (g : MemGraph) (visit : list Object) (from maxPaths : Z)
    (fuel : nat) :
  (maxPaths ≤ 0 → PathsToRoots fuel g visit from maxPaths = Ok []) ∧
  (0 < maxPaths → from ∈ elems (IDs (GetRoots g)) →
     PathsToRoots fuel g visit from maxPaths = Ok [{| Path_IDs := [from] |}]) ∧
  (∀ paths, PathsToRoots fuel g visit from maxPaths = Ok paths →
     Z.of_nat (length paths) ≤ Z.max maxPaths 0).
Proof.
  unfold PathsToRoots. split; [|split].
  - intros H. by assert ((maxPaths <=? 0) = true) as -> by lia.
  - intros H Hin. assert ((maxPaths <=? 0) = false) as -> by lia.
    by rewrite (rootSet_elem_2 _ _ Hin).
  - intros paths H. destruct (maxPaths <=? 0) eqn:E.
    { injection H as <-. simpl. lia. }
    destruct (bget _ from).
    { injection H as <-. simpl. lia. }
    apply bfs_count in H; simpl; lia.
Qed.

Lemma bfs_grows fuel reverse rootSet maxPaths : ∀ queue result paths,
  bfs fuel reverse rootSet maxPaths queue result = Ok paths →
  ∃ more, paths = result ++ more.
Proof.
  induction fuel as [|fuel IH]; intros [|node queue] result paths H; simpl in H.
  - injection H as <-. exists []. by rewrite app_nil_r.
  - destruct (Z.of_nat (length result) <? maxPaths); [done|]. injection H as <-.
    exists []. by rewrite app_nil_r.
  - injection H as <-. exists []. by rewrite app_nil_r.
  - destruct (Z.of_nat (length result) <? maxPaths) eqn:E.
    2:{ injection H as <-. exists []. by rewrite app_nil_r. }
    destruct (visitReferrers _ _ _ _ _ _) as [result' queue'] eqn:Hv.
    apply visitReferrers_shape in Hv as (found & pushed & -> & -> & _).
    apply IH in H as [more ->]. exists (found ++ more). by rewrite app_assoc.
Qed.

Lemma inPath_true x p : inPath x p = true → x ∈ p.
Proof.
  induction p as [|y p IH]; simpl; intros H; [done|].
  destruct (Z.eqb_spec y x) as [->|Hne]; [by left | right; auto].
Qed.

Lemma linked_lookup g p : linked g p → ∀ i a b,
  p !! i = Some a → p !! S i = Some b → points_to g b a.
Proof.
  induction p as [|x p IH]; intros Hl i a b Ha Hb; [done|].
  destruct p as [|y p]; [done|]. destruct Hl as [Hxy Hl].
  destruct i as [|i]; simpl in *.
  - injection Ha as <-. by injection Hb as <-.
  - by apply (IH Hl i).
Qed.

Section Complete.
Variables (g : MemGraph) (visit : list Object) (from : Z) (maxPaths : Z).
Hypothesis Hkey : keyed_by_ID g.
Hypothesis Hvisit : ForEachObject_order g visit.
Variable p : list Z.
Hypothesis Hp : valid_path g from p.
Hypothesis Hfree : interior_free (elems (IDs (GetRoots g))) p.

Local Abbreviation reverse' := (BuildReverseEdges visit).
Local Abbreviation rootSet' :=
  (foldl (fun (rootSet : gmap Z bool) id => <[id := true]> rootSet) ∅
         (elems (IDs (GetRoots g)))).

Lemma points_to_referrer a b : points_to g b a → b ∈ sget reverse' a.
Proof.
  intros (obj & Hobj & Ha). apply BuildReverseEdges_elem. exists obj.
  unfold GetObject in Hobj. split; [|split; [by apply Hkey | done]].
  unfold ForEachObject_order in Hvisit. rewrite Hvisit. apply list_elem_of_fmap.
  exists (b, obj). split; [done|]. by apply elem_of_map_to_list.
Qed.

Lemma bfs_complete fuel : ∀ queue result paths,
  bfs fuel reverse' rootSet' maxPaths queue result = Ok paths →
  ({| Path_IDs := p |} ∈ result ∨ ∃ n, n ∈ queue ∧ on_path p n) →
  Z.of_nat (length paths) < maxPaths →
  {| Path_IDs := p |} ∈ paths.
Proof.
  destruct Hp as (Hhead & Hlinked & (vk & Hlast & Hroot) & Hnd).
  induction fuel as [|fuel IH]; intros [|node queue] result paths H Hinv Hlen; simpl in H.
  - injection H as <-. destruct Hinv as [?|(n & Hn & _)]; [done|]. by apply elem_of_nil in Hn.
  - destruct (Z.of_nat (length result) <? maxPaths) eqn:E; [done|]. injection H as <-. lia.
  - injection H as <-. destruct Hinv as [?|(n & Hn & _)]; [done|]. by apply elem_of_nil in Hn.
  - destruct (Z.of_nat (length result) <? maxPaths) eqn:E; [|injection H as <-; lia].
    destruct (visitReferrers _ _ _ _ _ _) as [result' queue'] eqn:Hv.
    apply visitReferrers_shape in Hv as (found & pushed & -> & -> & _ & _ & _ & Hall).
    pose proof (bfs_grows _ _ _ _ _ _ _ H) as [more Hmore].
    apply (IH _ _ _ H); [|done].
    destruct Hinv as [Hin|(n & Hn & Hon)].
    { left. apply elem_of_app. by left. }
    apply elem_of_cons in Hn as [-> | Hn].
    2:{ right. exists n. split; [|done]. apply elem_of_app. by left. }
    destruct Hall as [Hfull|Hall].
    { rewrite Hmore, !length_app in Hlen. rewrite length_app in Hfull. lia. }
    destruct Hon as (k & Hk & Hpath & Hid).
    destruct (lookup_lt_is_Some_2 p k ltac:(lia)) as [next Hnext].
    assert (next ∈ sget reverse' (id node)) as Href.
    { apply points_to_referrer. apply (linked_lookup g p Hlinked (k - 1)%nat); [done|].
      by replace (S (k - 1)) with k by lia. }
    assert (inPath next (path node) = false) as Hnot.
    { destruct (inPath next (path node)) eqn:Ein; [|done]. apply inPath_true in Ein.
      rewrite Hpath in Ein. apply list_elem_of_lookup in Ein as [j Hj].
      apply lookup_take_Some in Hj as [Hj Hjk].
      pose proof (NoDup_lookup _ _ _ _ Hnd Hj Hnext). lia. }
    assert (take k p ++ [next] = take (S k) p) as Htake.
    { by rewrite (take_S_r _ _ _ Hnext). }
    specialize (Hall next Href Hnot). rewrite Hpath, Htake in Hall.
    destruct (bget rootSet' next) eqn:Er.
    + left. apply elem_of_app. right.
      assert (S k = length p) as Hend.
      { destruct (decide (S k < length p)%nat) as [Hlt|]; [|apply lookup_lt_Some in Hnext; lia].
        exfalso. apply (Hfree k next Hnext Hlt). by apply rootSet_elem. }
      rewrite take_ge in Hall by lia. exact Hall.
    + right. eexists. split; [apply elem_of_app; right; exact Hall|].
      exists (S k). simpl. split_and!; [lia | | done |].
      * destruct (decide (S k < length p)%nat) as [Hlt|Hge]; [done|]. exfalso.
        assert (S k = length p) as Hend by (apply lookup_lt_Some in Hnext; lia).
        rewrite last_lookup in Hlast. replace (pred (length p)) with k in Hlast by lia.
        rewrite Hnext in Hlast. injection Hlast as ->.
        apply rootSet_elem_2 in Hroot. congruence.
      * rewrite <- Hnext. f_equal. lia.
Qed.

End Complete.

(** X8. The search of [PathsToRoots] is complete up to its cut-off: when it
    returns fewer than [maxPaths] paths, every path from [from] to a root
    that repeats no object and passes no root before its end is among them.
    The graph stores every object under its id; [visit] is any order in which
    [ForEachObject] may visit it. *)
Theorem PathsToRoots_complete (g : MemGraph) (visit : list Object) (from maxPaths : Z)
    (fuel : nat) (paths : list Path) (p : list Z) :
  keyed_by_ID g → ForEachObject_order g visit →
  PathsToRoots fuel g visit from maxPaths = Ok paths →
  Z.of_nat (length paths) < maxPaths →
  valid_path g from p → interior_free (elems (IDs (GetRoots g))) p →
  {| Path_IDs := p |} ∈ paths.
Proof.
  intros Hkey Hvisit H Hlen Hp Hfree. unfold PathsToRoots in H.
  destruct (maxPaths <=? 0) eqn:E.
  { injection H as <-. simpl in Hlen. lia. }
  pose proof Hp as (Hhead & Hlinked & (vk & Hlast & Hroot) & Hnd).
  destruct p as [|x p']; [done|]. simpl in Hhead. injection Hhead as ->.
  destruct (bget _ from) eqn:Er.
  - injection H as <-. apply rootSet_elem in Er.
    destruct p' as [|y p'']; [by left|]. exfalso.
    apply (Hfree 0%nat from); [done | simpl; lia | done].
  - apply (bfs_complete g visit from maxPaths Hkey Hvisit (from :: p') Hp Hfree) in H; auto.
    right. eexists. split; [by left|]. exists 1%nat. simpl. split_and!; [lia | | done | done].
    destruct p' as [|y p'']; [|simpl; lia]. exfalso. simpl in Hlast. injection Hlast as <-.
    apply rootSet_elem_2 in Hroot. congruence.
Qed.

Lemma nondecreasing_app l1 l2 (M : nat) :
  nondecreasing l1 → Forall (fun a => (a ≤ M)%nat) l1 → Forall (fun b => b = M) l2 →
  nondecreasing (l1 ++ l2).
Proof.
  intros Hs Hb Hc i j a b Hij Hi Hj.
  rewrite Forall_forall in Hb. rewrite Forall_forall in Hc.
  apply lookup_app_Some in Hi as [Hi|[Hil Hi]]; apply lookup_app_Some in Hj as [Hj|[Hjl Hj]].
  - by apply (Hs i j).
  - apply list_elem_of_lookup_2 in Hi, Hj. apply Hb in Hi. apply Hc in Hj. lia.
  - apply lookup_lt_Some in Hj. lia.
  - apply list_elem_of_lookup_2 in Hi, Hj. apply Hc in Hi, Hj. lia.
Qed.

Lemma nondecreasing_tail x l :
  nondecreasing (x :: l) → nondecreasing l ∧ Forall (fun a => (x ≤ a)%nat) l.
Proof.
  intros Hs. split.
  - intros i j a b Hij Hi Hj. apply (Hs (S i) (S j)); auto. lia.
  - apply Forall_forall. intros a Ha. apply list_elem_of_lookup in Ha as [i Hi].
    apply (Hs 0%nat (S i)); auto. lia.
Qed.

Lemma bfs_sorted fuel reverse rootSet maxPaths : ∀ queue result paths (L : nat),
  bfs fuel reverse rootSet maxPaths queue result = Ok paths →
  nondecreasing ((fun q => length (Path_IDs q)) <$> result) →
  Forall (fun q => (length (Path_IDs q) ≤ S L)%nat) result →
  nondecreasing ((fun n => length (path n)) <$> queue) →
  Forall (fun n => (L ≤ length (path n) ≤ S L)%nat) queue →
  nondecreasing ((fun q => length (Path_IDs q)) <$> paths).
Proof.
  induction fuel as [|fuel IH]; intros [|node queue] result paths L H Hrs Hrb Hqs Hqb;
    simpl in H.
  - by injection H as <-.
  - destruct (Z.of_nat (length result) <? maxPaths); [done|]. by injection H as <-.
  - by injection H as <-.
  - destruct (Z.of_nat (length result) <? maxPaths) eqn:E; [|by injection H as <-].
    destruct (visitReferrers _ _ _ _ _ _) as [result' queue'] eqn:Hv.
    apply visitReferrers_shape in Hv as (found & pushed & -> & -> & Hf & Hp & _ & _).
    apply Forall_cons in Hqb as [Hnb Hqb]. rewrite fmap_cons in Hqs.
    apply nondecreasing_tail in Hqs as [Hqs Hqh].
    set (N := length (path node)) in *.
    assert (Forall (fun q => length (Path_IDs q) = S N) found) as Hf'.
    { eapply Forall_impl; [exact Hf|]. intros q (r & _ & ->). rewrite length_app. simpl. lia. }
    assert (Forall (fun n => length (path n) = S N) pushed) as Hp'.
    { eapply Forall_impl; [exact Hp|]. intros n (r & _ & ->). simpl. rewrite length_app.
      simpl. lia. }
    apply (IH _ _ _ N H).
    + rewrite fmap_app. apply (nondecreasing_app _ _ (S N)); [done | |].
      * rewrite Forall_fmap. eapply Forall_impl; [exact Hrb|]. simpl. intros; lia.
      * by rewrite Forall_fmap.
    + apply Forall_app. split.
      * eapply Forall_impl; [exact Hrb|]. simpl. intros; lia.
      * eapply Forall_impl; [exact Hf'|]. simpl. intros; lia.
    + rewrite fmap_app. apply (nondecreasing_app _ _ (S N)); [done | |].
      * rewrite Forall_fmap. eapply Forall_impl; [exact Hqb|]. simpl. intros; lia.
      * by rewrite Forall_fmap.
    + apply Forall_app. split.
      * rewrite Forall_fmap in Hqh. apply Forall_and. split.
        -- eapply Forall_impl; [exact Hqh|]. simpl. intros; lia.
        -- eapply Forall_impl; [exact Hqb|]. simpl. intros; lia.
      * eapply Forall_impl; [exact Hp'|]. simpl. intros; lia.
Qed.

(** X9. [PathsToRoots] returns its paths shortest first: a path never comes
    before a shorter one. *)
Theorem PathsToRoots_shortest_first (g : MemGraph) (visit : list Object)
    (from maxPaths : Z) (fuel : nat) (paths : list Path) :
  PathsToRoots fuel g visit from maxPaths = Ok paths →
  ∀ i j p q, (i ≤ j)%nat → paths !! i = Some p → paths !! j = Some q →
    (length (Path_IDs p) ≤ length (Path_IDs q))%nat.
Proof.
  intros H. assert (nondecreasing ((fun q => length (Path_IDs q)) <$> paths)) as Hs.
  { unfold PathsToRoots in H. destruct (maxPaths <=? 0).
    { injection H as <-. by intros i j a b _ Hi. }
    destruct (bget _ from).
    { injection H as <-. intros [|i] [|j] a b _ Hi Hj; simpl in *; try done.
      injection Hi as <-. injection Hj as <-. lia. }
    apply (bfs_sorted _ _ _ _ _ _ _ 1%nat) in H; [done | | | |].
    - by intros i j a b _ Hi.
    - constructor.
    - intros [|i] [|j] a b _ Hi Hj; simpl in *; try done.
      injection Hi as <-. injection Hj as <-. lia.
    - repeat constructor. }
  intros i j p q Hij Hi Hj.
  apply (Hs i j); auto; by rewrite list_lookup_fmap, ?Hi, ?Hj.
Qed.

End Paths_facts.

Lemma chain_order :
  graph.ForEachObject_order fixtures.chain (map_to_list (graph.objects fixtures.chain)).*2.
Proof. unfold graph.ForEachObject_order. reflexivity. Qed.

Lemma chain_path_valid : valid_path fixtures.chain 3 [3; 2; 1].
Proof.
  unfold valid_path. split; [done|]. split; [|split].
  - simpl. split; [|split; [|done]].
    + eexists. split; [vm_compute; reflexivity|]. simpl. by left.
    + eexists. split; [vm_compute; reflexivity|]. simpl. by left.
  - exists 1. split; [done|]. simpl. by left.
  - repeat constructor; intros H; repeat (apply elem_of_cons in H as [H|H]; [lia|]);
      by apply elem_of_nil in H.
Qed.

Lemma PathsToRoots_complete_witness :
  {| graph.Path_IDs := [3; 2; 1] |} ∈ [{| graph.Path_IDs := [3; 2; 1] |}].
Proof.
  apply (PathsToRoots_complete fixtures.chain (map_to_list (graph.objects fixtures.chain)).*2
           3 5 8).
  - apply chain_keyed.
  - apply chain_order.
  - vm_compute. reflexivity.
  - simpl. lia.
  - apply chain_path_valid.
  - intros i x Hi Hlt Hx. simpl in Hx. apply list_elem_of_singleton in Hx as ->.
    destruct i as [|[|[|i]]]; simpl in *; try done; lia.
Defined.

Lemma PathsToRoots_shortest_first_witness :
  (length [3; 2; 1] ≤ length [3; 2; 1])%nat.
Proof.
  assert (graph.PathsToRoots 8 fixtures.chain
            (map_to_list (graph.objects fixtures.chain)).*2 3 5
          = Ok [{| graph.Path_IDs := [3; 2; 1] |}]) as H by (vm_compute; reflexivity).
  apply (PathsToRoots_shortest_first _ _ _ _ _ _ H 0%nat 0%nat
           {| graph.Path_IDs := [3; 2; 1] |} {| graph.Path_IDs := [3; 2; 1] |});
    [lia | reflexivity | reflexivity].
Defined.

(** ** Reverse edges (reverse.go) *)

Section Reverse_facts.

Import graph.

Lemma visit_NoDup g visit :
  keyed_by_ID g → ForEachObject_order g visit → NoDup (ID <$> visit).
Proof.
  intros Hk Hv. unfold ForEachObject_order in Hv. rewrite Hv.
  assert (ID <$> (map_to_list (objects g)).*2 = (map_to_list (objects g)).*1) as ->.
  { rewrite <- list_fmap_compose. apply list_fmap_ext. intros i [k o] Hi. simpl.
    apply list_elem_of_lookup_2 in Hi. apply elem_of_map_to_list in Hi. by apply Hk. }
  apply NoDup_fst_map_to_list.
Qed.

Lemma visit_elem g visit b obj :
  ForEachObject_order g visit → GetObject g b = Some obj → obj ∈ visit.
Proof.
  intros Hv Ho. unfold ForEachObject_order in Hv. rewrite Hv. apply list_elem_of_fmap.
  exists (b, obj). split; [done|]. by apply elem_of_map_to_list.
Qed.

Lemma referrers_count (a b : Z) (visit : list Object) :
  NoDup (ID <$> visit) →
  length (filter (fun x => x = b) (visit ≫= referrersFrom a))
  = match list_find (fun o => ID o = b) visit with
    | Some (_, obj) => length (filter (fun t => t = a) (elems (Ptrs obj)))
    | None => 0%nat
    end.
Proof.
  induction visit as [|o l IH]; intros Hnd; [done|].
  apply NoDup_cons in Hnd as [Ho Hnd]. rewrite bind_cons, filter_app, length_app, IH by done.
  simpl. unfold referrersFrom at 1. destruct (decide (ID o = b)) as [Hb|Hb].
  - assert (list_find (fun o => ID o = b) l = None) as ->.
    { apply list_find_None. apply Forall_forall. intros x Hx Hxb. apply Ho.
      apply list_elem_of_fmap. exists x. split; [congruence | done]. }
    simpl. rewrite Nat.add_0_r.
    generalize (filter (fun t => t = a) (elems (Ptrs o))). intros ts.
    induction ts as [|t ts IHt]; [done|]. simpl. rewrite filter_cons. simpl.
    rewrite decide_True by done. simpl. f_equal. exact IHt.
  - assert (filter (fun x => x = b) ((fun _ => ID o) <$> filter (fun t => t = a) (elems (Ptrs o)))
            = []) as ->.
    { generalize (filter (fun t => t = a) (elems (Ptrs o))). intros ts.
      induction ts as [|t ts IHt]; [done|]. simpl. rewrite filter_cons. simpl.
      rewrite decide_False by done. exact IHt. }
    simpl. by destruct (list_find _ l) as [[? ?]|].
Qed.

(** X10. [BuildReverseEdges] mirrors the pointers of the graph, in whatever
    order [ForEachObject] visits a graph that stores every object under its
    id: [b] is listed among the referrers of [a] exactly when the object [b]
    holds a pointer to [a], and it is listed once for each such pointer
    (duplicates are kept, and the null id 0 gets referrers like any other). *)
Theorem BuildReverseEdges_mirrors_pointers (g : MemGraph) (visit : list Object) (a b : Z) :
  keyed_by_ID g → ForEachObject_order g visit →
  (b ∈ sget (BuildReverseEdges visit) a ↔ points_to g b a) ∧
  length (filter (fun x => x = b) (sget (BuildReverseEdges visit) a))
  = match GetObject g b with
    | Some obj => length (filter (fun t => t = a) (elems (Ptrs obj)))
    | None => 0%nat
    end.
Proof.
  intros Hk Hv. split.
  - rewrite BuildReverseEdges_elem. split.
    + intros (obj & Hin & <- & Ha). exists obj. split; [by apply (visit_lookup g visit)|done].
    + intros (obj & Ho & Ha). exists obj. split; [by apply (visit_elem g visit b)|].
      split; [|done]. unfold GetObject in Ho. by apply Hk in Ho.
  - rewrite BuildReverseEdges_sget, referrers_count by (by apply (visit_NoDup g)).
    destruct (list_find _ visit) as [[i o]|] eqn:E.
    + apply list_find_Some in E as (Hi & Heq & _). apply list_elem_of_lookup_2 in Hi.
      pose proof (visit_lookup g visit o Hk Hv Hi) as Ho. rewrite Heq in Ho. by rewrite Ho.
    + destruct (GetObject g b) as [o|] eqn:Ho; [|done]. exfalso.
      apply list_find_None in E. rewrite Forall_forall in E. apply (E o).
      * by apply (visit_elem g visit b).
      * unfold GetObject in Ho. by apply Hk in Ho.
Qed.

Lemma BuildReverseEdges_mirrors_pointers_witness :
  2 ∈ sget (BuildReverseEdges (map_to_list (objects fixtures.chain)).*2) 3 ↔
  points_to fixtures.chain 2 3.
Proof.
  apply (BuildReverseEdges_mirrors_pointers fixtures.chain
           (map_to_list (objects fixtures.chain)).*2 3 2).
  - apply chain_keyed.
  - apply chain_order.
Defined.

End Reverse_facts.

(** ** A graph without roots *)

Section No_roots_facts.

Import graph.

Lemma adj_no_zero (l : list Object) : ∀ (adj : gmap Z (list Z)),
  (∀ obj, obj ∈ l → ID obj ≠ 0) →
  foldl (fun adj obj =>
           match Ptrs obj with
           | Some ptrs => <[ID obj := ptrs]> adj
           | None => adj
           end) adj l !! 0 = adj !! 0.
Proof.
  induction l as [|o l IH]; intros adj Hl; simpl; [done|].
  rewrite IH by (intros; apply Hl; by right).
  destruct (Ptrs o); [|done]. rewrite lookup_insert_ne; [done|]. apply Hl. by left.
Qed.

Lemma allObjects_visit (visit : list Object) :
  ForEachObject visit (fun acc obj => acc ++ [obj]) [] = visit.
Proof.
  unfold ForEachObject.
  assert (∀ acc, foldl (fun acc obj => acc ++ [obj]) acc visit = acc ++ visit) as H.
  { induction visit as [|o l IH]; intros acc; simpl; [by rewrite app_nil_r|].
    by rewrite IH, <- app_assoc. }
  apply H.
Qed.

Lemma Dominators_no_roots fuel g visit :
  elems (IDs (GetRoots g)) = [] → (∀ obj, obj ∈ visit → ID obj ≠ 0) →
  Dominators (S fuel) g visit = Ok ∅.
Proof.
  intros Hroots Hvisit. unfold Dominators. rewrite Hroots, allObjects_visit.
  change (0 <? Z.of_nat (length (@nil Z))) with false. cbv zeta.
  set (adj := foldl _ _ visit).
  assert (sget adj 0 = []) as Hadj.
  { unfold sget, adj. rewrite adj_no_zero by done. by rewrite lookup_empty. }
  simpl. rewrite Hadj. simpl. rewrite lookup_empty. simpl. by rewrite delete_empty.
Qed.

(** X11. On a graph without roots, stored under its ids and without an object
    0: [Dominators] returns the empty map, [RetainedSize] returns the empty
    map, and [PathsToRoots] finds no path, from any object. *)
Theorem no_roots_nothing_retained (fuel : nat) (g : MemGraph) (sch : schedule)
    (visit : list Object) :
  elems (IDs (GetRoots g)) = [] → GetObject g 0 = None →
  keyed_by_ID g → schedule_ok (S fuel) g sch → ForEachObject_order g visit →
  Dominators (S fuel) g (visitDominators sch) = Ok ∅ ∧
  RetainedSize (S fuel) g sch = Ok ∅ ∧
  (∀ fuel' from maxPaths paths,
     PathsToRoots fuel' g visit from maxPaths = Ok paths → paths = []).
Proof.
  intros Hroots H0 Hkey (Hvd & Hvs & Hsch) Hvisit.
  assert (Dominators (S fuel) g (visitDominators sch) = Ok ∅) as Hdom.
  { apply Dominators_no_roots; [done|]. intros obj Hin Hid.
    pose proof (visit_lookup g _ obj Hkey Hvd Hin) as Ho. rewrite Hid in Ho. congruence. }
  split; [done|]. split.
  - destruct (Hsch ∅ Hdom) as (H1 & H2 & Ht). unfold range_order in *.
    rewrite map_to_list_empty in H1, H2. apply Permutation_nil_r in H1, H2.
    unfold RetainedSize. rewrite Hdom. unfold mbind at 1, outcome_bind at 1.
    rewrite H1, H2 in *. unfold DominatorTree in *. cbn [foldl] in *.
    change (<[0:=[]]> (∅ : gmap Z (list Z))) with ({[0 := []]} : gmap Z (list Z)) in *.
    rewrite map_to_list_singleton in Ht. apply Permutation_singleton_r in Ht. rewrite Ht.
    simpl. rewrite lookup_empty. unfold sget. rewrite lookup_singleton_eq. simpl.
    unfold zget. rewrite lookup_insert_eq. simpl.
    apply f_equal, map_eq. intros k. destruct (decide (k = 0)) as [->|Hne].
    + by rewrite lookup_delete_eq, lookup_empty.
    + rewrite lookup_delete_ne by done. by rewrite lookup_insert_ne.
  - intros fuel' from maxPaths paths H. destruct paths as [|p paths]; [done|]. exfalso.
    unfold PathsToRoots in H. destruct (maxPaths <=? 0); [done|].
    destruct (bget _ from) eqn:Er.
    { apply rootSet_elem in Er. rewrite Hroots in Er. by apply elem_of_nil in Er. }
    apply (bfs_valid g visit from maxPaths Hkey Hvisit) in H.
    + apply Forall_cons in H as [(_ & _ & (vk & _ & Hvk) & _) _].
      rewrite Hroots in Hvk. by apply elem_of_nil in Hvk.
    + constructor; [|done]. unfold node_ok; simpl. repeat split; auto.
      * apply NoDup_singleton.
      * intros x Hx. apply list_elem_of_singleton in Hx as ->. by left.
    + constructor.
Qed.

Lemma no_roots_nothing_retained_witness :
  Dominators 1 NewMemGraph [] = Ok ∅ ∧
  RetainedSize 1 NewMemGraph
    {| visitDominators := []; visitIdom1 := []; visitIdom2 := []; visitSizes := [];
       visitTree := [(0, [])] |} = Ok ∅.
Proof.
  destruct (no_roots_nothing_retained 0 NewMemGraph
              {| visitDominators := []; visitIdom1 := []; visitIdom2 := []; visitSizes := [];
                 visitTree := [(0, [])] |} []) as (H1 & H2 & _).
  - reflexivity.
  - reflexivity.
  - apply keyed_by_ID_new.
  - unfold schedule_ok, ForEachObject_order. simpl.
    split; [reflexivity|]. split; [reflexivity|].
    intros dominators Hdom. vm_compute in Hdom. injection Hdom as <-.
    unfold range_order. repeat split; vm_compute; reflexivity.
  - unfold ForEachObject_order. reflexivity.
  - split; [exact H1 | exact H2].
Defined.

End No_roots_facts.

(** * The wire format: readers against writers *)

Section Wire_facts.

Lemma byte_val_of z : byte_val (byte_of z) = z mod 256.
Proof.
  unfold byte_val, byte_of.
  assert (0 ≤ z mod 256 < 256) as Hr by (apply Z.mod_pos_bound; lia).
  destruct (Byte.of_N (Z.to_N (z mod 256))) as [b|] eqn:E.
  - simpl. apply Byte.to_of_N in E. rewrite E. lia.
  - apply Byte.of_N_None_iff in E. lia.
Qed.

Lemma lor_disjoint a b s :
  0 ≤ s → 0 ≤ a < 2 ^ s → 0 ≤ b → Z.lor a (b * 2 ^ s) = a + b * 2 ^ s.
Proof.
  intros Hs Ha Hb.
  assert (Z.land a (b * 2 ^ s) = 0) as Hland.
  { apply Z.bits_inj'. intros n Hn. rewrite Z.land_spec, Z.bits_0.
    destruct (Z.lt_ge_cases n s) as [Hlt|Hge].
    - rewrite Z.mul_pow2_bits_low by lia. apply andb_false_r.
    - assert (Z.testbit a n = false) as ->; [|done].
      destruct (Z.eq_dec a 0) as [->|Hne]; [apply Z.bits_0|].
      apply Z.bits_above_log2; [lia|]. apply Z.log2_lt_pow2; [lia|].
      apply Z.lt_le_trans with (2 ^ s); [lia|]. apply Z.pow_le_mono_r; lia. }
  rewrite <- Z.lxor_lor by done. symmetry. by apply Z.add_nocarry_lxor.
Qed.

Lemma lor_128 a : 0 ≤ a < 256 → Z.lor a 128 = a mod 128 + 128.
Proof.
  intros Ha. destruct (Z.lt_ge_cases a 128) as [Hlt|Hge].
  - rewrite Z.mod_small by lia. change 128 with (1 * 2 ^ 7) at 1.
    rewrite lor_disjoint; lia.
  - assert (a mod 128 = a - 128) as ->.
    { replace a with ((a - 128) + 1 * 128) at 1 by lia. rewrite Z_mod_plus_full.
      apply Z.mod_small. lia. }
    assert (a = Z.lor (a - 128) 128) as Ha'.
    { change 128 with (1 * 2 ^ 7) at 2. rewrite lor_disjoint; lia. }
    rewrite Ha' at 1. rewrite <- Z.lor_assoc, Z.lor_diag. rewrite <- Ha'. lia.
Qed.

Lemma PutUvarint_loop_S n x :
  PutUvarint_loop (S n) x =
  if 128 <=? x then byte_of (Z.lor (x mod 256) 128) :: PutUvarint_loop n (Z.shiftr x 7)
  else [byte_of x].
Proof. reflexivity. Qed.

(** Decoding what [PutUvarint] wrote, from any position of the two loops. *)
Lemma ReadUvarint_loop_Put (n : nat) : ∀ (i : nat) acc x rest,
  (S n + i = 10)%nat → 0 ≤ acc < 2 ^ (7 * Z.of_nat i) → 0 ≤ x →
  acc + x * 2 ^ (7 * Z.of_nat i) < 2 ^ 64 →
  ReadUvarint_loop (S n) (Z.of_nat i) acc (7 * Z.of_nat i) (PutUvarint_loop (S n) x ++ rest)
  = (Ok (acc + x * 2 ^ (7 * Z.of_nat i)), rest).
Proof.
  assert (∀ (m : nat) (i : nat) acc x rest,
    0 ≤ acc < 2 ^ (7 * Z.of_nat i) → 0 ≤ x < 128 → (i ≤ 9)%nat →
    acc + x * 2 ^ (7 * Z.of_nat i) < 2 ^ 64 →
    ReadUvarint_loop (S m) (Z.of_nat i) acc (7 * Z.of_nat i) (byte_of x :: rest)
    = (Ok (acc + x * 2 ^ (7 * Z.of_nat i)), rest)) as Hlast.
  { intros m i acc x rest Hacc Hx Hi Hv.
    assert (0 < 2 ^ (7 * Z.of_nat i)) as Hpos by (apply Z.pow_pos_nonneg; lia).
    rewrite ReadUvarint_loop_S. cbv zeta.
    rewrite byte_val_of. rewrite (Z.mod_small x 256) by lia.
    destruct (x <? 128) eqn:E2; [|lia].
    assert ((Z.of_nat i =? 9) && (1 <? x) = false) as ->.
    { destruct (Z.of_nat i =? 9) eqn:E9; [|done]. simpl. apply Z.eqb_eq in E9.
      apply Z.ltb_ge. replace (7 * Z.of_nat i) with 63 in * by lia.
      change (2 ^ 64) with (2 * 2 ^ 63) in *. nia. }
    f_equal. f_equal.
    assert (wrap64 (Z.shiftl x (7 * Z.of_nat i)) = x * 2 ^ (7 * Z.of_nat i)) as ->.
    { rewrite Z.shiftl_mul_pow2 by lia. unfold wrap64. apply Z.mod_small. nia. }
    apply lor_disjoint; lia. }
  induction n as [|n IH]; intros i acc x rest Hn Hacc Hx Hv.
  all: assert (0 < 2 ^ (7 * Z.of_nat i)) as Hpos by (apply Z.pow_pos_nonneg; lia).
  all: rewrite PutUvarint_loop_S; destruct (128 <=? x) eqn:E.
  - exfalso. apply Z.leb_le in E. replace (7 * Z.of_nat i) with 63 in * by lia.
    change (2 ^ 64) with (2 * 2 ^ 63) in *. nia.
  - apply Z.leb_gt in E. apply Hlast; lia.
  - apply Z.leb_le in E.
    assert (0 ≤ x mod 256 < 256) as H256 by (apply Z.mod_pos_bound; lia).
    assert (0 ≤ x mod 128 < 128) as Hm by (apply Z.mod_pos_bound; lia).
    assert ((x mod 256) mod 128 = x mod 128) as Hmm.
    { apply Z.mod_mod_divide. by exists 2. }
    rewrite <- app_comm_cons, ReadUvarint_loop_S. cbv zeta.
    rewrite byte_val_of, lor_128 by done. rewrite Hmm.
    rewrite (Z.mod_small (x mod 128 + 128)) by lia.
    destruct (x mod 128 + 128 <? 128) eqn:E2; [lia|].
    assert (Z.land (x mod 128 + 128) 127 = x mod 128) as ->.
    { change 127 with (Z.ones 7). rewrite Z.land_ones by lia.
      replace (x mod 128 + 128) with (x mod 128 + 1 * 2 ^ 7) by lia.
      rewrite Z_mod_plus_full. change (2 ^ 7) with 128. apply Z.mod_small. lia. }
    assert (x mod 128 ≤ x) as Hle by (apply Z.mod_le; lia).
    assert (wrap64 (Z.shiftl (x mod 128) (7 * Z.of_nat i))
            = x mod 128 * 2 ^ (7 * Z.of_nat i)) as ->.
    { rewrite Z.shiftl_mul_pow2 by lia. unfold wrap64. apply Z.mod_small. nia. }
    assert (Z.lor acc (x mod 128 * 2 ^ (7 * Z.of_nat i))
            = acc + x mod 128 * 2 ^ (7 * Z.of_nat i)) as ->.
    { apply lor_disjoint; lia. }
    replace (Z.of_nat i + 1) with (Z.of_nat (S i)) by lia.
    replace (7 * Z.of_nat i + 7) with (7 * Z.of_nat (S i)) by lia.
    assert (2 ^ (7 * Z.of_nat (S i)) = 128 * 2 ^ (7 * Z.of_nat i)) as Hpow.
    { replace (7 * Z.of_nat (S i)) with (7 + 7 * Z.of_nat i) by lia.
      rewrite Z.pow_add_r by lia. done. }
    rewrite Z.shiftr_div_pow2 by lia. change (2 ^ 7) with 128.
    assert (x = 128 * (x / 128) + x mod 128) as Hdm by (apply Z.div_mod; lia).
    assert (0 ≤ x / 128) by (apply Z.div_pos; lia).
    rewrite IH.
    + f_equal. f_equal. rewrite Hpow. nia.
    + lia.
    + rewrite Hpow. nia.
    + done.
    + rewrite Hpow. nia.
  - apply Z.leb_gt in E. apply Hlast; lia.
Qed.

Lemma ReadUvarint_PutUvarint x rest :
  0 ≤ x < 2 ^ 64 → ReadUvarint (PutUvarint x ++ rest) = (Ok x, rest).
Proof.
  intros Hx. unfold ReadUvarint, PutUvarint.
  pose proof (ReadUvarint_loop_Put 9 0 0 x rest) as H.
  change (Z.of_nat 0) with 0 in H. change (7 * 0) with 0 in H.
  rewrite H; [|lia|simpl; lia|lia|simpl; lia]. f_equal. f_equal. simpl. lia.
Qed.

Lemma ReadFull_app (b rest : list byte) :
  ReadFull (Z.of_nat (length b)) (b ++ rest) = (Ok b, rest).
Proof.
  unfold ReadFull. rewrite Nat2Z.id.
  assert ((length b <=? length (b ++ rest))%nat = true) as ->.
  { apply Nat.leb_le. rewrite length_app. lia. }
  by rewrite take_app_length, drop_app_length.
Qed.

(** X12. The readers of the batch parser decode what the writers of the test
    suite encode, whatever follows in the stream: [readVarint] returns every
    64-bit value written by [writeVarint], [readString] every string of at
    most 2^20 bytes written by [writeString], [readBytes] every slice of at
    most 2^30 bytes written by [writeBytes]; each consumes exactly the bytes
    written and leaves the rest of the parser state as it was. *)
Theorem goheap_readers_round_trip (p : goheap.parser) (rest : list byte) :
  (∀ v, 0 ≤ v < 2 ^ 64 → goheap.r p = fixtures.writeVarint v ++ rest →
        goheap.readVarint p = (Ok v, goheap.set_r (fun _ => rest) p)) ∧
  (∀ s, Z.of_nat (length (String.list_byte_of_string s)) ≤ 2 ^ 20 →
        goheap.r p = fixtures.writeString s ++ rest →
        goheap.readString p = (Ok s, goheap.set_r (fun _ => rest) p)) ∧
  (∀ b, Z.of_nat (length b) ≤ 2 ^ 30 →
        goheap.r p = fixtures.writeBytes b ++ rest →
        goheap.readBytes p = (Ok b, goheap.set_r (fun _ => rest) p)).
Proof.
  assert (∀ v rest' q, 0 ≤ v < 2 ^ 64 → goheap.r q = fixtures.writeVarint v ++ rest' →
            goheap.readVarint q = (Ok v, goheap.set_r (fun _ => rest') q)) as Hv.
  { intros v rest' q Hr Hq. unfold goheap.readVarint, goheap.onReader. rewrite Hq.
    unfold fixtures.writeVarint. by rewrite ReadUvarint_PutUvarint. }
  split; [|split].
  - intros v. apply Hv.
  - intros s Hlen Hr.
    assert (0 ≤ Z.of_nat (length (String.list_byte_of_string s)) < 2 ^ 64) as Hrange by lia.
    unfold goheap.readString, fixtures.writeString in *.
    rewrite <- app_assoc in Hr. unfold mbind, M_bind. rewrite (Hv _ _ _ Hrange Hr).
    destruct (2 ^ 20 <? Z.of_nat (length (String.list_byte_of_string s))) eqn:E; [lia|].
    unfold goheap.onReader. cbn [goheap.r goheap.set_r]. rewrite ReadFull_app.
    unfold mret, M_ret. by rewrite String.string_of_list_byte_of_string.
  - intros b Hlen Hr. assert (0 ≤ Z.of_nat (length b) < 2 ^ 64) as Hrange by lia.
    unfold goheap.readBytes, fixtures.writeBytes in *.
    rewrite <- app_assoc in Hr. unfold mbind, M_bind. rewrite (Hv _ _ _ Hrange Hr).
    destruct (2 ^ 30 <? Z.of_nat (length b)) eqn:E; [lia|].
    unfold goheap.onReader. cbn [goheap.r goheap.set_r]. by rewrite ReadFull_app.
Qed.

Lemma goheap_readers_round_trip_witness :
  goheap.readString (goheap.newParser (fixtures.writeString "hi" ++ [x01]))
  = (Ok "hi"%string,
     goheap.set_r (fun _ => [x01]) (goheap.newParser (fixtures.writeString "hi" ++ [x01]))).
Proof.
  destruct (goheap_readers_round_trip
              (goheap.newParser (fixtures.writeString "hi" ++ [x01])) [x01]) as (_ & H & _).
  apply H; [cbn; lia|reflexivity].
Defined.

(** X13. The readers of the streaming parser decode what the same writers
    encode and leave exactly the bytes that follow in the stream;
    [readVarint] advances the progress counter by one. *)
Theorem streaming_readers_round_trip {U : Type} (p : streaming.StreamingParser U)
    (rest : list byte) :
  (∀ v, 0 ≤ v < 2 ^ 64 → streaming.r p = fixtures.writeVarint v ++ rest →
        ∃ p', streaming.readVarint p = (Ok v, p') ∧ streaming.r p' = rest ∧
              streaming.progress p' = wrap64 (streaming.progress p + 1)) ∧
  (∀ s, Z.of_nat (length (String.list_byte_of_string s)) ≤ 2 ^ 20 →
        streaming.r p = fixtures.writeString s ++ rest →
        ∃ p', streaming.readString p = (Ok s, p') ∧ streaming.r p' = rest) ∧
  (∀ b, Z.of_nat (length b) ≤ 2 ^ 30 →
        streaming.r p = fixtures.writeBytes b ++ rest →
        ∃ p', streaming.readBytes p = (Ok b, p') ∧ streaming.r p' = rest).
Proof.
  assert (∀ v rest' (q : streaming.StreamingParser U), 0 ≤ v < 2 ^ 64 →
            streaming.r q = fixtures.writeVarint v ++ rest' →
            streaming.readVarint q
            = (Ok v, streaming.add_progress 1 (streaming.set_r rest' q))) as Hv.
  { intros v rest' q Hr Hq. unfold streaming.readVarint. rewrite Hq.
    unfold fixtures.writeVarint. by rewrite ReadUvarint_PutUvarint. }
  split; [|split].
  - intros v Hr Hq. eexists. split; [by apply Hv|]. done.
  - intros s Hlen Hr.
    assert (0 ≤ Z.of_nat (length (String.list_byte_of_string s)) < 2 ^ 64) as Hrange by lia.
    unfold streaming.readString, fixtures.writeString in *.
    rewrite <- app_assoc in Hr. unfold mbind, M_bind. rewrite (Hv _ _ _ Hrange Hr).
    destruct (2 ^ 20 <? Z.of_nat (length (String.list_byte_of_string s))) eqn:E; [lia|].
    unfold streaming.readFull. cbn [streaming.r streaming.set_r streaming.add_progress].
    rewrite ReadFull_app. unfold mret, M_ret.
    rewrite String.string_of_list_byte_of_string. eexists. split; [done|]. done.
  - intros b Hlen Hr. assert (0 ≤ Z.of_nat (length b) < 2 ^ 64) as Hrange by lia.
    unfold streaming.readBytes, fixtures.writeBytes in *.
    rewrite <- app_assoc in Hr. unfold mbind, M_bind. rewrite (Hv _ _ _ Hrange Hr).
    destruct (2 ^ 30 <? Z.of_nat (length b)) eqn:E; [lia|].
    unfold streaming.readFull. cbn [streaming.r streaming.set_r streaming.add_progress].
    rewrite ReadFull_app. eexists. split; [done|]. done.
Qed.

Lemma streaming_readers_round_trip_witness :
  ∃ p', streaming.readBytes
          (streaming.NewStreamingParser (fixtures.writeBytes [x07; x08] ++ [x01])
             (streaming.Build_StreamCallbacks None None None None None None) tt)
        = (Ok [x07; x08], p') ∧ streaming.r p' = [x01].
Proof.
  destruct (streaming_readers_round_trip
              (streaming.NewStreamingParser (fixtures.writeBytes [x07; x08] ++ [x01])
                 (streaming.Build_StreamCallbacks None None None None None None) tt) [x01])
    as (_ & _ & H).
  apply H; [cbn; lia|reflexivity].
Defined.

End Wire_facts.

(** * The graphs the goheap parser builds *)

Section Frames.
Import goheap.

Lemma frames_ret {A} (a : A) : frames (mret a).
Proof. by intros p. Qed.
Lemma frames_fail {A} e : frames (@fail parser A e).
Proof. by intros p. Qed.
Lemma frames_panic {A} : frames (@panic parser A).
Proof. by intros p. Qed.
Lemma frames_get : frames get.
Proof. by intros p. Qed.
Lemma frames_out_of_fuel {A} : frames (fun p : parser => (@OutOfFuel A, p)).
Proof. by intros p. Qed.

Lemma frames_bind {A B} (m : M parser A) (k : A → M parser B) :
  frames m → (∀ a, frames (k a)) → frames (m ≫= k).
Proof.
  intros Hm Hk p. unfold mbind, M_bind. specialize (Hm p).
  destruct (m p) as [[a|e| |] p']; simpl in *; auto.
  destruct (Hk a p') as (H1 & H2 & H3 & H4 & H5).
  destruct Hm as (G1 & G2 & G3 & G4 & G5). rewrite H1, H2, H3, H4. split_and!; try done. lia.
Qed.

Lemma frames_wrapErr {A} format (m : M parser A) : frames m → frames (wrapErr format m).
Proof.
  intros Hm p. unfold wrapErr. specialize (Hm p). by destruct (m p) as [[a|e| |] p'].
Qed.

Lemma frames_repeatM n (m : M parser unit) : frames m → frames (repeatM n m).
Proof.
  intros Hm. induction n as [|n IH]; simpl; [apply frames_ret|].
  apply frames_bind; auto.
Qed.

Lemma frames_onReader {A} (rd : list byte → outcome A * list byte) :
  never_grows rd → frames (onReader rd).
Proof.
  intros Hrd p. unfold onReader. specialize (Hrd (r p)). by destruct (rd (r p)).
Qed.

Lemma never_grows_ReadUvarint : never_grows ReadUvarint.
Proof.
  intros r. destruct (ReadUvarint r) as [res r'] eqn:E.
  apply ReadUvarint_loop_length in E. done.
Qed.

Lemma never_grows_ReadFull n : never_grows (ReadFull n).
Proof.
  intros r. destruct (ReadFull n r) as [res r'] eqn:E. by apply ReadFull_length in E as [? _].
Qed.

Lemma frames_modify (f : parser → parser) :
  (∀ p, g (f p) = g p ∧ addrToObjID (f p) = addrToObjID p ∧ roots (f p) = roots p ∧
        nextObjID (f p) = nextObjID p ∧ r (f p) = r p) →
  frames (modify f).
Proof.
  intros Hf p. destruct (Hf p) as (?&?&?&?&Hr). simpl. rewrite Hr. by split_and!.
Qed.

Ltac frames_step :=
  first
    [ apply frames_ret | apply frames_fail | apply frames_panic | apply frames_get
    | apply frames_out_of_fuel
    | apply frames_onReader; first [apply never_grows_ReadUvarint | apply never_grows_ReadFull]
    | apply frames_wrapErr
    | apply frames_repeatM
    | apply frames_bind; [|intros ?]
    | apply frames_modify; intros ?; done
    | match goal with
      | |- frames (let _ := _ in _) => cbv zeta
      | |- frames (if ?c then _ else _) => destruct c
      | |- frames (match ?x with _ => _ end) => destruct x
      end ].

Lemma frames_readVarint : frames readVarint.
Proof. unfold readVarint. repeat frames_step. Qed.
Lemma frames_readString : frames readString.
Proof. unfold readString. repeat (frames_step || apply frames_readVarint). Qed.
Lemma frames_readBytes : frames readBytes.
Proof. unfold readBytes. repeat (frames_step || apply frames_readVarint). Qed.
Lemma frames_skipVarint : frames skipVarint.
Proof. unfold skipVarint. repeat (frames_step || apply frames_readVarint). Qed.

Ltac frames_base :=
  repeat first [ apply frames_readVarint | apply frames_readString | apply frames_readBytes
               | apply frames_skipVarint | frames_step ].

Lemma frames_objectFields fuel : ∀ data pointers, frames (objectFields fuel data pointers).
Proof.
  induction fuel as [|fuel IH]; intros data pointers; simpl; frames_base; apply IH.
Qed.

Lemma frames_skipFields fuel : frames (skipFields fuel).
Proof. induction fuel as [|fuel IH]; simpl; frames_base; apply IH. Qed.

Lemma frames_skipFrames fuel : ∀ i nstk, frames (skipFrames fuel i nstk).
Proof.
  induction fuel as [|fuel IH]; intros i nstk; simpl; frames_base; apply IH.
Qed.

Ltac frames_auto :=
  repeat first [ apply frames_objectFields | apply frames_skipFields | apply frames_skipFrames
               | apply frames_readVarint | apply frames_readString | apply frames_readBytes
               | apply frames_skipVarint | frames_step ].

Lemma frames_ok {A} (m : M parser A) N p :
  frames m → parser_ok N p → parser_ok N (m p).2.
Proof.
  intros Hm (H1 & H2 & H3 & H4 & H5 & H6 & H7). destruct (Hm p) as (G1 & G2 & G3 & G4 & G5).
  unfold parser_ok. rewrite G1, G2, G3, G4. split_and!; try done. lia.
Qed.

Lemma frames_eq {A} (m : M parser A) N p res p' :
  frames m → parser_ok N p → m p = (res, p') → parser_ok N p'.
Proof. intros Hm Hp E. pose proof (frames_ok m N p Hm Hp) as H. by rewrite E in H. Qed.

(** A varint that was read took at least one byte. *)
Lemma readVarint_Ok p v p' :
  readVarint p = (Ok v, p') → (length (r p') < length (r p))%nat.
Proof.
  unfold readVarint, onReader. destruct (ReadUvarint (r p)) as [res r'] eqn:E.
  intros [= -> <-]. simpl. apply ReadUvarint_progress in E as [(_ & ? & _)|[? _]]; [done|lia].
Qed.

Lemma readBytes_Ok p data p' :
  readBytes p = (Ok data, p') → Z.of_nat (length data) ≤ 2 ^ 30.
Proof.
  unfold readBytes, mbind, M_bind. destruct (readVarint p) as [[n|e| |] p1]; try done.
  destruct (Z.ltb_spec (2 ^ 30) n) as [|Hn]; [done|].
  unfold onReader, ReadFull. destruct (Z.to_nat n <=? length (r p1))%nat eqn:E.
  - intros [= <- _]. rewrite length_take. apply Nat.leb_le in E.
    lia.
  - by destruct (r p1).
Qed.

Lemma parseObject_ok fuel N p p' :
  N < 2 ^ 64 → parser_ok N p → parseObject fuel p = (Ok tt, p') → parser_ok N p'.
Proof.
  intros HN Hp. unfold parseObject, mbind at 1, M_bind at 1.
  destruct (readVarint p) as [[addr|e| |] p1] eqn:E1; try done.
  pose proof (frames_eq _ N _ _ _ frames_readVarint Hp E1) as Hp1.
  pose proof (frames_readVarint p) as (_ & _ & _ & Hn1 & _). rewrite E1 in Hn1. simpl in Hn1.
  apply readVarint_Ok in E1.
  unfold mbind at 1, M_bind at 1.
  destruct (readBytes p1) as [[data|e| |] p2] eqn:E2; try done.
  pose proof (frames_eq _ N _ _ _ frames_readBytes Hp1 E2) as Hp2.
  pose proof (frames_readBytes p1) as (_ & _ & _ & Hn2 & Hr2). rewrite E2 in Hn2, Hr2.
  simpl in Hn2, Hr2. apply readBytes_Ok in E2.
  unfold mbind at 1, M_bind at 1.
  destruct (objectFields fuel data [] p2) as [[pointers|e| |] p3] eqn:E3; try done.
  pose proof (frames_eq _ N _ _ _ (frames_objectFields fuel data []) Hp2 E3) as Hp3.
  pose proof (frames_objectFields fuel data [] p2) as (_ & _ & _ & Hn3 & Hr3).
  rewrite E3 in Hn3, Hr3. simpl in Hn3, Hr3.
  destruct Hp as (_ & _ & _ & Hroom0 & _).
  destruct Hp3 as (H1 & H2 & H3 & H4 & H5 & H6 & H7).
  assert (nextObjID p3 + 1 ≤ N) as Hroom by lia.
  assert (0 ≤ nextObjID p3) as Hpos.
  { rewrite <- H2. unfold graph.NumObjects. lia. }
  assert (wrap64 (nextObjID p3 + 1) = nextObjID p3 + 1) as Hw.
  { unfold wrap64. apply Z.mod_small. lia. }
  assert (graph.objects (g p3) !! nextObjID p3 = None) as Hfresh.
  { destruct (graph.objects (g p3) !! nextObjID p3) eqn:E; [|done].
    assert (is_Some (graph.GetObject (g p3) (nextObjID p3))) as Hs by by eexists.
    apply H3 in Hs. lia. }
  unfold mbind, M_bind, get, modify. cbv zeta.
  set (tn := if int64 (pointerSize p3) <=? Z.of_nat (length data) then _ else _).
  destruct (tn _) as [[typeName|e| |] p4] eqn:E4; try done.
  assert (p4 = set_addrToObjID <[addr:=nextObjID p3]>
                 (set_nextObjID (λ n : Z, wrap64 (n + 1)) p3)) as ->.
  { subst tn. destruct (int64 (pointerSize p3) <=? Z.of_nat (length data)).
    - destruct (subslice _ _ _); try done.
      destruct (types p3 !! _); by injection E4.
    - by injection E4. }
  intros [= <-]. unfold parser_ok. simpl. rewrite Hw. split_and!.
  - intros k obj Hl. simpl in Hl.
    apply lookup_insert_Some in Hl as [[<- <-]|[_ Hl]]; [done|]. by apply H1.
  - unfold graph.NumObjects in *. simpl. rewrite map_size_insert_None by done. lia.
  - intros id. unfold graph.GetObject. simpl. rewrite lookup_insert_is_Some.
    specialize (H3 id). unfold graph.GetObject in H3. split.
    + intros [<-|[_ Hs]]; [lia|]. apply H3 in Hs. lia.
    + intros Hid. destruct (decide (nextObjID p3 = id)) as [|Hne]; [by left|].
      right. split; [done|]. apply H3. lia.
  - lia.
  - intros a id Hl. apply lookup_insert_Some in Hl as [[_ <-]|[_ Hl]]; [lia|].
    apply H5 in Hl. lia.
  - intros id Hin. apply H6 in Hin. lia.
  - intros id obj. unfold graph.GetObject. simpl. intros Hl.
    apply lookup_insert_Some in Hl as [[_ <-]|[_ Hl]]; [simpl; split; [lia|done]|].
    by apply (H7 id).
Qed.

Lemma parseOtherRoot_ok N p res p' :
  parser_ok N p → parseOtherRoot p = (res, p') → parser_ok N p'.
Proof.
  intros Hp. unfold parseOtherRoot, mbind at 1, M_bind at 1.
  destruct (readString p) as [[desc|e| |] p1] eqn:E1.
  2-4: intros [= _ <-]; by apply (frames_eq _ N _ _ _ frames_readString Hp E1).
  pose proof (frames_eq _ N _ _ _ frames_readString Hp E1) as Hp1.
  unfold mbind at 1, M_bind at 1.
  destruct (readVarint p1) as [[ptr|e| |] p2] eqn:E2.
  2-4: intros [= _ <-]; by apply (frames_eq _ N _ _ _ frames_readVarint Hp1 E2).
  pose proof (frames_eq _ N _ _ _ frames_readVarint Hp1 E2) as Hp2.
  unfold mbind, M_bind, get, modify.
  destruct Hp2 as (H1 & H2 & H3 & H4 & H5 & H6 & H7).
  destruct (addrToObjID p2 !! ptr) as [objID|] eqn:E; intros [= _ <-]; unfold parser_ok; simpl.
  - split_and!; try done. intros id [Hin|Hin]%elem_of_app; [by apply H6|].
    apply list_elem_of_singleton in Hin as ->. by apply (H5 ptr).
  - by split_and!.
Qed.

Lemma bind_Ok {A B} (m : M parser A) (k : A → M parser B) p b p' :
  (m ≫= k) p = (Ok b, p') → ∃ a p1, m p = (Ok a, p1) ∧ k a p1 = (Ok b, p').
Proof.
  unfold mbind, M_bind. destruct (m p) as [[a|e| |] p1]; try done. by exists a, p1.
Qed.

Lemma wrapErr_Ok {A} format (m : M parser A) p a p' :
  wrapErr format m p = (Ok a, p') → m p = (Ok a, p').
Proof. unfold wrapErr. by destruct (m p) as [[?|?| |] ?]. Qed.

Lemma finalize_wellformed N p u p' :
  parser_ok N p → finalize p = (Ok u, p') → graph_wellformed (g p').
Proof.
  intros (H1 & H2 & H3 & H4 & H5 & H6 & H7) [= _ <-]. unfold graph_wellformed. simpl.
  split_and!.
  - done.
  - intros id. unfold graph.NumObjects in *. simpl. rewrite H2. apply H3.
  - exists (roots p). split; [done|]. intros id Hin. apply (H3 id). by apply H6.
  - done.
Qed.

Lemma records_wellformed N fuel : ∀ p p',
  N < 2 ^ 64 → parser_ok N p → records fuel p = (Ok tt, p') → graph_wellformed (g p').
Proof.
  induction fuel as [|fuel IH]; intros p p' HN Hp H; [done|].
  cbn [records] in H.
  destruct (readVarint p) as [[tag|e| |] p1] eqn:E1; try done.
  - pose proof (frames_eq _ N _ _ _ frames_readVarint Hp E1) as Hp1.
    repeat match type of H with
    | context [if ?c then _ else _] => destruct c
    end.
    all: try discriminate H.
    1: by apply (finalize_wellformed N p1 tt).
    all: apply bind_Ok in H as (a & p2 & HX%wrapErr_Ok & Hk); apply (IH p2 p' HN); [|done].
    all: try by (eapply frames_eq; [|exact Hp1|exact HX];
      unfold parseParams, parseType, parseGoroutine, parseStackFrame,
        parseMemStats, skipItab, skipFinalizer, skipDataSegment, skipDeferPanic,
        skipOSThread, skipMemProf; frames_auto).
    + destruct a. by apply (parseObject_ok fuel N p1).
    + by apply (parseOtherRoot_ok N p1 (Ok a)).
  - pose proof (frames_eq _ N _ _ _ frames_readVarint Hp E1) as Hp1.
    destruct e; try done. by apply (finalize_wellformed N p1 tt).
Qed.

Lemma parse_wellformed fuel input p' :
  Z.of_nat (length input) < 2 ^ 64 →
  parse fuel (newParser input) = (Ok tt, p') → graph_wellformed (g p').
Proof.
  intros HN H. unfold parse in H.
  apply bind_Ok in H as (header & p1 & Hh & H).
  destruct (decide (header = header_magic)); [|done].
  apply (records_wellformed (Z.of_nat (length input)) fuel p1); [done| |done].
  eapply frames_eq; [|  |exact Hh]; [frames_auto|].
  unfold parser_ok, graph.NumObjects, graph.GetObject. simpl. split_and!.
  - by intros k obj Hl.
  - by rewrite map_size_empty.
  - intros id. rewrite lookup_empty. split; [by intros [? ?]|lia].
  - lia.
  - by intros addr id Hl.
  - intros id Hin. by apply elem_of_nil in Hin.
  - by intros id obj Hl.
Qed.

End Frames.

(** X14. Every graph that [GoHeapParser.Parse] returns (for an input of
    fewer than 2^64 bytes) is well formed: each object is stored under its
    own id, the ids are exactly 0, 1, ..., NumObjects - 1 (the first object
    record gets id 0), the roots are a non-nil list of ids of objects of the
    graph, and every object has a size of at most 2^30 and an empty, non-nil
    pointer list. *)
Theorem goheap_Parse_graph_wellformed (fuel : nat) (input : list byte) (gr : graph.MemGraph) :
  Z.of_nat (length input) < 2 ^ 64 →
  goheap.Parse fuel input = Ok gr →
  keyed_by_ID gr ∧
  (∀ id, is_Some (graph.GetObject gr id) ↔ 0 ≤ id < graph.NumObjects gr) ∧
  (∃ ids, graph.IDs (graph.GetRoots gr) = Some ids ∧
          ∀ id, id ∈ ids → is_Some (graph.GetObject gr id)) ∧
  (∀ id obj, graph.GetObject gr id = Some obj →
             0 ≤ graph.Size obj ≤ 2 ^ 30 ∧ graph.Ptrs obj = Some []).
Proof.
  intros HN H. unfold goheap.Parse in H.
  destruct (goheap.parse fuel (goheap.newParser input)) as [[[]|e| |] p'] eqn:E; try done.
  injection H as <-. by apply (parse_wellformed fuel input).
Qed.

Lemma goheap_Parse_graph_wellformed_witness :
  graph_wellformed fixtures.scenarioF_graph.
Proof.
  apply (goheap_Parse_graph_wellformed 8 fixtures.scenarioF); [by vm_compute|].
  by vm_compute.
Defined.

(** * Pointer fields out of range *)

Lemma goheap_readVarint_written v rest p :
  0 ≤ v < 2 ^ 64 → goheap.r p = fixtures.writeVarint v ++ rest →
  goheap.readVarint p = (Ok v, goheap.set_r (fun _ => rest) p).
Proof.
  intros Hr Hq. unfold goheap.readVarint, goheap.onReader. rewrite Hq.
  unfold fixtures.writeVarint. by rewrite ReadUvarint_PutUvarint.
Qed.

Lemma goheap_readBytes_written b rest p :
  Z.of_nat (length b) ≤ 2 ^ 30 → goheap.r p = fixtures.writeBytes b ++ rest →
  goheap.readBytes p = (Ok b, goheap.set_r (fun _ => rest) p).
Proof.
  intros Hlen Hr. assert (0 ≤ Z.of_nat (length b) < 2 ^ 64) as Hrange by lia.
  unfold goheap.readBytes, fixtures.writeBytes in *.
  rewrite <- app_assoc in Hr. unfold mbind, M_bind.
  rewrite (goheap_readVarint_written _ _ _ Hrange Hr).
  destruct (2 ^ 30 <? Z.of_nat (length b)) eqn:E; [lia|].
  unfold goheap.onReader. cbn [goheap.r goheap.set_r]. by rewrite ReadFull_app.
Qed.



(** The slice expression of a pointer field whose end, as a signed [int],
    is negative: the bounds check of the source lets it through, and the
    slice expression panics. *)
Lemma far_field_panics (data : list byte) (offset pointerSize : Z) :
  Z.of_nat (length data) ≤ 2 ^ 30 → 0 ≤ offset < 2 ^ 64 → 0 ≤ pointerSize < 2 ^ 64 →
  2 ^ 63 ≤ wrap64 (offset + pointerSize) →
  (int64 (wrap64 (offset + pointerSize)) <=? Z.of_nat (length data)) = true ∧
  subslice data offset (wrap64 (offset + pointerSize)) = Panic.
Proof.
  intros Hd Ho Hp Hw.
  assert (wrap64 (offset + pointerSize) < 2 ^ 64) as Hlt.
  { unfold wrap64. apply Z.mod_pos_bound. lia. }
  split.
  - apply Z.leb_le. unfold int64.
    destruct (Z.ltb_spec (wrap64 (offset + pointerSize)) (2 ^ 63)); lia.
  - unfold subslice.
    destruct (Z.leb_spec (wrap64 (offset + pointerSize)) (Z.of_nat (length data))); [lia|].
    by rewrite andb_false_r.
Qed.

Section Panic_facts.

Import goheap.

Lemma goheap_objectFields_panics fuel data pointers offset rest p :
  Z.of_nat (length data) ≤ 2 ^ 30 → 0 ≤ offset < 2 ^ 64 → 0 ≤ pointerSize p < 2 ^ 64 →
  2 ^ 63 ≤ wrap64 (offset + pointerSize p) →
  r p = fixtures.writeVarint fieldKindPtr ++ fixtures.writeVarint offset ++ rest →
  objectFields (S fuel) data pointers p = (Panic, set_r (fun _ => rest) p).
Proof.
  intros Hd Ho Hp Hw Hr. cbn [objectFields]. unfold mbind at 1, M_bind at 1.
  rewrite (goheap_readVarint_written fieldKindPtr _ p) by (done || by vm_compute).
  change (fieldKindPtr =? fieldKindEol) with false. cbv iota.
  unfold mbind at 1, M_bind at 1.
  rewrite (goheap_readVarint_written offset rest) by done.
  unfold mbind, M_bind, get. cbn [pointerSize set_r bigEndian].
  destruct (far_field_panics data offset (pointerSize p)) as [-> ->]; try done.
Qed.

Lemma goheap_parseObject_panics fuel addr data offset rest p :
  0 ≤ addr < 2 ^ 64 →
  Z.of_nat (length data) ≤ 2 ^ 30 → 0 ≤ offset < 2 ^ 64 → 0 ≤ pointerSize p < 2 ^ 64 →
  2 ^ 63 ≤ wrap64 (offset + pointerSize p) →
  r p = fixtures.writeVarint addr ++ fixtures.writeBytes data ++
        fixtures.writeVarint fieldKindPtr ++ fixtures.writeVarint offset ++ rest →
  parseObject (S fuel) p = (Panic, set_r (fun _ => rest) p).
Proof.
  intros Ha Hd Ho Hp Hw Hr. unfold parseObject. unfold mbind at 1, M_bind at 1.
  rewrite (goheap_readVarint_written addr _ p Ha Hr).
  unfold mbind at 1, M_bind at 1.
  erewrite (goheap_readBytes_written data) by (done || reflexivity).
  unfold mbind at 1, M_bind at 1.
  erewrite (goheap_objectFields_panics fuel data [] offset rest) by (done || reflexivity).
  done.
Qed.

Lemma bind_eq_Ok {St A B} (m : M St A) (k : A → M St B) p a p1 :
  m p = (Ok a, p1) → (m ≫= k) p = k a p1.
Proof. intros H. unfold mbind, M_bind. by rewrite H. Qed.

Lemma bind_eq_Panic {St A B} (m : M St A) (k : A → M St B) p p1 :
  m p = (Panic, p1) → (m ≫= k) p = (Panic, p1).
Proof. intros H. unfold mbind, M_bind. by rewrite H. Qed.

Lemma wrapErr_eq {St A} format (m : M St A) p res p1 :
  m p = (res, p1) → (∀ e, res ≠ Err e) → wrapErr format m p = (res, p1).
Proof.
  intros H Hres. unfold wrapErr. rewrite H. destruct res as [a|e| |]; try done.
  by destruct (Hres e).
Qed.

(** The record loop at an object record. *)
Lemma records_at_object fuel p p1 :
  readVarint p = (Ok tagObject, p1) →
  records (S fuel) p
  = (_ ← wrapErr "parsing object: %w" (parseObject fuel); records fuel) p1.
Proof. intros H. cbn [records]. rewrite H. reflexivity. Qed.

Lemma goheap_records_panics fuel addr data offset rest p :
  0 ≤ addr < 2 ^ 64 →
  Z.of_nat (length data) ≤ 2 ^ 30 → 0 ≤ offset < 2 ^ 64 → 0 ≤ pointerSize p < 2 ^ 64 →
  2 ^ 63 ≤ wrap64 (offset + pointerSize p) →
  r p = fixtures.writeVarint tagObject ++
        fixtures.writeVarint addr ++ fixtures.writeBytes data ++
        fixtures.writeVarint fieldKindPtr ++ fixtures.writeVarint offset ++ rest →
  (records (S (S fuel)) p).1 = Panic.
Proof.
  intros Ha Hd Ho Hp Hw Hr.
  assert (0 ≤ tagObject < 2 ^ 64) as Ht by (unfold tagObject; lia).
  rewrite (records_at_object (S fuel) p _ (goheap_readVarint_written tagObject _ p Ht Hr)).
  erewrite bind_eq_Panic; [done|].
  apply wrapErr_eq; [|done].
  by apply (goheap_parseObject_panics fuel addr data offset rest).
Qed.

End Panic_facts.

(** X15. [GoHeapParser.Parse] panics on a dump whose first record is an
    object record with a pointer field at an offset of 2^63 or more, whatever
    the address, the payload and the bytes that follow: as a signed [int] the
    end of the field is negative, the bounds check lets it through, and the
    slice expression [data[offset:offset+pointerSize]] is out of range. *)
Theorem goheap_Parse_panics_on_far_pointer_field (fuel : nat) (addr : Z) (data : list byte)
    (offset : Z) (rest : list byte) :
  0 ≤ addr < 2 ^ 64 → Z.of_nat (length data) ≤ 2 ^ 30 → 2 ^ 63 ≤ offset < 2 ^ 64 →
  goheap.Parse (S (S fuel))
    (header_magic ++ fixtures.writeVarint goheap.tagObject ++
     fixtures.writeVarint addr ++ fixtures.writeBytes data ++
     fixtures.writeVarint goheap.fieldKindPtr ++ fixtures.writeVarint offset ++ rest)
  = Panic.
Proof.
  intros Ha Hd Ho.
  set (body := fixtures.writeVarint goheap.tagObject ++ _).
  unfold goheap.Parse, goheap.parse.
  erewrite bind_eq_Ok; cycle 1.
  { apply wrapErr_eq; [|done]. unfold goheap.onReader. cbn [goheap.r goheap.newParser].
    change 16 with (Z.of_nat (length header_magic)). by rewrite ReadFull_app. }
  destruct (decide (header_magic = header_magic)); [|done].
  pose proof (goheap_records_panics fuel addr data offset rest
                (goheap.set_r (fun _ => body) (goheap.newParser (header_magic ++ body)))) as H.
  destruct (goheap.records _ _) as [res p']. simpl in H. rewrite H; [done|done|done|lia|..].
  - lia.
  - unfold wrap64. rewrite Z.add_0_r, Z.mod_small by lia. lia.
  - done.
Qed.

Lemma goheap_Parse_panics_on_far_pointer_field_witness :
  goheap.Parse 2
    (header_magic ++ fixtures.writeVarint goheap.tagObject ++
     fixtures.writeVarint 1 ++ fixtures.writeBytes [x2a] ++
     fixtures.writeVarint goheap.fieldKindPtr ++ fixtures.writeVarint (2 ^ 63) ++ [])
  = Panic.
Proof.
  apply (goheap_Parse_panics_on_far_pointer_field 0 1 [x2a] (2 ^ 63) []); [lia|by simpl|lia].
Defined.

Section Streaming_panic_facts.

Context {U : Type}.
Implicit Types p : streaming.StreamingParser U.




End Streaming_panic_facts.



(** * The field loop of parseObject and ExtractPointers *)

Lemma foldM_snoc {A B} (f : B → A → outcome B) l a : ∀ b,
  foldM f b (l ++ [a]) = (b' ← foldM f b l; f b' a).
Proof.
  induction l as [|x l IH]; intros b; simpl.
  - by destruct (f b a).
  - destruct (f b x) as [b1|e| |]; simpl; [apply IH|done|done|done].
Qed.

Lemma foldM_app {A B} (f : B → A → outcome B) l1 l2 : ∀ b,
  foldM f b (l1 ++ l2) = (b' ← foldM f b l1; foldM f b' l2).
Proof.
  induction l1 as [|x l1 IH]; intros b; simpl; [done|].
  destruct (f b x) as [b1|e| |]; simpl; [apply IH|done|done|done].
Qed.

Section ExtractPointers_facts.

Import goheap.

(** One round of the loop of [ExtractPointers]. *)
Lemma ExtractPointers_snoc data fields field pointerSize bigEndian :
  ExtractPointers data (fields ++ [field]) pointerSize bigEndian
  = (pointers ← ExtractPointers data fields pointerSize bigEndian;
     if negb (Kind field =? fieldKindPtr) then Ok pointers
     else if Z.of_nat (length data) <? int64 (wrap64 (Offset field + pointerSize))
     then Ok pointers
     else
       ptrData ← subslice data (Offset field) (wrap64 (Offset field + pointerSize));
       let ptr := decodePointer bigEndian pointerSize ptrData in
       if negb (ptr =? 0) then Ok (pointers ++ [ptr]) else Ok pointers).
Proof. unfold ExtractPointers. by rewrite foldM_snoc. Qed.

Lemma readVarint_state p res p' :
  readVarint p = (res, p') → p' = set_r (fun _ => r p') p.
Proof.
  unfold readVarint, onReader. destruct (ReadUvarint (r p)) as [res' r']. by intros [= _ <-].
Qed.

Lemma pointerFields_extends fuel : ∀ fields p all p',
  pointerFields fuel fields p = (Ok all, p') → ∃ more, all = fields ++ more.
Proof.
  induction fuel as [|fuel IH]; intros fields p all p' H; [done|].
  cbn [pointerFields] in H. unfold mbind at 1, M_bind at 1 in H.
  destruct (readVarint p) as [[kind|e| |] p1]; try done.
  destruct (kind =? fieldKindEol).
  - injection H as <- _. exists []. by rewrite app_nil_r.
  - unfold mbind at 1, M_bind at 1 in H.
    destruct (readVarint p1) as [[offset|e| |] p2]; try done.
    apply IH in H as [more ->]. rewrite <- app_assoc. by eexists.
Qed.

Lemma objectFields_S fuel data pointers p :
  objectFields (S fuel) data pointers p =
  match readVarint p with
  | (Ok kind, p1) =>
    if kind =? fieldKindEol then (Ok pointers, p1)
    else
      match readVarint p1 with
      | (Ok offset, p2) =>
        if (kind =? fieldKindPtr)
           && (int64 (wrap64 (offset + pointerSize p2)) <=? Z.of_nat (length data)) then
          match subslice data offset (wrap64 (offset + pointerSize p2)) with
          | Ok ptrData =>
            let ptr := decodePointer (bigEndian p2) (pointerSize p2) ptrData in
            if negb (ptr =? 0) then objectFields fuel data (pointers ++ [ptr]) p2
            else objectFields fuel data pointers p2
          | _ => (Panic, p2)
          end
        else objectFields fuel data pointers p2
      | (Err e, p2) => (Err e, p2)
      | (Panic, p2) => (Panic, p2)
      | (OutOfFuel, p2) => (OutOfFuel, p2)
      end
  | (Err e, p1) => (Err e, p1)
  | (Panic, p1) => (Panic, p1)
  | (OutOfFuel, p1) => (OutOfFuel, p1)
  end.
Proof.
  cbn [objectFields]. unfold mbind at 1, M_bind at 1.
  destruct (readVarint p) as [[kind|e| |] p1]; try done.
  destruct (kind =? fieldKindEol); [done|].
  unfold mbind at 1, M_bind at 1.
  destruct (readVarint p1) as [[offset|e| |] p2]; try done.
  unfold mbind, M_bind, get.
  destruct ((kind =? fieldKindPtr) && _); [|done].
  destruct (subslice _ _ _); try reflexivity. cbv zeta. by destruct (negb _).
Qed.

Lemma objectFields_ExtractPointers fuel data : ∀ fields pointers p all p',
  ExtractPointers data fields (pointerSize p) (bigEndian p) = Ok pointers →
  pointerFields fuel fields p = (Ok all, p') →
  (objectFields fuel data pointers p).1
  = ExtractPointers data all (pointerSize p) (bigEndian p) ∧
  ((objectFields fuel data pointers p).1 ≠ Panic → (objectFields fuel data pointers p).2 = p').
Proof.
  induction fuel as [|fuel IH]; intros fields pointers p all p' Hacc H; [done|].
  rewrite objectFields_S.
  cbn [pointerFields] in H. unfold mbind at 1, M_bind at 1 in H.
  destruct (readVarint p) as [[kind|e| |] p1] eqn:E1; try done.
  apply readVarint_state in E1.
  destruct (kind =? fieldKindEol) eqn:Ek.
  - injection H as <- <-. by rewrite Hacc.
  - unfold mbind at 1, M_bind at 1 in H.
    destruct (readVarint p1) as [[offset|e| |] p2] eqn:E2; try done.
    apply readVarint_state in E2.
    assert (pointerSize p2 = pointerSize p ∧ bigEndian p2 = bigEndian p) as [Hps Hbe].
    { rewrite E2, E1. done. }
    pose proof (ExtractPointers_snoc data fields {| Kind := kind; Offset := offset |}
                  (pointerSize p) (bigEndian p)) as Hsnoc.
    rewrite Hacc in Hsnoc. simpl in Hsnoc.
    specialize (IH (fields ++ [{| Kind := kind; Offset := offset |}])).
    rewrite <- Hps, <- Hbe in *.
    destruct (kind =? fieldKindPtr); simpl in *.
    + rewrite Z.leb_antisym.
      destruct (Z.of_nat (length data) <? int64 (wrap64 (offset + pointerSize p2))); simpl in *.
      * by apply (IH pointers p2 all p').
      * destruct (subslice data offset (wrap64 (offset + pointerSize p2)))
          as [ptrData| | |] eqn:Es; simpl in *.
        -- destruct (decodePointer (bigEndian p2) (pointerSize p2) ptrData =? 0); simpl in *.
           ++ by apply (IH pointers p2 all p').
           ++ by apply (IH _ p2 all p').
        -- unfold subslice in Es. by destruct (_ && _).
        -- apply pointerFields_extends in H as [more ->].
           unfold ExtractPointers in *. rewrite foldM_app, Hsnoc. done.
        -- unfold subslice in Es. by destruct (_ && _).
    + by apply (IH pointers p2 all p').
Qed.

End ExtractPointers_facts.

(** X17. The field loop of [parseObject] and [ExtractPointers] agree: when
    the loop of [parseStackFrameFull] and [parseDataSegmentFull] reads a
    field list from the input, what the loop of [parseObject] collects from a
    payload while reading the same input is what [ExtractPointers] returns
    for the payload and that field list, under the pointer size and byte
    order of the parser; where one panics so does the other, and otherwise
    both loops stop at the same place of the input. *)
Theorem parseObject_fields_agree_with_ExtractPointers (fuel : nat) (data : list byte)
    (p p' : goheap.parser) (fields : list goheap.PointerField) :
  goheap.pointerFields fuel [] p = (Ok fields, p') →
  (goheap.objectFields fuel data [] p).1
  = goheap.ExtractPointers data fields (goheap.pointerSize p) (goheap.bigEndian p) ∧
  ((goheap.objectFields fuel data [] p).1 ≠ Panic →
   (goheap.objectFields fuel data [] p).2 = p').
Proof. intros H. by apply (objectFields_ExtractPointers fuel data [] [] p fields p'). Qed.

Lemma parseObject_fields_agree_with_ExtractPointers_witness :
  (goheap.objectFields 2 [x07; x00; x00; x00; x00; x00; x00; x00] []
     (goheap.set_pointerSize 8
        (goheap.newParser (fixtures.writeVarint 1 ++ fixtures.writeVarint 0 ++ [x00])))).1
  = Ok [7].
Proof.
  destruct (parseObject_fields_agree_with_ExtractPointers 2
              [x07; x00; x00; x00; x00; x00; x00; x00]
              (goheap.set_pointerSize 8
                 (goheap.newParser (fixtures.writeVarint 1 ++ fixtures.writeVarint 0 ++ [x00])))
              (goheap.set_pointerSize 8 (goheap.newParser []))
              [{| goheap.Kind := 1; goheap.Offset := 0 |}]) as [H _].
  - vm_compute. reflexivity.
  - rewrite H. vm_compute. reflexivity.
Defined.

Section ExtractPointers_bounds.

Import goheap.

Variables (data : list byte) (pointerSize : Z) (bigEndian : bool).
Hypothesis pointerSize_range : 0 ≤ pointerSize.

Lemma ExtractPointers_in_range_aux (fields : list PointerField) :
  (∀ f, f ∈ fields → Kind f = fieldKindPtr → 0 ≤ Offset f ∧ Offset f + pointerSize < 2 ^ 63) →
  ∃ pointers, ExtractPointers data fields pointerSize bigEndian = Ok pointers ∧
    Forall (fun ptr => 0 ≠ ptr) pointers ∧
    (length pointers ≤ length (filter (fun f => Kind f = fieldKindPtr) fields))%nat ∧
    (pointerSize ≠ 4 → pointerSize ≠ 8 → pointers = []).
Proof.
  induction fields as [|f fields IH] using rev_ind; intros Hf.
  - exists []. by split_and!.
  - destruct IH as (pointers & Hp & Hnz & Hlen & Hsize).
    { intros f' Hin. apply Hf. apply elem_of_app. by left. }
    rewrite ExtractPointers_snoc, Hp. simpl. rewrite filter_app, length_app.
    destruct (Z.eqb_spec (Kind f) fieldKindPtr) as [Hk|Hk]; simpl.
    + destruct (Hf f) as [Ho Hsum]; [apply elem_of_app; right; constructor|done|].
      assert (wrap64 (Offset f + pointerSize) = Offset f + pointerSize) as ->.
      { unfold wrap64. apply Z.mod_small. lia. }
      assert (int64 (Offset f + pointerSize) = Offset f + pointerSize) as ->.
      { unfold int64. destruct (Z.ltb_spec (Offset f + pointerSize) (2 ^ 63)); lia. }
      rewrite filter_cons_True by done. simpl.
      destruct (Z.ltb_spec (Z.of_nat (length data)) (Offset f + pointerSize)).
      * exists pointers. split_and!; try done. lia.
      * unfold subslice.
        destruct (Z.leb_spec (Offset f) (Offset f + pointerSize)); [|lia].
        destruct (Z.leb_spec (Offset f + pointerSize) (Z.of_nat (length data))); [|lia].
        simpl.
        set (ptr := decodePointer _ _ _).
        assert (pointerSize ≠ 4 → pointerSize ≠ 8 → ptr = 0) as Hdec.
        { intros H4 H8. subst ptr. unfold decodePointer.
          destruct (Z.eqb_spec pointerSize 8); [done|].
          by destruct (Z.eqb_spec pointerSize 4). }
        destruct (Z.eqb_spec ptr 0) as [Hz|Hz]; simpl.
        -- exists pointers. split_and!; try done. lia.
        -- exists (pointers ++ [ptr]). split_and!; try done.
           ++ apply Forall_app. split; [done|]. by constructor.
           ++ rewrite length_app. simpl. lia.
           ++ intros H4 H8. by destruct Hz; apply Hdec.
    + rewrite filter_cons_False by done. exists pointers. split_and!; try done. simpl. lia.
Qed.

End ExtractPointers_bounds.

(** X18. [ExtractPointers] on fields in range: when the end
    [Offset + pointerSize] of every pointer field stays below 2^63 it does not
    panic; it returns only non-null pointers, at most one for each field of
    kind pointer, and none at all for a pointer size other than 4 and 8. *)
Theorem ExtractPointers_in_range (data : list byte) (fields : list goheap.PointerField)
    (pointerSize : Z) (bigEndian : bool) :
  0 ≤ pointerSize →
  (∀ f, f ∈ fields → goheap.Kind f = goheap.fieldKindPtr →
        0 ≤ goheap.Offset f ∧ goheap.Offset f + pointerSize < 2 ^ 63) →
  ∃ pointers, goheap.ExtractPointers data fields pointerSize bigEndian = Ok pointers ∧
    Forall (fun ptr => 0 ≠ ptr) pointers ∧
    (length pointers
     ≤ length (filter (fun f => goheap.Kind f = goheap.fieldKindPtr) fields))%nat ∧
    (pointerSize ≠ 4 → pointerSize ≠ 8 → pointers = []).
Proof. intros Hps Hf. by apply ExtractPointers_in_range_aux. Qed.

Lemma ExtractPointers_in_range_witness :
  ∃ pointers,
    goheap.ExtractPointers [x07; x00; x00; x00; x00; x00; x00; x00]
      [{| goheap.Kind := 1; goheap.Offset := 0 |}; {| goheap.Kind := 1; goheap.Offset := 100 |};
       {| goheap.Kind := 2; goheap.Offset := 0 |}] 8 false = Ok pointers ∧
    Forall (fun ptr => 0 ≠ ptr) pointers.
Proof.
  destruct (ExtractPointers_in_range [x07; x00; x00; x00; x00; x00; x00; x00]
      [{| goheap.Kind := 1; goheap.Offset := 0 |}; {| goheap.Kind := 1; goheap.Offset := 100 |};
       {| goheap.Kind := 2; goheap.Offset := 0 |}] 8 false) as (pointers & H1 & H2 & _).
  - lia.
  - intros f Hin _.
    repeat (apply elem_of_cons in Hin as [->|Hin]; [simpl; lia|]). by apply elem_of_nil in Hin.
  - by exists pointers.
Defined.

(** * Termination of the goheap parser *)

Section Runs.

Import goheap.

Ltac runs_solve := split; [simpl; lia|intros _; done].

Lemma runs_ret {A} n (a : A) : runs n (mret a).
Proof. intros p res p' [= <- <-]. runs_solve. Qed.
Lemma runs_fail {A} n e : runs n (@fail parser A e).
Proof. intros p res p' [= <- <-]. runs_solve. Qed.
Lemma runs_panic {A} n : runs n (@panic parser A).
Proof. intros p res p' [= <- <-]. runs_solve. Qed.
Lemma runs_get n : runs n (@get parser).
Proof. intros p res p' [= <- <-]. runs_solve. Qed.

Lemma runs_bind {A B} n (m : M parser A) (k : A → M parser B) :
  runs n m → (∀ a, runs n (k a)) → runs n (m ≫= k).
Proof.
  intros Hm Hk p res p' H. unfold mbind, M_bind in H.
  destruct (m p) as [[a|e| |] p1] eqn:Hmp; specialize (Hm _ _ _ Hmp) as (? & Hf).
  - apply Hk in H as (? & Hf'). split; [lia|]. intros Hn. apply Hf'. lia.
  - injection H as <- <-. split; [lia|done].
  - injection H as <- <-. split; [lia|done].
  - injection H as <- <-. split; [lia|]. intros Hn. by destruct (Hf Hn).
Qed.

Lemma runs_wrapErr {A} n format (m : M parser A) : runs n m → runs n (wrapErr format m).
Proof.
  intros Hm p res p' H. unfold wrapErr in H.
  destruct (m p) as [[a|e| |] p1] eqn:Hmp; specialize (Hm _ _ _ Hmp) as (? & Hf);
    injection H as <- <-; split; done.
Qed.

Lemma runs_repeatM n k (m : M parser unit) : runs n m → runs n (repeatM k m).
Proof.
  intros Hm. induction k as [|k IH]; simpl; [apply runs_ret|]. by apply runs_bind.
Qed.

Lemma runs_modify n (f : parser → parser) : (∀ p, r (f p) = r p) → runs n (modify f).
Proof. intros Hf p res p' [= <- <-]. rewrite Hf. runs_solve. Qed.

Lemma runs_readVarint n : runs n readVarint.
Proof.
  intros p res p' H. unfold readVarint, onReader in H.
  pose proof (ReadUvarint_outcome (r p)) as Ho.
  destruct (ReadUvarint (r p)) as [res1 r1] eqn:Hr.
  apply ReadUvarint_loop_length in Hr. injection H as <- <-. simpl. split; [done|].
  intros _. by destruct res1.
Qed.

Lemma runs_ReadFull n len : runs n (onReader (ReadFull len)).
Proof.
  intros p res p' H. unfold onReader in H.
  destruct (ReadFull len (r p)) as [res1 r1] eqn:Hr.
  apply ReadFull_length in Hr as [? ?]. injection H as <- <-. simpl. by split.
Qed.

(** After a varint has been read the rest runs on a shorter input. *)
Lemma runs_bind_readVarint {B} n (k : Z → M parser B) :
  (∀ a, runs (pred n) (k a)) → runs n (readVarint ≫= k).
Proof.
  intros Hk p res p' H. unfold mbind, M_bind, readVarint, onReader in H.
  pose proof (ReadUvarint_outcome (r p)) as Ho.
  destruct (ReadUvarint (r p)) as [res1 r1] eqn:Hr.
  pose proof (ReadUvarint_loop_length _ _ _ _ _ _ _ Hr) as Hlen.
  apply ReadUvarint_progress in Hr as [(_ & -> & _)|[Hlt _]].
  { injection H as <- <-. simpl. split; [lia|done]. }
  destruct res1 as [v|e| |]; try done.
  - apply Hk in H as (Hl & Hf). simpl in *. split; [lia|]. intros Hn. apply Hf. lia.
  - injection H as <- <-. simpl. split; [lia|done].
Qed.

Lemma runs_weaken {A} n n' (m : M parser A) : runs n m → (n' ≤ n)%nat → runs n' m.
Proof.
  intros Hm Hle p res p' H. apply Hm in H as (? & Hf). split; [done|].
  intros Hn. apply Hf. lia.
Qed.

Ltac runs_step :=
  first
    [ apply runs_ret | apply runs_fail | apply runs_panic | apply runs_get
    | apply runs_readVarint | apply runs_ReadFull
    | apply runs_wrapErr
    | apply runs_repeatM
    | apply runs_modify; intros ?; done
    | apply runs_bind; [|intros ?]
    | match goal with
      | |- runs _ (let _ := _ in _) => cbv zeta
      | |- runs _ (if ?c then _ else _) => destruct c
      | |- runs _ (match ?x with _ => _ end) => destruct x
      end ].

Lemma runs_readString n : runs n readString.
Proof. unfold readString. repeat runs_step. Qed.
Lemma runs_readBytes n : runs n readBytes.
Proof. unfold readBytes. repeat runs_step. Qed.
Lemma runs_skipVarint n : runs n skipVarint.
Proof. unfold skipVarint. repeat runs_step. Qed.

Ltac runs_base :=
  repeat first [ apply runs_readString | apply runs_readBytes | apply runs_skipVarint
               | runs_step ].

Lemma runs_objectFields fuel : ∀ data pointers, runs fuel (objectFields fuel data pointers).
Proof.
  induction fuel as [|fuel IH]; intros data pointers; simpl.
  - intros p res p' [= <- <-]. split; [lia|]. intros Hn. lia.
  - apply runs_bind_readVarint. intros kind. simpl.
    destruct (kind =? fieldKindEol); [apply runs_ret|].
    repeat first [apply IH | runs_step].
Qed.

Lemma runs_skipFields fuel : runs fuel (skipFields fuel).
Proof.
  induction fuel as [|fuel IH]; simpl.
  - intros p res p' [= <- <-]. split; [lia|]. intros Hn. lia.
  - apply runs_bind_readVarint. intros kind. simpl.
    destruct (kind =? fieldKindEol); [apply runs_ret|].
    repeat first [apply IH | runs_step].
Qed.

Lemma runs_skipFrames fuel : ∀ i nstk, runs fuel (skipFrames fuel i nstk).
Proof.
  induction fuel as [|fuel IH]; intros i nstk; simpl.
  - destruct (i <? nstk); [|apply runs_ret].
    intros p res p' [= <- <-]. split; [lia|]. intros Hn. lia.
  - destruct (i <? nstk); [|apply runs_ret].
    apply runs_bind; [apply runs_readString|]. intros _.
    apply runs_bind; [apply runs_readString|]. intros _.
    apply runs_bind_readVarint. intros _. simpl. apply IH.
Qed.

Ltac runs_auto :=
  repeat first [ apply runs_readString | apply runs_readBytes | apply runs_skipVarint
               | runs_step ].

Lemma runs_records fuel : runs fuel (records fuel).
Proof.
  induction fuel as [|fuel IH].
  - intros p res p' [= <- <-]. split; [lia|]. intros Hn. lia.
  - intros p res p' H. cbn [records] in H.
    destruct (readVarint p) as [[tag|e| |] p1] eqn:E1.
    + assert (length (r p1) < length (r p))%nat as Hlt by by apply readVarint_Ok in E1.
      assert (∀ (m : M parser unit) q res' q',
                runs fuel m → (_ ← m; records fuel) q = (res', q') →
                (length (r q') ≤ length (r q))%nat ∧
                ((length (r q) < fuel)%nat → res' ≠ OutOfFuel)) as Hthen.
      { intros m q res' q' Hm Hq. revert Hq. apply runs_bind; [done|]. intros _. apply IH. }
      assert ((length (r p') ≤ length (r p1))%nat ∧
              ((length (r p1) < fuel)%nat → res ≠ OutOfFuel)) as [Hl Hf].
      { repeat match type of H with
        | context [if ?c then _ else _] => destruct c
        end.
        1: by injection H as <- <-.
        14: by injection H as <- <-.
        all: apply Hthen in H; [done|]; apply runs_wrapErr.
        all: unfold parseParams, parseType, parseObject, parseOtherRoot, parseGoroutine,
          parseStackFrame, parseMemStats, skipItab, skipFinalizer, skipDataSegment,
          skipDeferPanic, skipOSThread, skipMemProf.
        all: repeat first [ apply runs_objectFields | apply runs_skipFields
                          | apply runs_skipFrames | runs_auto ]. }
      split; [lia|]. intros Hn. apply Hf. lia.
    + apply (runs_readVarint (S fuel)) in E1 as [Hl Hf].
      destruct e; injection H as <- <-; split; done.
    + apply (runs_readVarint (S fuel)) in E1 as [Hl Hf]. injection H as <- <-.
      split; [done|]. by intros _ ?.
    + apply (runs_readVarint (S fuel)) in E1 as [Hl Hf]. injection H as <- <-.
      split; [done|]. intros Hn. by destruct (Hf Hn).
Qed.

End Runs.

(** X19. [GoHeapParser.Parse] terminates on every input: each of its loops
    consumes at least one byte in every round, so that with fuel above the
    length of the input it returns a graph, returns an error wrapped as
    "parsing heap dump: ...", or panics. *)
Theorem goheap_Parse_terminates (fuel : nat) (input : list byte) :
  (length input < fuel)%nat →
  (∃ gr, goheap.Parse fuel input = Ok gr) ∨
  (∃ e, goheap.Parse fuel input = Err (Wrapf "parsing heap dump: %w" [] e)) ∨
  goheap.Parse fuel input = Panic.
Proof.
  intros Hfuel. unfold goheap.Parse.
  destruct (goheap.parse fuel (goheap.newParser input)) as [[[]|e| |] p'] eqn:E.
  - left. by eexists.
  - right. left. by eexists.
  - right. right. done.
  - exfalso. revert E. unfold goheap.parse. intros E.
    apply (runs_bind fuel) in E as [_ Hf]; [by apply Hf| |].
    + apply runs_wrapErr, runs_ReadFull.
    + intros header. destruct (decide (header = header_magic)); [apply runs_records|].
      apply runs_fail.
Qed.

Lemma goheap_Parse_terminates_witness :
  (∃ gr, goheap.Parse 102 fixtures.scenarioF = Ok gr) ∨
  (∃ e, goheap.Parse 102 fixtures.scenarioF = Err (Wrapf "parsing heap dump: %w" [] e)) ∨
  goheap.Parse 102 fixtures.scenarioF = Panic.
Proof. apply goheap_Parse_terminates. vm_compute. lia. Defined.
